(** * EME container extractor: stage cipher, sliding-window decoder, index reader

    A shallow embedding of [EXEME.py] and [lzss.py].  Python values are
    modelled as they appear in the code: [bytes]/[bytearray] as [list byte],
    integers as [Z], exceptions as the [Raise] branch of a result type, and
    the attributes the code mutates ([self.entries], the file position) as
    explicit state. *)

From Stdlib Require Import String ZArith List Lia Bool.
From Stdlib.Strings Require Import Byte.
Import ListNotations.
Open Scope Z_scope.

(* ================================================================== *)
(** ** Python primitives used by both modules *)
(* ================================================================== *)

Module Py.

(** The kind of sequence an [IndexError] comes from; CPython words the
    message differently for each. *)
Inductive seqkind : Type := Bytes | Bytearray | Memoryview.

(** The exceptions the modelled code can raise. *)
Inductive exn : Type :=
| StructError                 (* struct.error *)
| IndexError (k : seqkind)
| ValueError
| TypeError
| OSError
| OverflowError
| ImportError (name : string).

Inductive result (A : Type) : Type :=
| Ok (a : A)
| Raise (e : exn).
Arguments Ok {A} a.
Arguments Raise {A} e.

Definition bind {A B} (m : result A) (k : A -> result B) : result B :=
  match m with
  | Ok a => k a
  | Raise e => Raise e
  end.

Definition len {A} (l : list A) : Z := Z.of_nat (length l).

(** [ord] of a one-byte string, and the byte holding an integer's low
    eight bits. *)
Definition ord (b : byte) : Z := Z.of_N (Byte.to_N b).

Definition chr (z : Z) : byte :=
  match Byte.of_N (Z.to_N (z mod 256)) with
  | Some b => b
  | None => x00
  end.

(** Index normalisation of [seq[i]]: a negative index counts from the
    end, anything still out of range raises [IndexError]. *)
Definition norm_index (n i : Z) : option nat :=
  let j := if i <? 0 then i + n else i in
  if (j <? 0) || (n <=? j) then None else Some (Z.to_nat j).

Definition getitem {A} (k : seqkind) (l : list A) (i : Z) : result A :=
  match norm_index (len l) i with
  | Some j =>
      match nth_error l j with
      | Some a => Ok a
      | None => Raise (IndexError k)
      end
  | None => Raise (IndexError k)
  end.

Definition setitem {A} (k : seqkind) (l : list A) (i : Z) (a : A)
  : result (list A) :=
  match norm_index (len l) i with
  | Some j => Ok (firstn j l ++ a :: skipn (S j) l)
  | None => Raise (IndexError k)
  end.

(** Bound clamping of a slice [seq[lo:hi]] (step 1). *)
Definition clamp (n i : Z) : nat :=
  Z.to_nat (if i <? 0 then Z.max (i + n) 0 else Z.min i n).

Definition slice {A} (l : list A) (lo hi : Z) : list A :=
  let a := clamp (len l) lo in
  let b := clamp (len l) hi in
  firstn (b - a) (skipn a l).

(** [range(n)] and [range(0, stop, 4)]. *)
Definition range (n : Z) : list Z := map Z.of_nat (seq 0 (Z.to_nat n)).

Definition range4 (stop : Z) : list Z :=
  map (fun k => 4 * Z.of_nat k) (seq 0 (Z.to_nat ((stop + 3) / 4))).

(** A [for] loop whose body may raise: the state reached so far is
    dropped with the exception, as for a local variable. *)
Fixpoint for_ {A S} (xs : list A) (body : A -> S -> result S) (s : S)
  : result S :=
  match xs with
  | [] => Ok s
  | x :: xs' => bind (body x s) (for_ xs' body)
  end.

(** *** [struct]: little-endian unsigned integers *)

Fixpoint le_decode (bs : list byte) : Z :=
  match bs with
  | [] => 0
  | b :: bs' => ord b + 256 * le_decode bs'
  end.

Fixpoint le_encode (size : nat) (v : Z) : list byte :=
  match size with
  | O => []
  | S size' => chr v :: le_encode size' (v / 256)
  end.

(** Offset check shared by [unpack_from] and [pack_into]: a negative
    offset counts from the end of the buffer; [size] bytes must be
    available at the resulting position. *)
Definition struct_offset (size : nat) (n offset : Z) : option nat :=
  let off := if offset <? 0 then offset + n else offset in
  if (off <? 0) || (n - off <? Z.of_nat size) then None
  else Some (Z.to_nat off).

Definition unpack_from (size : nat) (buf : list byte) (offset : Z)
  : result Z :=
  match struct_offset size (len buf) offset with
  | Some off => Ok (le_decode (firstn size (skipn off buf)))
  | None => Raise StructError
  end.

Definition pack_into (size : nat) (buf : list byte) (offset v : Z)
  : result (list byte) :=
  match struct_offset size (len buf) offset with
  | Some off =>
      if (0 <=? v) && (v <? 256 ^ Z.of_nat size)
      then Ok (firstn off buf ++ le_encode size v ++ skipn (off + size) buf)
      else Raise StructError
  | None => Raise StructError
  end.

(** [struct.unpack(fmt, data)]: the data must have exactly the size of
    the format. *)
Definition unpack (size : nat) (data : list byte) : result Z :=
  if Nat.eqb (length data) size then Ok (le_decode data)
  else Raise StructError.

(** How a loop body ends: it falls through to the next iteration, the
    enclosing function returns, or an exception leaves it.  The state is
    kept in every case, because the code writes to attributes of [self]
    that stay visible afterwards. *)
Inductive flow (S : Type) : Type :=
| Next (s : S)
| Return (s : S)
| Throw (e : exn) (s : S).
Arguments Next {S} s.
Arguments Return {S} s.
Arguments Throw {S} e s.

Definition final {S} (f : flow S) : S :=
  match f with Next s | Return s | Throw _ s => s end.

Definition lift {S A} (r : result A) (s : S) (k : A -> flow S) : flow S :=
  match r with
  | Ok a => k a
  | Raise e => Throw e s
  end.

(** [for x in xs: body], where [body] may return or raise. *)
Fixpoint each {A S} (xs : list A) (body : A -> S -> flow S) (s : S)
  : flow S :=
  match xs with
  | [] => Next s
  | x :: xs' =>
      match body x s with
      | Next s' => each xs' body s'
      | stop => stop
      end
  end.

(** *** Binary files opened for reading: content and position *)

(** The bytes that [f.read(n)] returns at position [pos] for a count it
    accepts, and the new position; the count -1 reads to the end of the
    file. *)
Definition read_at (content : list byte) (pos n : Z) : list byte * Z :=
  let rest := skipn (Z.to_nat pos) content in
  let data := if n <? 0 then rest else firstn (Z.to_nat n) rest in
  (data, pos + len data).

(** [f.read(n)] on a file opened with ['rb'], a buffered reader: a count
    below -1 raises [ValueError], and [OverflowError] when it is below
    the index type, that is below -2^63.  (The model sets no upper
    limit to a count: memory is never short and no count is above the
    index type.  The counts of the extractor are differences of 32-bit
    values.) *)
Definition f_read (content : list byte) (pos n : Z)
  : result (list byte * Z) :=
  if n <? - 2 ^ 63 then Raise OverflowError
  else if n <? -1 then Raise ValueError
  else Ok (read_at content pos n).

(** [f.seek(pos)] for a position that fits the file offset type and
    that the file system accepts: a negative position raises
    [OSError]. *)
Definition f_seek (pos : Z) : result Z :=
  if pos <? 0 then Raise OSError else Ok pos.

(** [f.seek(pos)] for any integer, on a file system whose largest
    position is [limit]: a position outside the signed 64-bit range of a
    file offset raises [ValueError]; a negative position and a position
    above [limit] raise [OSError]. *)
Definition f_seek_any (limit pos : Z) : result Z :=
  if (pos <? - 2 ^ 63) || (2 ^ 63 <=? pos) then Raise ValueError
  else if limit <? pos then Raise OSError
  else f_seek pos.

(** Equality of two byte strings. *)
Fixpoint bytes_eqb (a b : list byte) : bool :=
  match a, b with
  | [], [] => true
  | x :: a', y :: b' => Byte.eqb x y && bytes_eqb a' b'
  | _, _ => false
  end.

(** [data.find(b'\0', lo, hi)]: the index of the first zero byte of
    [data[lo:hi]], or -1. *)
Fixpoint find_zero (l : list byte) (i : Z) : Z :=
  match l with
  | [] => -1
  | b :: l' => if Byte.eqb b x00 then i else find_zero l' (i + 1)
  end.

Definition find0 (data : list byte) (lo hi : Z) : Z :=
  find_zero (slice data lo hi) (Z.of_nat (clamp (len data) lo)).

End Py.

Import Py.

Declare Scope py_scope.
Delimit Scope py_scope with py.
Notation "x <- m ;; k" := (bind m (fun x => k))
  (at level 61, m at next level, right associativity) : py_scope.
Notation "' pat <- m ;; k" := (bind m (fun x => match x with pat => k end))
  (at level 61, pat pattern, m at next level, right associativity) : py_scope.
Open Scope py_scope.

(* ================================================================== *)
(** ** [EXEME.py]: the stage cipher *)
(* ================================================================== *)

Module Cipher.

(** [EmeArchive.shift_value]. *)
Definition shift_value (val key : Z) : Z :=
  snd (fold_left
         (fun (st : Z * Z) (i : Z) =>
            let '(shift, result) := st in
            let shift := shift + key in
            (shift,
             Z.lor result
               (Z.shiftl (Z.land (Z.shiftr val i) 1) (shift mod 32))))
         (range 32) (0, 0)).

(** [EmeArchive.init_table]; the returned list is the content of
    [buffer] after [buffer[:] = table]. *)
Definition init_table (buffer : list byte) (key : Z) : result (list byte) :=
  let length := len buffer in
  let table := repeat x00 (Z.to_nat length) in
  '(_, table) <-
    for_ (range length)
      (fun i (st : Z * list byte) =>
         let '(x, table) := st in
         let x := (x + key) mod length in
         b <- getitem Memoryview buffer i ;;
         table <- setitem Bytearray table x b ;;
         Ok (x, table))
      (0, table) ;;
  Ok table.

(** The three word loops of [decrypt], each over [range(0, len(data), 4)]
    and each updating [data] in place. *)
Definition xor_const (data : list byte) (key : Z) : result (list byte) :=
  for_ (range4 (len data))
    (fun j data =>
       v <- unpack_from 4 data j ;;
       pack_into 4 data j (Z.lxor v key))
    data.

Definition xor_chain (data : list byte) (key : Z) : result (list byte) :=
  '(data, _) <-
    for_ (range4 (len data))
      (fun j (st : list byte * Z) =>
         let '(data, key) := st in
         v <- unpack_from 4 data j ;;
         data <- pack_into 4 data j (Z.lxor v key) ;;
         Ok (data, v))
      (data, key) ;;
  Ok data.

Definition shift_words (data : list byte) (key : Z) : result (list byte) :=
  for_ (range4 (len data))
    (fun j data =>
       v <- unpack_from 4 data j ;;
       pack_into 4 data j (shift_value v key))
    data.

(** The [if]/[elif] chain on [routine[i]]. *)
Definition stage (op : Z) (data : list byte) (key : Z)
  : result (list byte) :=
  if op =? 1 then xor_const data key
  else if op =? 2 then xor_chain data key
  else if op =? 4 then shift_words data key
  else if op =? 8 then init_table data key
  else Ok data.

(** One iteration of [for i in range(7, -1, -1)]; the loop state is
    [key_index] and the region. *)
Definition decrypt_round (routine : list byte) (i : Z)
    (st : Z * list byte) : result (Z * list byte) :=
  let '(key_index, data) := st in
  let key_index := key_index - 4 in
  key <- unpack_from 4 routine key_index ;;
  op <- getitem Bytes routine i ;;
  data <- stage (ord op) data key ;;
  Ok (key_index, data).

(** [decrypt] on the region itself ([data], the memoryview). *)
Definition decrypt_data (data routine : list byte) : result (list byte) :=
  '(_, data) <-
    for_ [7; 6; 5; 4; 3; 2; 1; 0] (decrypt_round routine)
      (len routine, data) ;;
  Ok data.

(** [EmeArchive.decrypt]: the region [buffer[offset:offset+length]] is
    transformed in place; the result is the whole buffer afterwards. *)
Definition decrypt (buffer : list byte) (offset length : Z)
    (routine : list byte) : result (list byte) :=
  let a := clamp (len buffer) offset in
  let b := clamp (len buffer) (offset + length) in
  data <- decrypt_data (slice buffer offset (offset + length)) routine ;;
  Ok (firstn a buffer ++ data ++ skipn (Nat.max a b) buffer).

End Cipher.

Import Cipher.

(* ================================================================== *)
(** ** [lzss.py]: the two sliding-window decoders *)
(* ================================================================== *)

Module Lzss.

(** [LzssSettings]. *)
Record LzssSettings : Type := {
  frame_size : Z;
  frame_fill : byte;
  frame_init_pos : Z
}.

Definition default_settings : LzssSettings :=
  {| frame_size := 0x1000; frame_fill := x00; frame_init_pos := 0xFEE |}.

(** *** [LzssCoroutine]

    [co_input] is the unread part of [self.input]; [co_buffer], [co_pos]
    and [co_length] are the attributes of the same names; [co_frame] and
    [co_frame_pos] are the locals of [unpack]; [co_yields] lists the
    values the generator has yielded, oldest first.  The generator is run
    to exhaustion by a consumer that does not touch the attributes. *)
Record costate : Type := {
  co_input : list byte;
  co_buffer : list byte;
  co_pos : Z;
  co_length : Z;
  co_frame : list byte;
  co_frame_pos : Z;
  co_yields : list Z
}.

Definition co_read (s : costate) : option (byte * costate) :=
  match co_input s with
  | [] => None
  | b :: rest =>
      Some (b, {| co_input := rest; co_buffer := co_buffer s;
                  co_pos := co_pos s; co_length := co_length s;
                  co_frame := co_frame s; co_frame_pos := co_frame_pos s;
                  co_yields := co_yields s |})
  end.

(** The seven statements that produce one byte [v]. *)
Definition co_put (frame_mask : Z) (v : byte) (s : costate) : flow costate :=
  lift (setitem Bytearray (co_frame s) (Z.land (co_frame_pos s) frame_mask) v)
    s
    (fun frame =>
       let pos := co_pos s + 1 in
       let length := co_length s - 1 in
       Next {| co_input := co_input s;
               co_buffer := co_buffer s ++ [v];
               co_pos := pos;
               co_length := length;
               co_frame := frame;
               co_frame_pos := co_frame_pos s + 1;
               co_yields := if length =? 0 then co_yields s ++ [pos]
                            else co_yields s |}).

(** [for _ in range(3 + (hi & 0xF))]. *)
Fixpoint co_copy (n : nat) (frame_mask offset : Z) (s : costate)
  : flow costate :=
  match n with
  | O => Next s
  | S n' =>
      lift (getitem Bytearray (co_frame s) (Z.land offset frame_mask)) s
        (fun v =>
           match co_put frame_mask v s with
           | Next s' => co_copy n' frame_mask (offset + 1) s'
           | stop => stop
           end)
  end.

(** The body of [for bit in range(8)]. *)
Definition co_bit (frame_mask ctl bit : Z) (s : costate) : flow costate :=
  if negb (Z.land ctl (Z.shiftl 1 bit) =? 0) then
    match co_read s with
    | None => Return s
    | Some (b, s) => co_put frame_mask b s
    end
  else
    match co_read s with
    | None => Return s
    | Some (lo, s) =>
        match co_read s with
        | None => Return s
        | Some (hi, s) =>
            let lo := ord lo in
            let hi := ord hi in
            let offset := Z.lor (Z.shiftl (Z.land hi 0xf0) 4) lo in
            co_copy (Z.to_nat (3 + Z.land hi 0xF)) frame_mask offset s
        end
    end.

(** [while True]; [None] only when the fuel runs out. *)
Fixpoint co_while (fuel : nat) (frame_mask : Z) (s : costate)
  : option (flow costate) :=
  match fuel with
  | O => None
  | S fuel' =>
      match co_read s with
      | None => Some (Return s)
      | Some (ctl, s) =>
          match each (range 8) (co_bit frame_mask (ord ctl)) s with
          | Next s' => co_while fuel' frame_mask s'
          | stop => Some stop
          end
      end
  end.

(** [LzssCoroutine()] followed by [initialize(input_stream)]; [length] is
    the value a consumer may store in [self.length] before iterating
    (the constructor leaves 0 there). *)
Definition co_start (cfg : LzssSettings) (input : list byte) (length : Z)
  : costate :=
  {| co_input := input;
     co_buffer := [];
     co_pos := 0;
     co_length := length;
     co_frame := repeat (frame_fill cfg) (Z.to_nat (frame_size cfg));
     co_frame_pos := frame_init_pos cfg;
     co_yields := [] |}.

(** [LzssCoroutine.unpack], iterated to its end.  Every trip round the
    [while] loop reads a control byte, so [S (length input)] trips are
    enough. *)
Definition co_unpack (cfg : LzssSettings) (input : list byte) (length : Z)
  : option (flow costate) :=
  co_while (S (List.length input)) (frame_size cfg - 1)
    (co_start cfg input length).

(** *** [LzssReader]

    [r_input] is the unread part of [self.input], [r_output] is
    [self.output] and [r_size] is [self.size]; the other fields are the
    locals of [unpack]. *)
Record rstate : Type := {
  r_input : list byte;
  r_output : list byte;
  r_dst : Z;
  r_frame : list byte;
  r_frame_pos : Z;
  r_remaining : Z
}.

(** [input_stream.read(n)]: a negative count reads to the end. *)
Definition stream_read (stream : list byte) (n : Z) : list byte :=
  if n <? 0 then stream else firstn (Z.to_nat n) stream.

Record reader : Type := {
  rd_input : list byte;
  rd_output : list byte;
  rd_size : Z;
  rd_frame_size : Z;
  rd_frame_fill : byte;
  rd_frame_init_pos : Z
}.

(** [LzssReader.__init__]; [bytearray(n)] raises [ValueError] for a
    negative [n]. *)
Definition LzssReader (input_stream : list byte)
    (input_length output_length : Z) : result reader :=
  if output_length <? 0 then Raise ValueError
  else Ok {| rd_input := stream_read input_stream input_length;
             rd_output := repeat x00 (Z.to_nat output_length);
             rd_size := input_length;
             rd_frame_size := 0x1000;
             rd_frame_fill := x00;
             rd_frame_init_pos := 0xfee |}.

(** The six statements that produce one byte [v]. *)
Definition r_put (frame_mask : Z) (v : byte) (s : rstate) : flow rstate :=
  lift (setitem Bytearray (r_frame s) (r_frame_pos s) v) s
    (fun frame =>
       let s1 := {| r_input := r_input s; r_output := r_output s;
                    r_dst := r_dst s; r_frame := frame;
                    r_frame_pos := Z.land (r_frame_pos s + 1) frame_mask;
                    r_remaining := r_remaining s |} in
       lift (setitem Bytearray (r_output s1) (r_dst s1) v) s1
         (fun output =>
            Next {| r_input := r_input s1; r_output := output;
                    r_dst := r_dst s1 + 1; r_frame := r_frame s1;
                    r_frame_pos := r_frame_pos s1;
                    r_remaining := r_remaining s1 |})).

(** [for _ in range(3 + (hi & 0xF))], left by [break] once the output
    is full. *)
Fixpoint r_copy (n : nat) (frame_mask offset : Z) (s : rstate)
  : flow rstate :=
  match n with
  | O => Next s
  | S n' =>
      if r_dst s >=? len (r_output s) then Next s
      else
        lift (getitem Bytearray (r_frame s) offset) s
          (fun v =>
             match r_put frame_mask v s with
             | Next s' =>
                 r_copy n' frame_mask (Z.land (offset + 1) frame_mask) s'
             | stop => stop
             end)
  end.

(** [self.input.read(n)] followed by [remaining -= n]. *)
Definition r_take (n : nat) (s : rstate) : list byte * rstate :=
  (firstn n (r_input s),
   {| r_input := skipn n (r_input s); r_output := r_output s;
      r_dst := r_dst s; r_frame := r_frame s;
      r_frame_pos := r_frame_pos s;
      r_remaining := r_remaining s |}).

Definition r_consume (n : Z) (s : rstate) : rstate :=
  {| r_input := r_input s; r_output := r_output s;
     r_dst := r_dst s; r_frame := r_frame s;
     r_frame_pos := r_frame_pos s;
     r_remaining := r_remaining s - n |}.

(** The body of [for bit in range(8)]. *)
Definition r_bit (frame_mask ctl bit : Z) (s : rstate) : flow rstate :=
  if r_dst s >=? len (r_output s) then Return s
  else if negb (Z.land ctl (Z.shiftl 1 bit) =? 0) then
    if r_remaining s =? 0 then Return s
    else
      let '(bs, s) := r_take 1 s in
      match bs with
      | b :: _ => r_put frame_mask b (r_consume 1 s)
      | [] => Throw (IndexError Bytes) s
      end
  else
    if r_remaining s <? 2 then Return s
    else
      let '(bs, s) := r_take 2 s in
      match bs with
      | [lo; hi] =>
          let s := r_consume 2 s in
          let lo := ord lo in
          let hi := ord hi in
          let offset := Z.lor (Z.shiftl (Z.land hi 0xf0) 4) lo in
          r_copy (Z.to_nat (3 + Z.land hi 0xF)) frame_mask offset s
      | _ => Throw ValueError s
      end.

(** [while remaining > 0]; [None] only when the fuel runs out. *)
Fixpoint r_while (fuel : nat) (frame_mask : Z) (s : rstate)
  : option (flow rstate) :=
  if r_remaining s >? 0 then
    match fuel with
    | O => None
    | S fuel' =>
        let '(bs, s) := r_take 1 s in
        match bs with
        | ctl :: _ =>
            match each (range 8) (r_bit frame_mask (ord ctl))
                    (r_consume 1 s) with
            | Next s' => r_while fuel' frame_mask s'
            | stop => Some stop
            end
        | [] => Some (Throw (IndexError Bytes) s)
        end
    end
  else Some (Next s).

Definition r_start (r : reader) : rstate :=
  {| r_input := rd_input r;
     r_output := rd_output r;
     r_dst := 0;
     r_frame := repeat (rd_frame_fill r) (Z.to_nat (rd_frame_size r));
     r_frame_pos := rd_frame_init_pos r;
     r_remaining := rd_size r |}.

(** [LzssReader.unpack].  Every trip round the [while] loop lowers
    [remaining], so [self.size] trips are enough. *)
Definition r_unpack (r : reader) : option (flow rstate) :=
  r_while (Z.to_nat (rd_size r)) (rd_frame_size r - 1) (r_start r).

End Lzss.

Import Lzss.

(* ================================================================== *)
(** ** [EXEME.py]: the index reader and the record extractor *)
(* ================================================================== *)

Module Archive.

(** [EmEntry].  [name] holds the bytes of the name before
    [decode('utf-8', errors='replace')], which never raises. *)
Record EmEntry : Type := {
  name : list byte;
  offset : Z;
  size : Z;
  unpacked_size : Z;
  lzss_frame_size : Z;
  lzss_init_pos : Z;
  sub_type : Z;
  is_packed : bool
}.

(** The attributes of [EmeArchive] that [open] writes; the content of
    the file at [self.filepath] is passed separately. *)
Record EmeArchive : Type := {
  key : option (list byte);
  entries : list EmEntry
}.

(** [EmeArchive.__init__]. *)
Definition new_archive : EmeArchive := {| key := None; entries := [] |}.

(** [EmeArchive.read_uint32] and [EmeArchive.read_uint16] on a file with
    the given content, on a file system whose largest position is
    [limit]: the value read.  Their offset is whatever integer the caller
    passes.  (No other method calls them.) *)
Definition read_uint32 (limit : Z) (content : list byte) (offset : Z)
  : result Z :=
  pos <- f_seek_any limit offset ;;
  '(data, _) <- f_read content pos 4 ;;
  unpack 4 data.

Definition read_uint16 (limit : Z) (content : list byte) (offset : Z)
  : result Z :=
  pos <- f_seek_any limit offset ;;
  '(data, _) <- f_read content pos 2 ;;
  unpack 2 data.

Definition SIGNATURE : list byte := [x52; x52; x45; x44].   (* b'RRED' *)
Definition SIGNATURE2 : list byte := [x41; x54; x41; x20].  (* b'ATA ' *)

(** [EmeArchive.get_null_terminated_string], without the decoding. *)
Definition get_null_terminated_string (data : list byte)
    (offset max_length : Z) : list byte :=
  let end_ := find0 data offset (offset + max_length) in
  let end_ := if end_ =? -1 then offset + max_length else end_ in
  slice data offset end_.

(** The state of the parsing loop of [open]: the locals [index_data] and
    [current_offset], and [self.entries]. *)
Definition pstate : Type := (list byte * Z * list EmEntry)%type.

(** The fields of one slot, read from the decrypted [index_data]. *)
Definition read_entry (index_data : list byte) (current_offset : Z)
  : result EmEntry :=
  let name := get_null_terminated_string index_data current_offset 0x40 in
  lzss_frame_size <- unpack_from 2 index_data (current_offset + 0x40) ;;
  lzss_init_pos <- unpack_from 2 index_data (current_offset + 0x42) ;;
  let lzss_init_pos :=
    if negb (lzss_frame_size =? 0)
    then (lzss_frame_size - lzss_init_pos) mod lzss_frame_size
    else lzss_init_pos in
  sub_type <- unpack_from 4 index_data (current_offset + 0x48) ;;
  size <- unpack_from 4 index_data (current_offset + 0x4C) ;;
  unpacked_size <- unpack_from 4 index_data (current_offset + 0x50) ;;
  offset <- unpack_from 4 index_data (current_offset + 0x54) ;;
  Ok {| name := name;
        offset := offset;
        size := size;
        unpacked_size := unpacked_size;
        lzss_frame_size := lzss_frame_size;
        lzss_init_pos := lzss_init_pos;
        sub_type := sub_type;
        is_packed := negb (unpacked_size =? size) |}.

(** The body of [for _ in range(entry_count)]. *)
Definition parse_slot (routine : list byte) (st : pstate) : flow pstate :=
  let '(index_data, current_offset, entries) := st in
  lift (decrypt index_data current_offset 0x60 routine) st
    (fun index_data =>
       lift (read_entry index_data current_offset)
         (index_data, current_offset, entries)
         (fun entry =>
            Next (index_data, current_offset + 0x60, entries ++ [entry]))).

Definition with_key (self : EmeArchive) (k : list byte) : EmeArchive :=
  {| key := Some k; entries := entries self |}.

Definition with_entries (self : EmeArchive) (es : list EmEntry)
  : EmeArchive :=
  {| key := key self; entries := es |}.

(** [EmeArchive.open].  [disk] is the content of the file at
    [self.filepath], [None] when it cannot be opened.  Every exception
    inside the [try] ends in [return False]; what was stored in [self]
    before it stays there. *)
Definition open (self : EmeArchive) (disk : option (list byte))
  : bool * EmeArchive :=
  match disk with
  | None => (false, self)
  | Some content =>
      match f_read content 0 4 with
      | Raise _ => (false, self)
      | Ok (magic, pos) =>
      if negb (bytes_eqb magic SIGNATURE) then (false, self) else
      match f_read content pos 4 with
      | Raise _ => (false, self)
      | Ok (magic, pos) =>
      if negb (bytes_eqb magic SIGNATURE2) then (false, self) else
      let file_size := len content in
      match f_seek (file_size - 4) with
      | Raise _ => (false, self)
      | Ok pos =>
      match f_read content pos 4 with
      | Raise _ => (false, self)
      | Ok (data, pos) =>
      match unpack 4 data with
      | Raise _ => (false, self)
      | Ok entry_count =>
      if entry_count >? 10000 then (false, self) else
      let index_size := entry_count * 0x60 in
      let index_offset := file_size - 4 - index_size in
      match f_seek (index_offset - 40) with
      | Raise _ => (false, self)
      | Ok pos =>
      match f_read content pos 40 with
      | Raise _ => (false, self)
      | Ok (routine, pos) =>
      let self := with_key self routine in
      match f_seek index_offset with
      | Raise _ => (false, self)
      | Ok pos =>
      match f_read content pos index_size with
      | Raise _ => (false, self)
      | Ok (index_data, pos) =>
      match each (range entry_count) (fun _ => parse_slot routine)
              (index_data, 0, entries self) with
      | Next (_, _, es) => (true, with_entries self es)
      | Return (_, _, es) => (false, with_entries self es)
      | Throw _ (_, _, es) => (false, with_entries self es)
      end end end end end end end end end end
  end.

(** *** What [extract] asks of the operating system

    Whether a directory can be made, a file opened for writing, written
    and closed, or a line printed, is decided outside the program: by the
    file system as it is, by what the program has done to it before, by
    the encoding of the terminal.  An entry name stands for the path
    [output_dir / entry.name]; no meaning is given to the characters of a
    path. *)
Inductive osop : Type :=
| MakeOutputDir (output_dir : string)
    (* output_dir.mkdir(parents=True, exist_ok=True) *)
| MakeParent (output_dir : string) (name : list byte)
    (* output_path.parent.mkdir(parents=True, exist_ok=True) *)
| PrintExtracting (name : list byte)
    (* print(f"Extracting: {entry.name}") *)
| OpenOutput (output_dir : string) (name : list byte)
    (* open(output_path, 'wb') *)
| WriteOutput (output_dir : string) (name : list byte) (data : list byte)
    (* out.write(data) *)
| CloseOutput (output_dir : string) (name : list byte).
    (* the end of the [with] block *)

(** The operations attempted so far, oldest first. *)
Definition oslog : Type := list osop.

(** An operating system: given the operations attempted so far, whether
    the next one succeeds ([None]) or which exception it raises. *)
Definition opsys : Type := oslog -> osop -> option exn.

Definition attempt (os : opsys) (op : osop) (log : oslog) : flow oslog :=
  match os log op with
  | None => Next (log ++ [op])
  | Some e => Throw e (log ++ [op])
  end.

(** [with open(output_path, 'wb') as out: body]: the file is closed
    when the block is left, also by an exception; an exception of the
    closing is the one that is seen. *)
Definition with_output (os : opsys) (output_dir : string)
    (name : list byte) (body : oslog -> flow oslog) (log : oslog)
  : flow oslog :=
  match attempt os (OpenOutput output_dir name) log with
  | Next log =>
      match body log with
      | Next log => attempt os (CloseOutput output_dir name) log
      | Return log => Return log
      | Throw e log =>
          match attempt os (CloseOutput output_dir name) log with
          | Throw e' log => Throw e' log
          | Next log | Return log => Throw e log
          end
      end
  | stop => stop
  end.

Section Records.

(** [decompress] is imported from [lzss], which does not define it;
    the extraction code is read with an arbitrary function in its
    place, returning a pair whose second part is discarded. *)
Context {Aux : Type}.
Variable decompress : list byte -> result (list byte * Aux).

(** [EmeArchive._extract_script]: the bytes handed to the file at
    [output_path], all writes together, when the method ends without an
    exception; its exception otherwise.  The operations on the output
    file are in [_extract_script_to] below. *)
Definition _extract_script (routine : list byte) (content : list byte)
    (entry : EmEntry) : result (list byte) :=
  pos <- f_seek (offset entry) ;;
  '(header, pos) <- f_read content pos 12 ;;
  header <- decrypt header 0 12 routine ;;
  if lzss_frame_size entry =? 0 then
    pos <- f_seek (offset entry + 12) ;;
    '(rest, pos) <- f_read content pos (size entry) ;;
    Ok (header ++ rest)
  else
    unpacked_size' <- unpack_from 4 header 4 ;;
    if negb (unpacked_size' =? 0) && (unpacked_size' <? unpacked_size entry)
    then
      packed_size <- unpack_from 4 header 0 ;;
      let part1_size := unpacked_size entry - unpacked_size' in
      pos <- f_seek (offset entry + 12 + packed_size) ;;
      '(compressed_part1, pos) <-
        f_read content pos (size entry - packed_size) ;;
      '(decompressed_part1, _) <- decompress compressed_part1 ;;
      pos <- f_seek (offset entry + 12) ;;
      '(compressed_part2, pos) <- f_read content pos packed_size ;;
      '(decompressed_part2, _) <- decompress compressed_part2 ;;
      Ok (slice decompressed_part1 0 part1_size ++ decompressed_part2)
    else
      pos <- f_seek (offset entry + 12) ;;
      '(compressed_data, pos) <- f_read content pos (size entry) ;;
      '(decompressed_data, _) <- decompress compressed_data ;;
      Ok decompressed_data.

(** [EmeArchive._extract_regular]: the bytes handed to the file at
    [output_path]; the operations on that file are in
    [_extract_regular_to] below. *)
Definition _extract_regular (content : list byte) (entry : EmEntry)
  : result (list byte) :=
  pos <- f_seek (offset entry) ;;
  '(data, pos) <- f_read content pos (size entry) ;;
  if is_packed entry then
    '(decompressed_data, _) <- decompress data ;;
    Ok decompressed_data
  else Ok data.

(** The operating system under which the output is written. *)
Variable os : opsys.

(** [EmeArchive._extract_script] with its output: the statements in the
    order of the source.  Without a window the output file is opened
    before the stored bytes are read, and the header is written before
    them. *)
Definition _extract_script_to (routine : list byte) (content : list byte)
    (entry : EmEntry) (output_dir : string) (log : oslog) : flow oslog :=
  lift (pos <- f_seek (offset entry) ;;
        '(header, pos) <- f_read content pos 12 ;;
        decrypt header 0 12 routine) log
    (fun header =>
       if lzss_frame_size entry =? 0 then
         with_output os output_dir (name entry)
           (fun log =>
              match attempt os
                      (WriteOutput output_dir (name entry) header) log with
              | Next log =>
                  lift (pos <- f_seek (offset entry + 12) ;;
                        '(rest, pos) <- f_read content pos (size entry) ;;
                        Ok rest) log
                    (fun rest =>
                       attempt os
                         (WriteOutput output_dir (name entry) rest) log)
              | stop => stop
              end) log
       else
         lift (unpack_from 4 header 4) log
           (fun unpacked_size' =>
              if negb (unpacked_size' =? 0)
                 && (unpacked_size' <? unpacked_size entry)
              then
                lift (packed_size <- unpack_from 4 header 0 ;;
                      let part1_size :=
                        unpacked_size entry - unpacked_size' in
                      pos <- f_seek (offset entry + 12 + packed_size) ;;
                      '(compressed_part1, pos) <-
                        f_read content pos (size entry - packed_size) ;;
                      '(decompressed_part1, _) <-
                        decompress compressed_part1 ;;
                      pos <- f_seek (offset entry + 12) ;;
                      '(compressed_part2, pos) <-
                        f_read content pos packed_size ;;
                      '(decompressed_part2, _) <-
                        decompress compressed_part2 ;;
                      Ok (slice decompressed_part1 0 part1_size,
                          decompressed_part2)) log
                  (fun parts =>
                     with_output os output_dir (name entry)
                       (fun log =>
                          match attempt os
                                  (WriteOutput output_dir (name entry)
                                     (fst parts)) log with
                          | Next log =>
                              attempt os
                                (WriteOutput output_dir (name entry)
                                   (snd parts)) log
                          | stop => stop
                          end) log)
              else
                lift (pos <- f_seek (offset entry + 12) ;;
                      '(compressed_data, pos) <-
                        f_read content pos (size entry) ;;
                      '(decompressed_data, _) <-
                        decompress compressed_data ;;
                      Ok decompressed_data) log
                  (fun decompressed_data =>
                     with_output os output_dir (name entry)
                       (attempt os
                          (WriteOutput output_dir (name entry)
                             decompressed_data)) log))).

(** [EmeArchive._extract_regular] with its output: everything is read,
    and decompressed, before the output file is opened. *)
Definition _extract_regular_to (content : list byte) (entry : EmEntry)
    (output_dir : string) (log : oslog) : flow oslog :=
  lift (_extract_regular content entry) log
    (fun data =>
       with_output os output_dir (name entry)
         (attempt os (WriteOutput output_dir (name entry) data)) log).

(** The body of the loop of [extract], with its [try] and [except]: an
    exception ends the work on this entry and nothing else.  (The
    message that the handler prints to [sys.stderr] is left out.) *)
Definition extract_entry (self : EmeArchive) (content : list byte)
    (output_dir : string) (entry : EmEntry) (log : oslog) : oslog :=
  final
    match attempt os (MakeParent output_dir (name entry)) log with
    | Next log =>
        match attempt os (PrintExtracting (name entry)) log with
        | Next log =>
            if sub_type entry =? 3
            then match key self with
                 | Some routine =>
                     _extract_script_to routine content entry
                       output_dir log
                 | None => Throw TypeError log
                 end
            else _extract_regular_to content entry output_dir log
        | stop => stop
        end
    | stop => stop
    end.

(** [EmeArchive.extract]: the operations attempted, after those of
    [log].  [content] is what the file at [self.filepath] holds while
    [extract] reads it; that file is taken to be readable and not to be
    changed by the writes.  An exception of [output_dir.mkdir] is not
    caught. *)
Definition extract (self : EmeArchive) (content : list byte)
    (output_dir : string) (log : oslog) : flow oslog :=
  match attempt os (MakeOutputDir output_dir) log with
  | Next log =>
      Next (fold_left
              (fun log entry =>
                 extract_entry self content output_dir entry log)
              (entries self) log)
  | stop => stop
  end.

End Records.

End Archive.

Import Archive.

(* ================================================================== *)
(** ** The program: module-level imports and [main] *)
(* ================================================================== *)

Module Program.

(** What a module-level name can be bound to, as far as the extractor
    distinguishes: something it can call on a byte string, or anything
    else. *)
Inductive pyobj : Type :=
| Function (f : list byte -> result (list byte * unit))
| Class
| Module_.

Definition namespace : Type := list (string * pyobj).

(** The names bound at the top level of [lzss.py] once it has run: its
    three imports and its five classes, in order. *)
Definition lzss : namespace :=
  [("io", Module_); ("Enum", Class); ("List", Class); ("Generator", Class);
   ("LzssMode", Class); ("LzssSettings", Class); ("LzssCoroutine", Class);
   ("LzssStream", Class); ("LzssReader", Class)]%string.

Fixpoint lookup (m : namespace) (n : string) : option pyobj :=
  match m with
  | [] => None
  | (n', o) :: m' => if String.eqb n n' then Some o else lookup m' n
  end.

(** [from m import n1, n2, ...]: the first name that [m] does not bind
    raises [ImportError]. *)
Fixpoint import_from (m : namespace) (names : list string)
  : result (list pyobj) :=
  match names with
  | [] => Ok []
  | n :: names' =>
      match lookup m n with
      | None => Raise (ImportError n)
      | Some o => os <- import_from m names' ;; Ok (o :: os)
      end
  end.

Definition call (o : pyobj) (arg : list byte)
  : result (list byte * unit) :=
  match o with
  | Function f => f arg
  | _ => Raise TypeError
  end.

(** How a run of the script ends: with [sys.exit(code)]; with an
    exception that nothing catches; or at the end of [main].  The last
    two come with the operations attempted on the way.  (The messages
    that [main] prints are left out.) *)
Inductive outcome : Type :=
| Exit (code : Z)
| Uncaught (e : exn) (log : oslog)
| Complete (log : oslog).

(** [main]; [fs] gives the content of the file at a path, if there is
    one that can be read, and [os] is the operating system under which
    the output is written. *)
Definition main (os : opsys)
    (decompress : list byte -> result (list byte * unit))
    (argv : list string) (fs : string -> option (list byte)) : outcome :=
  match argv with
  | [_; archive_path; output_dir] =>
      match fs archive_path with
      | None => Exit 1
      | Some content =>
          let '(ok, archive) := open new_archive (Some content) in
          if negb ok then Exit 1
          else
            match extract decompress os archive content output_dir [] with
            | Next log | Return log => Complete log
            | Throw e log => Uncaught e log
            end
      end
  | _ => Exit 1
  end.

(** Running [EXEME.py] as a script: line 8 first, then the rest of the
    module and the call of [main], whose outcome depends on the
    operating system. *)
Definition run (lzss_module : namespace) (argv : list string)
    (fs : string -> option (list byte)) : result (opsys -> outcome) :=
  objs <- import_from lzss_module ["decompress"; "LZSSError"]%string ;;
  match objs with
  | decompress :: _ => Ok (fun os => main os (call decompress) argv fs)
  | [] => Raise TypeError
  end.

End Program.

Import Program.

(* ================================================================== *)
(** ** Reference descriptions, in the words of the specification *)
(* ================================================================== *)

(** The definitions of this module are not taken from the code.  They say
    what the specification says (words of a region, rounds of the cipher,
    destinations of bits and bytes, the container layout), name the states
    and invariants the proofs speak about, and fix the example inputs. *)

Module Spec.

(** A region seen as its sequence of 32-bit little-endian words. *)
Fixpoint words (bs : list byte) : list Z :=
  match bs with
  | b0 :: b1 :: b2 :: b3 :: rest => le_decode [b0; b1; b2; b3] :: words rest
  | _ => []
  end.

(** Every whole word replaced by its image under [f]. *)
Fixpoint map_words (f : Z -> Z) (bs : list byte) : list byte :=
  match bs with
  | b0 :: b1 :: b2 :: b3 :: rest =>
      le_encode 4 (f (le_decode [b0; b1; b2; b3])) ++ map_words f rest
  | _ => bs
  end.

(** Every whole word XORed with the running key, which is then replaced
    by the word that was read. *)
Fixpoint chain_words (key : Z) (bs : list byte) : list byte :=
  match bs with
  | b0 :: b1 :: b2 :: b3 :: rest =>
      let v := le_decode [b0; b1; b2; b3] in
      le_encode 4 (Z.lxor v key) ++ chain_words v rest
  | _ => bs
  end.

(** The stage cipher as the specification lays it out: round [i] takes
    its opcode from [key[i]] and its key dword from
    [key[8 + 4*i .. 8 + 4*i + 4)]; the rounds run from 7 down to 0, each
    on the region the round before it left. *)
Definition stage_opcode (routine : list byte) (i : Z) : Z :=
  ord (nth (Z.to_nat i) routine x00).

Definition stage_key (routine : list byte) (i : Z) : Z :=
  le_decode (slice routine (8 + 4 * i) (8 + 4 * i + 4)).

Definition round (routine : list byte) (i : Z) (data : list byte)
  : result (list byte) :=
  stage (stage_opcode routine i) data (stage_key routine i).

Definition apply_stages (routine data : list byte) : result (list byte) :=
  for_ [7; 6; 5; 4; 3; 2; 1; 0] (round routine) data.

(** Key material used in the examples: opcodes 1, 2, 4, 8 for rounds 0
    to 3, opcode 0 for rounds 4 to 7, and the keys 3, 5, 7, 0x01010101
    for rounds 0 to 3. *)
Definition example_routine : list byte :=
  [x01; x02; x04; x08; x00; x00; x00; x00]
  ++ [x03; x00; x00; x00;  x05; x00; x00; x00;
      x07; x00; x00; x00;  x01; x01; x01; x01]
  ++ repeat x00 16.

Definition example_region : list byte :=
  [x01; x02; x03; x04; x05; x06; x07; x08].

(** Where the opcode-4 stage puts source bit [b], and where the
    opcode-8 stage puts source byte [i] of a region of [L] bytes. *)
Definition bit_dest (key b : Z) : Z := ((b + 1) * key) mod 32.

Definition byte_dest (key L i : Z) : Z := ((i + 1) * key) mod L.

(** The last of the source indices [0 .. n-1] that is written to
    destination [d], if there is one. *)
Fixpoint last_source (key L d : Z) (n : nat) : option nat :=
  match n with
  | O => None
  | S n' =>
      if byte_dest key L (Z.of_nat n') =? d then Some n'
      else last_source key L d n'
  end.

(** The list [l] with the element at index [i] replaced by [a]. *)
Definition replace_at {A} (l : list A) (i : nat) (a : A) : list A :=
  firstn i l ++ a :: skipn (S i) l.

(** *** The sliding window *)

(** The window slot a cursor or a history position falls on. *)
Definition window_index (pos : Z) : nat := Z.to_nat (pos mod 4096).

(** A match of [n] bytes, copied one byte at a time: each byte is read
    from the window at [offset], written to the window at [cursor] and
    appended to the output; later bytes of the same match see the
    earlier writes.  The result is the bytes produced and the window
    afterwards. *)
Fixpoint window_copy (n : nat) (frame : list byte) (cursor offset : Z)
  : list byte * list byte :=
  match n with
  | O => ([], frame)
  | S n' =>
      let v := nth (window_index offset) frame x00 in
      let '(out, frame') :=
        window_copy n' (replace_at frame (window_index cursor) v)
          (cursor + 1) (offset + 1) in
      (v :: out, frame')
  end.

(** The history position and the length a match token [lo, hi] encodes. *)
Definition match_offset (lo hi : byte) : Z :=
  Z.lor (Z.shiftl (Z.land (ord hi) 0xF0) 4) (ord lo).

Definition match_length (hi : byte) : nat :=
  Z.to_nat (3 + Z.land (ord hi) 0x0F).

(** [l1] is an initial part of [l2]. *)
Definition prefix {A} (l1 l2 : list A) : Prop := exists t, l2 = l1 ++ t.

(** *** States of the coroutine decoder *)

(** The state after one byte [v] has been produced. *)
Definition co_emit (v : byte) (s : costate) : costate :=
  {| co_input := co_input s;
     co_buffer := co_buffer s ++ [v];
     co_pos := co_pos s + 1;
     co_length := co_length s - 1;
     co_frame := replace_at (co_frame s) (window_index (co_frame_pos s)) v;
     co_frame_pos := co_frame_pos s + 1;
     co_yields := if co_length s - 1 =? 0 then co_yields s ++ [co_pos s + 1]
                  else co_yields s |}.

Fixpoint co_emits (n : nat) (offset : Z) (s : costate) : costate :=
  match n with
  | O => s
  | S n' =>
      co_emits n' (offset + 1)
        (co_emit (nth (window_index offset) (co_frame s) x00) s)
  end.

(** The state with its unread input replaced. *)
Definition co_set_input (s : costate) (input : list byte) : costate :=
  {| co_input := input;
     co_buffer := co_buffer s;
     co_pos := co_pos s;
     co_length := co_length s;
     co_frame := co_frame s;
     co_frame_pos := co_frame_pos s;
     co_yields := co_yields s |}.

(** The window keeps its 4096 slots. *)
Definition co_ok (s : costate) : Prop := length (co_frame s) = 4096%nat.

(** What one step, or a run of steps, may do to a state whose window is
    well formed: go on or return with the output extended, never raise. *)
Definition co_good (s : costate) (f : flow costate) : Prop :=
  match f with
  | Next s' =>
      co_ok s' /\ prefix (co_buffer s) (co_buffer s') /\
      (length (co_input s') <= length (co_input s))%nat
  | Return s' => co_input s' = [] /\ prefix (co_buffer s) (co_buffer s')
  | Throw _ _ => False
  end.

(** *** States of the length-bounded decoder *)

(** The state after one byte [v] has been produced. *)
Definition r_emit (v : byte) (s : rstate) : rstate :=
  {| r_input := r_input s;
     r_output := replace_at (r_output s) (Z.to_nat (r_dst s)) v;
     r_dst := r_dst s + 1;
     r_frame := replace_at (r_frame s) (Z.to_nat (r_frame_pos s)) v;
     r_frame_pos := (r_frame_pos s + 1) mod 4096;
     r_remaining := r_remaining s |}.

(** The window has its 4096 slots, the cursor is inside it and the
    write position is inside the output buffer or just past its end. *)
Definition r_ok (s : rstate) : Prop :=
  length (r_frame s) = 4096%nat /\
  0 <= r_frame_pos s < 4096 /\
  0 <= r_dst s <= len (r_output s).

(** From [s] to [s']: the output buffer keeps its size, the write
    position does not go back, the bytes already produced and the bytes
    from the new write position on are as before, and no input has been
    given back. *)
Definition r_ext (s s' : rstate) : Prop :=
  length (r_output s') = length (r_output s) /\
  r_dst s <= r_dst s' /\
  firstn (Z.to_nat (r_dst s)) (r_output s')
  = firstn (Z.to_nat (r_dst s)) (r_output s) /\
  skipn (Z.to_nat (r_dst s')) (r_output s')
  = skipn (Z.to_nat (r_dst s')) (r_output s) /\
  r_remaining s' <= r_remaining s.

(** An exception raised by a store to or a load from a [bytearray]: the
    output buffer or the window. *)
Definition bytearray_error {S} (f : flow S) : Prop :=
  match f with
  | Throw (IndexError Bytearray) _ => True
  | _ => False
  end.

Definition r_good (s : rstate) (f : flow rstate) : Prop :=
  r_ok (final f) /\ r_ext s (final f) /\ ~ bytearray_error f.

(** The state after [k] bytes have been read and counted. *)
Definition r_advance (k : nat) (s : rstate) : rstate :=
  r_consume (Z.of_nat k) (snd (r_take k s)).

Fixpoint r_emits (n : nat) (offset : Z) (s : rstate) : rstate :=
  match n with
  | O => s
  | S n' =>
      r_emits n' ((offset + 1) mod 4096)
        (r_emit (nth (Z.to_nat offset) (r_frame s) x00) s)
  end.

(** *** The container layout *)

(** The entry count in the last four bytes, the index table before it,
    the key material in the 40 bytes before the table, and slot [i] of
    the table as it is stored. *)
Definition entry_count_of (content : list byte) : Z :=
  le_decode (slice content (len content - 4) (len content)).

Definition index_offset_of (content : list byte) : Z :=
  len content - 4 - entry_count_of content * 0x60.

Definition key_material (content : list byte) : list byte :=
  slice content (index_offset_of content - 40) (index_offset_of content).

Definition index_table (content : list byte) : list byte :=
  slice content (index_offset_of content) (len content - 4).

Definition raw_slot (table : list byte) (i : nat) : list byte :=
  slice table (0x60 * Z.of_nat i) (0x60 * Z.of_nat i + 0x60).

(** The little-endian unsigned integer of [size] bytes at offset [o] of a
    decrypted slot. *)
Definition slot_field (slot : list byte) (o size : Z) : Z :=
  le_decode (slice slot o (o + size)).

(** An entry descriptor carries the fields of a decrypted slot, with the
    two derived fields computed from them. *)
Definition entry_of_slot (e : EmEntry) (slot : list byte) : Prop :=
  lzss_frame_size e = slot_field slot 0x40 2 /\
  lzss_init_pos e
  = (if lzss_frame_size e =? 0 then slot_field slot 0x42 2
     else (lzss_frame_size e - slot_field slot 0x42 2)
            mod lzss_frame_size e) /\
  sub_type e = slot_field slot 0x48 4 /\
  size e = slot_field slot 0x4C 4 /\
  unpacked_size e = slot_field slot 0x50 4 /\
  offset e = slot_field slot 0x54 4 /\
  is_packed e = negb (unpacked_size e =? size e).

(** *** Example files *)

(** A container that [open] rejects: the two magics, then an entry count
    of 10001. *)
Definition oversized_container : list byte :=
  SIGNATURE ++ SIGNATURE2 ++ [x11; x27; x00; x00].

(** A container with one record.  The key material is 40 zero bytes, so
    every round of the stage cipher is a no-op; the slot names the
    record [a.bin], with window size 0x1000, raw window position 0x12,
    subtype 0, stored size 3, raw size 5 and data offset 8. *)
Definition example_slot : list byte :=
  [x61; x2e; x62; x69; x6e] ++ repeat x00 59
  ++ [x00; x10;  x12; x00;  x00; x00; x00; x00]
  ++ [x00; x00; x00; x00;  x03; x00; x00; x00;
      x05; x00; x00; x00;  x08; x00; x00; x00]
  ++ repeat x00 8.

Definition example_container : list byte :=
  SIGNATURE ++ SIGNATURE2 ++ [x41; x42; x43]
  ++ repeat x00 40 ++ example_slot ++ [x01; x00; x00; x00].

Definition example_entry : EmEntry :=
  {| name := [x61; x2e; x62; x69; x6e];
     offset := 8;
     size := 3;
     unpacked_size := 5;
     lzss_frame_size := 0x1000;
     lzss_init_pos := 0xFEE;
     sub_type := 0;
     is_packed := true |}.

(** *** Script records *)

(** Two stand-ins for the missing [decompress]: one that returns its
    input (stored data), and one that runs the input-exhaustion decoder
    of [lzss.py]. *)
Definition stored_decompress (data : list byte)
  : result (list byte * unit) :=
  Ok (data, tt).

Definition coroutine_decompress (data : list byte)
  : result (list byte * unit) :=
  match co_unpack default_settings data 0 with
  | Some f => Ok (co_buffer (final f), tt)
  | None => Raise ValueError
  end.

(** The stored bytes of the two segments of a split script record whose
    first segment takes [packed] stored bytes: the head follows the
    12-byte header, the tail follows the head. *)
Definition script_head (content : list byte) (entry : EmEntry)
    (packed : Z) : list byte :=
  fst (read_at content (offset entry + 12) packed).

Definition script_tail (content : list byte) (entry : EmEntry)
    (packed : Z) : list byte :=
  fst (read_at content (offset entry + 12 + packed) (size entry - packed)).

(** The output of a split script record when the first four bytes of the
    decrypted header are read both as the raw size of the head and as
    its stored size. *)
Definition split_output_first_dword {Aux}
    (decompress : list byte -> result (list byte * Aux))
    (routine content : list byte) (entry : EmEntry)
  : result (list byte) :=
  header <- decrypt (fst (read_at content (offset entry) 12)) 0 12 routine ;;
  let h := slot_field header 0 4 in
  '(segment2, _) <- decompress (script_tail content entry h) ;;
  '(segment1, _) <- decompress (script_head content entry h) ;;
  Ok (firstn (Z.to_nat (unpacked_size entry - h)) segment2 ++ segment1).

Definition zero_key : list byte := repeat x00 40.

(** A script record of 34 stored bytes after a header that gives 4 as
    the stored size of the head and 10 as its raw size. *)
Definition script_a : list byte :=
  [x04; x00; x00; x00;  x0a; x00; x00; x00;  x00; x00; x00; x00]
  ++ [x01; x02; x03; x04; x05; x06; x07; x08; x09; x0a;
      x0b; x0c; x0d; x0e; x0f; x10; x11; x12; x13; x14;
      x15; x16; x17; x18; x19; x1a; x1b; x1c; x1d; x1e;
      x1f; x20; x21; x22].

Definition entry_a : EmEntry :=
  {| name := [x61]; offset := 0; size := 34; unpacked_size := 30;
     lzss_frame_size := 0x1000; lzss_init_pos := 0xFEE;
     sub_type := 3; is_packed := true |}.

(** A script record whose header gives 10 both as the stored and as the
    raw size of the head.  The head is a control byte 0 with four
    matches of length 3 and one byte more; the tail is a control byte 0
    with seven matches of length 3. *)
Definition script_b : list byte :=
  [x0a; x00; x00; x00;  x0a; x00; x00; x00;  x00; x00; x00; x00]
  ++ [x00; x00; x00; x00; x00; x00; x00; x00; x00; x00]
  ++ [x00; x00; x00; x00; x00; x00; x00; x00; x00; x00;
      x00; x00; x00; x00; x00].

Definition entry_b : EmEntry :=
  {| name := [x62]; offset := 0; size := 25; unpacked_size := 30;
     lzss_frame_size := 0x1000; lzss_init_pos := 0xFEE;
     sub_type := 3; is_packed := true |}.

(** The loop bodies of [shift_value] and [init_table], named. *)
Definition shift_step (val key : Z) (st : Z * Z) (i : Z) : Z * Z :=
  let '(shift, result) := st in
  let shift := shift + key in
  (shift,
   Z.lor result (Z.shiftl (Z.land (Z.shiftr val i) 1) (shift mod 32))).

Definition init_table_body (buffer : list byte) (key : Z) (i : Z)
    (st : Z * list byte) : result (Z * list byte) :=
  let '(x, table) := st in
  let x := (x + key) mod len buffer in
  b <- getitem Memoryview buffer i ;;
  table <- setitem Bytearray table x b ;;
  Ok (x, table).

(** What the table holds once the sources [0 .. n-1] have been written. *)
Definition table_filled (buffer : list byte) (key : Z) (n : nat)
    (table : list byte) : Prop :=
  length table = length buffer /\
  forall d, (d < length buffer)%nat ->
    nth d table x00
    = match last_source key (len buffer) (Z.of_nat d) n with
      | Some i => nth i buffer x00
      | None => x00
      end.

(** *** Which files [open] accepts *)

(** The two magics at the start, an entry count of at most 10000 in the
    last four bytes, and room for the key material, the index table and
    the count. *)
Definition container_ok (content : list byte) : bool :=
  bytes_eqb (slice content 0 4) SIGNATURE
  && bytes_eqb (slice content 4 8) SIGNATURE2
  && (entry_count_of content <=? 10000)
  && (40 + 0x60 * entry_count_of content + 4 <=? len content).

(** *** Entries that the extraction code can rely on *)

(** A name without a zero byte and of at most 64 bytes; the numeric fields
    in the range of the 16-bit and 32-bit integers they are read from; a
    window position inside the window whenever there is a window. *)
Definition well_formed (e : EmEntry) : Prop :=
  Forall (fun b => b <> x00) (name e)
  /\ len (name e) <= 0x40
  /\ 0 <= offset e < 2 ^ 32
  /\ 0 <= size e < 2 ^ 32
  /\ 0 <= unpacked_size e < 2 ^ 32
  /\ 0 <= sub_type e < 2 ^ 32
  /\ 0 <= lzss_frame_size e < 2 ^ 16
  /\ 0 <= lzss_init_pos e < 2 ^ 16
  /\ (lzss_frame_size e <> 0 -> lzss_init_pos e < lzss_frame_size e)
  /\ is_packed e = negb (unpacked_size e =? size e).

(** *** Example records *)

(** A stored record whose size reaches beyond the end of
    [example_container]; a script record without a window; and a script
    record with a window whose header starts 4 bytes before the end of
    that file. *)
Definition overlong_entry : EmEntry :=
  {| name := [x61]; offset := 8; size := 1000; unpacked_size := 1000;
     lzss_frame_size := 0; lzss_init_pos := 0; sub_type := 0;
     is_packed := false |}.

Definition plain_script_entry : EmEntry :=
  {| name := [x61]; offset := 8; size := 3; unpacked_size := 3;
     lzss_frame_size := 0; lzss_init_pos := 0; sub_type := 3;
     is_packed := false |}.

Definition cut_script_entry : EmEntry :=
  {| name := [x61]; offset := 147; size := 3; unpacked_size := 3;
     lzss_frame_size := 0x1000; lzss_init_pos := 0; sub_type := 3;
     is_packed := false |}.

(** A decompressor that always raises, and one that returns its input. *)
Definition failing_decompress (_ : list byte) : result (list byte * unit) :=
  Raise ValueError.

Definition identity_decompress (b : list byte) : result (list byte * unit) :=
  Ok (b, tt).

(** *** The counters of the coroutine decoder *)

(** With [n] the value of [self.length] before the first step: [pos]
    counts the bytes produced, [length] counts down from [n], and the one
    value ever yielded is [n], once [n] bytes are there. *)
Definition co_counted (n : Z) (s : costate) : Prop :=
  co_pos s = len (co_buffer s)
  /\ co_length s = n - len (co_buffer s)
  /\ co_yields s
     = if (0 <? n) && (n <=? len (co_buffer s)) then [n] else [].

(** *** The two decoders side by side *)

(** The first [ol] bytes of [buf], filled up with zero bytes to [ol]. *)
Definition truncated (ol : Z) (buf : list byte) : list byte :=
  firstn (Z.to_nat ol) buf ++ repeat x00 (Z.to_nat (ol - len buf)).

(** The length-bounded decoder with an output buffer of [ol] bytes is at
    the same point of the same input as the coroutine decoder: same
    window, same cursor up to the wrap-around, and the bytes produced so
    far are equal. *)
Definition agree (ol : Z) (rs : rstate) (cs : costate) : Prop :=
  r_frame rs = co_frame cs /\
  length (co_frame cs) = 4096%nat /\
  r_frame_pos rs = co_frame_pos cs mod 4096 /\
  r_input rs = co_input cs /\
  r_remaining rs = len (r_input rs) /\
  r_dst rs = len (co_buffer cs) /\
  len (co_buffer cs) <= ol /\
  r_output rs
  = co_buffer cs ++ repeat x00 (Z.to_nat (ol - len (co_buffer cs))).

(** The output buffer is full, and what it holds is an initial part of
    [buf]. *)
Definition filled (ol : Z) (rs : rstate) (buf : list byte) : Prop :=
  r_remaining rs = len (r_input rs) /\
  len (r_output rs) = ol /\
  r_dst rs = ol /\
  prefix (r_output rs) buf.

(** The length-bounded decoder has stopped with the output that belongs
    to [buf]. *)
Definition stopped (ol : Z) (rs : rstate) (buf : list byte) : Prop :=
  r_output rs = truncated ol buf /\ r_dst rs = Z.min ol (len buf).

(** How a run of steps of the one decoder compares with the same steps
    of the other. *)
Definition sim_out (ol : Z) (rf : flow rstate) (cf : flow costate)
  : Prop :=
  match rf, cf with
  | Next rs', Next cs' =>
      agree ol rs' cs' \/ (co_ok cs' /\ filled ol rs' (co_buffer cs'))
  | Return rs', Next cs' => co_ok cs' /\ filled ol rs' (co_buffer cs')
  | Return rs', Return cs' => stopped ol rs' (co_buffer cs')
  | _, _ => False
  end.

Definition raised {S} (f : flow S) : Prop :=
  match f with
  | Throw _ _ => True
  | _ => False
  end.

(** *** A declared input length beyond the end of the stream *)

(** [self.size] counts [d] bytes more than [self.input] holds. *)
Definition overdeclared (d : Z) (s : rstate) : Prop :=
  r_ok s /\ r_remaining s = len (r_input s) + d.

(** How the length-bounded decoder can end then: with the output buffer
    full, or by raising [IndexError] or [ValueError] at a read from the
    exhausted input, or, when one byte is missing, at a match token with
    no input left; never by leaving the [while] loop. *)
Definition overrun (d : Z) (f : flow rstate) : Prop :=
  match f with
  | Next _ => False
  | Return s =>
      r_dst s = len (r_output s) \/ (d = 1 /\ r_input s = [])
  | Throw e s =>
      (e = IndexError Bytes /\ r_input s = [])
      \/ (e = ValueError /\ (length (r_input s) <= 1)%nat)
  end.

(** A container like [example_container] whose one record is stored as
    it is: stored size and raw size are both 3. *)
Definition stored_slot : list byte :=
  [x61; x2e; x62; x69; x6e] ++ repeat x00 59
  ++ [x00; x00;  x00; x00;  x00; x00; x00; x00]
  ++ [x00; x00; x00; x00;  x03; x00; x00; x00;
      x03; x00; x00; x00;  x08; x00; x00; x00]
  ++ repeat x00 8.

Definition stored_container : list byte :=
  SIGNATURE ++ SIGNATURE2 ++ [x41; x42; x43]
  ++ repeat x00 40 ++ stored_slot ++ [x01; x00; x00; x00].

(** *** Extraction under an operating system *)

(** An operating system that refuses nothing, and one that refuses to
    make the output directory, as when a file of that name exists. *)
Definition willing : opsys := fun _ _ => None.


(** The operations for a record that is neither a script nor packed,
    when none of them is refused: the parent directory, the message, the
    output file opened, written with the [size] bytes at [offset] of the
    archive, and closed. *)
Definition stored_ops (content : list byte) (output_dir : string)
    (e : EmEntry) : list osop :=
  [MakeParent output_dir (name e);
   PrintExtracting (name e);
   OpenOutput output_dir (name e);
   WriteOutput output_dir (name e)
     (slice content (offset e) (offset e + size e));
   CloseOutput output_dir (name e)].

(** The same under any operating system: the first three in turn, up to
    the first that is refused; after them the write and, whether the
    write is refused or not, the closing. *)
Definition stored_steps (os : opsys) (content : list byte)
    (output_dir : string) (e : EmEntry) (log : oslog) : oslog :=
  match each [MakeParent output_dir (name e);
              PrintExtracting (name e);
              OpenOutput output_dir (name e)] (attempt os) log with
  | Next log =>
      final (attempt os (CloseOutput output_dir (name e))
               (final (attempt os
                         (WriteOutput output_dir (name e)
                            (slice content (offset e) (offset e + size e)))
                         log)))
  | stop => final stop
  end.


(** *** A stream of literals *)

(** [data] written as literals only: every group of up to eight bytes
    behind a control byte with all eight bits set.  [n] bounds the number
    of groups. *)
Fixpoint literal_groups (n : nat) (data : list byte) : list byte :=
  match n with
  | O => []
  | S n' =>
      match data with
      | [] => []
      | _ :: _ => xff :: firstn 8 data ++ literal_groups n' (skipn 8 data)
      end
  end.

Definition stored (data : list byte) : list byte :=
  literal_groups (length data) data.

End Spec.

Import Spec.

(* ================================================================== *)
(** ** Bytes and little-endian words *)
(* ================================================================== *)

Lemma ord_range (b : byte) : 0 <= ord b < 256.
Proof.
  unfold ord. pose proof (Byte.to_N_bounded b). lia.
Qed.

Lemma chr_ord (b : byte) : chr (ord b) = b.
Proof.
  unfold chr. rewrite Z.mod_small by apply ord_range.
  unfold ord. rewrite N2Z.id, Byte.of_to_N. reflexivity.
Qed.

Lemma ord_chr (z : Z) : ord (chr z) = z mod 256.
Proof.
  unfold chr, ord.
  pose proof (Z.mod_pos_bound z 256 ltac:(lia)) as Hm.
  destruct (Byte.of_N (Z.to_N (z mod 256))) as [b|] eqn:E.
  - apply Byte.to_of_N in E. rewrite E. lia.
  - apply Byte.of_N_None_iff in E. lia.
Qed.

Lemma le_encode_length (n : nat) (v : Z) : length (le_encode n v) = n.
Proof.
  revert v. induction n as [|n IH]; intros v; simpl; [|rewrite IH]; reflexivity.
Qed.

Lemma le_decode_range (bs : list byte) :
  0 <= le_decode bs < 256 ^ Z.of_nat (length bs).
Proof.
  induction bs as [|b bs IH].
  - simpl. lia.
  - cbn [le_decode length]. rewrite Nat2Z.inj_succ, Z.pow_succ_r by lia.
    pose proof (ord_range b). lia.
Qed.

Lemma le_encode_decode (bs : list byte) :
  le_encode (length bs) (le_decode bs) = bs.
Proof.
  induction bs as [|b bs IH]; [reflexivity|].
  cbn [le_decode length le_encode].
  pose proof (ord_range b) as Hb.
  f_equal.
  - rewrite <- (chr_ord b) at 2. unfold chr. 
    replace ((ord b + 256 * le_decode bs) mod 256) with (ord b mod 256); [reflexivity|].
    rewrite (Z.mul_comm 256), Z.mod_add by lia. reflexivity.
  - replace ((ord b + 256 * le_decode bs) / 256) with (le_decode bs); [exact IH|].
    rewrite (Z.mul_comm 256), Z.div_add by lia.
    rewrite (Z.div_small (ord b)) by lia. lia.
Qed.

Lemma le_decode_encode (n : nat) (v : Z) :
  0 <= v < 256 ^ Z.of_nat n -> le_decode (le_encode n v) = v.
Proof.
  revert v. induction n as [|n IH]; intros v Hv.
  - simpl in *. lia.
  - cbn [le_encode le_decode]. rewrite ord_chr.
    rewrite Nat2Z.inj_succ, Z.pow_succ_r in Hv by lia.
    rewrite IH.
    + pose proof (Z.div_mod v 256 ltac:(lia)). lia.
    + split.
      * apply Z.div_pos; lia.
      * apply Z.div_lt_upper_bound; lia.
Qed.

Lemma lxor_range (n a b : Z) :
  0 <= n -> 0 <= a < 2 ^ n -> 0 <= b < 2 ^ n -> 0 <= Z.lxor a b < 2 ^ n.
Proof.
  intros Hn Ha Hb.
  assert (H0 : 0 <= Z.lxor a b) by (apply Z.lxor_nonneg; lia).
  split; [exact H0|].
  destruct (Z.eq_dec (Z.lxor a b) 0) as [E|E].
  - rewrite E. apply Z.pow_pos_nonneg; lia.
  - assert (Hn' : 0 < n).
    { destruct (Z.eq_dec n 0) as [->|]; [|lia].
      simpl in Ha, Hb. replace a with 0 in E by lia.
      replace b with 0 in E by lia. simpl in E. lia. }
    apply Z.log2_lt_pow2; [lia|].
    pose proof (Z.log2_lxor a b ltac:(lia) ltac:(lia)) as Hl.
    assert (Z.log2 a < n).
    { destruct (Z.eq_dec a 0) as [->|]; [simpl|apply Z.log2_lt_pow2]; lia. }
    assert (Z.log2 b < n).
    { destruct (Z.eq_dec b 0) as [->|]; [simpl|apply Z.log2_lt_pow2]; lia. }
    lia.
Qed.

(* ================================================================== *)
(** ** [struct] at a word boundary *)
(* ================================================================== *)

Lemma struct_offset_mid (size : nat) (pre : list byte) (n : Z) :
  Z.of_nat (length pre) + Z.of_nat size <= n ->
  struct_offset size n (len pre) = Some (length pre).
Proof.
  intros H. unfold struct_offset, len.
  destruct (Z.of_nat (length pre) <? 0) eqn:E1; [lia|].
  rewrite E1. simpl.
  destruct (n - Z.of_nat (length pre) <? Z.of_nat size) eqn:E2; [lia|].
  rewrite Nat2Z.id. reflexivity.
Qed.

Lemma unpack_from_mid (pre w post : list byte) :
  unpack_from (length w) (pre ++ w ++ post) (len pre) = Ok (le_decode w).
Proof.
  unfold unpack_from.
  rewrite struct_offset_mid.
  - rewrite skipn_app, skipn_all, Nat.sub_diag. simpl.
    rewrite firstn_app, firstn_all, Nat.sub_diag. simpl.
    rewrite app_nil_r. reflexivity.
  - unfold len. rewrite !length_app. lia.
Qed.

Lemma pack_into_mid (pre w post : list byte) (v : Z) :
  0 <= v < 256 ^ Z.of_nat (length w) ->
  pack_into (length w) (pre ++ w ++ post) (len pre) v
  = Ok (pre ++ le_encode (length w) v ++ post).
Proof.
  intros Hv. unfold pack_into.
  rewrite struct_offset_mid by (unfold len; rewrite !length_app; lia).
  destruct (0 <=? v) eqn:E1; [|lia].
  destruct (v <? 256 ^ Z.of_nat (length w)) eqn:E2; [|lia].
  simpl. f_equal.
  rewrite firstn_app, firstn_all, Nat.sub_diag. simpl. rewrite app_nil_r.
  f_equal. f_equal.
  rewrite skipn_app, skipn_all2 by lia. simpl.
  replace (length pre + length w - length pre)%nat with (length w) by lia.
  rewrite skipn_app, skipn_all, Nat.sub_diag. reflexivity.
Qed.

(* ================================================================== *)
(** ** The word loops of the stage cipher *)
(* ================================================================== *)

Lemma range4_words (n : nat) :
  range4 (4 * Z.of_nat n) = map (fun k => 4 * Z.of_nat k) (seq 0 n).
Proof.
  unfold range4. f_equal. f_equal.
  replace ((4 * Z.of_nat n + 3) / 4) with (Z.of_nat n).
  - apply Nat2Z.id.
  - symmetry. rewrite Z.mul_comm, Z.div_add_l by lia.
    rewrite (Z.div_small 3 4) by lia. lia.
Qed.

Lemma whole_words (data : list byte) :
  len data mod 4 = 0 -> exists n, length data = (4 * n)%nat.
Proof.
  intros H. unfold len in H.
  apply Z.mod_divide in H; [|lia]. destruct H as [q Hq].
  exists (Z.to_nat q). lia.
Qed.

(** Lists of whole words, taken apart four bytes at a time. *)
Lemma words_ind (P : list byte -> Prop) :
  P [] ->
  (forall b0 b1 b2 b3 rest, P rest -> P (b0 :: b1 :: b2 :: b3 :: rest)) ->
  forall data, len data mod 4 = 0 -> P data.
Proof.
  intros H0 H4 data Hd.
  destruct (whole_words data Hd) as [n Hn]. clear Hd.
  revert data Hn. induction n as [|n IH]; intros data Hn.
  - destruct data; [exact H0|discriminate].
  - destruct data as [|b0 [|b1 [|b2 [|b3 rest]]]]; simpl in Hn; try lia.
    apply H4, IH. lia.
Qed.

Lemma word_range (b0 b1 b2 b3 : byte) :
  0 <= le_decode [b0; b1; b2; b3] < 2 ^ 32.
Proof. exact (le_decode_range [b0; b1; b2; b3]). Qed.

Lemma unpack_from_word (pre : list byte) (b0 b1 b2 b3 : byte)
    (post : list byte) :
  unpack_from 4 (pre ++ b0 :: b1 :: b2 :: b3 :: post) (len pre)
  = Ok (le_decode [b0; b1; b2; b3]).
Proof. exact (unpack_from_mid pre [b0; b1; b2; b3] post). Qed.

Lemma pack_into_word (pre : list byte) (b0 b1 b2 b3 : byte)
    (post : list byte) (v : Z) :
  0 <= v < 2 ^ 32 ->
  pack_into 4 (pre ++ b0 :: b1 :: b2 :: b3 :: post) (len pre) v
  = Ok (pre ++ le_encode 4 v ++ post).
Proof. exact (pack_into_mid pre [b0; b1; b2; b3] post v). Qed.

Section WordLoop.

Variable f : Z -> Z.
Hypothesis f_range : forall v, 0 <= v < 2 ^ 32 -> 0 <= f v < 2 ^ 32.

Lemma word_loop (n : nat) :
  forall (k0 : nat) (pre rest : list byte),
    length pre = (4 * k0)%nat -> length rest = (4 * n)%nat ->
    for_ (map (fun k => 4 * Z.of_nat k) (seq k0 n))
      (fun j data =>
         v <- unpack_from 4 data j ;; pack_into 4 data j (f v))
      (pre ++ rest)
    = Ok (pre ++ map_words f rest).
Proof.
  induction n as [|n IH]; intros k0 pre rest Hpre Hrest.
  - destruct rest; [reflexivity|discriminate].
  - destruct rest as [|b0 [|b1 [|b2 [|b3 rest]]]]; simpl in Hrest; try lia.
    cbn [seq map for_ map_words].
    replace (4 * Z.of_nat k0) with (len pre) by (unfold len; lia).
    rewrite unpack_from_word. cbn [bind].
    rewrite pack_into_word by (apply f_range, word_range).
    cbn [bind]. rewrite app_assoc.
    rewrite (IH (S k0)).
    + rewrite <- app_assoc. reflexivity.
    + rewrite length_app, le_encode_length. simpl. lia.
    + lia.
Qed.

Lemma word_loop_whole (data : list byte) :
  len data mod 4 = 0 ->
  for_ (range4 (len data))
    (fun j data => v <- unpack_from 4 data j ;; pack_into 4 data j (f v))
    data
  = Ok (map_words f data).
Proof.
  intros Hd. destruct (whole_words data Hd) as [n Hn].
  unfold len. rewrite Hn, Nat2Z.inj_mul.
  change (Z.of_nat 4) with 4. rewrite range4_words.
  apply (word_loop n 0 [] data); [reflexivity|exact Hn].
Qed.

End WordLoop.

Lemma xor_chain_loop (n : nat) :
  forall (k0 : nat) (pre rest : list byte) (rk : Z),
    0 <= rk < 2 ^ 32 ->
    length pre = (4 * k0)%nat -> length rest = (4 * n)%nat ->
    exists rk',
      for_ (map (fun k => 4 * Z.of_nat k) (seq k0 n))
        (fun j (st : list byte * Z) =>
           let '(data, key) := st in
           v <- unpack_from 4 data j ;;
           data <- pack_into 4 data j (Z.lxor v key) ;;
           Ok (data, v))
        (pre ++ rest, rk)
      = Ok (pre ++ chain_words rk rest, rk').
Proof.
  induction n as [|n IH]; intros k0 pre rest rk Hrk Hpre Hrest.
  - destruct rest; [exists rk; reflexivity|discriminate].
  - destruct rest as [|b0 [|b1 [|b2 [|b3 rest]]]]; simpl in Hrest; try lia.
    cbn [seq map for_ chain_words].
    replace (4 * Z.of_nat k0) with (len pre) by (unfold len; lia).
    rewrite unpack_from_word. cbn [bind].
    rewrite pack_into_word
      by (apply lxor_range; [lia|apply word_range|exact Hrk]).
    cbn [bind]. rewrite app_assoc.
    destruct (IH (S k0) (pre ++ le_encode 4
                                (Z.lxor (le_decode [b0; b1; b2; b3]) rk))
                rest (le_decode [b0; b1; b2; b3])) as [rk' Hrk'].
    + apply word_range.
    + rewrite length_app, le_encode_length. simpl. lia.
    + lia.
    + exists rk'. rewrite Hrk'. rewrite <- app_assoc. reflexivity.
Qed.

Lemma xor_const_words (data : list byte) (key : Z) :
  len data mod 4 = 0 -> 0 <= key < 2 ^ 32 ->
  xor_const data key = Ok (map_words (fun v => Z.lxor v key) data).
Proof.
  intros Hd Hk.
  apply (word_loop_whole (fun v => Z.lxor v key)); [|exact Hd].
  intros v Hv. apply lxor_range; [lia|exact Hv|exact Hk].
Qed.

Lemma xor_chain_words_eq (data : list byte) (key : Z) :
  len data mod 4 = 0 -> 0 <= key < 2 ^ 32 ->
  xor_chain data key = Ok (chain_words key data).
Proof.
  intros Hd Hk. destruct (whole_words data Hd) as [n Hn].
  unfold xor_chain, len. rewrite Hn, Nat2Z.inj_mul.
  change (Z.of_nat 4) with 4. rewrite range4_words.
  destruct (xor_chain_loop n 0 [] data key Hk eq_refl Hn) as [rk' H].
  simpl app in H. rewrite H. reflexivity.
Qed.

Lemma map_words_length (f : Z -> Z) (data : list byte) :
  len data mod 4 = 0 -> length (map_words f data) = length data.
Proof.
  revert data. apply words_ind; [reflexivity|].
  intros b0 b1 b2 b3 rest IH. cbn [map_words].
  rewrite length_app, le_encode_length. cbn [length]. rewrite IH. reflexivity.
Qed.

Lemma xor_word_twice (key : Z) (w : list byte) :
  0 <= key < 2 ^ 32 -> length w = 4%nat ->
  le_encode 4 (Z.lxor (le_decode (le_encode 4 (Z.lxor (le_decode w) key))) key)
  = w.
Proof.
  intros Hk Hw.
  pose proof (le_decode_range w) as Hr. rewrite Hw in Hr.
  rewrite le_decode_encode by (apply (lxor_range 32); lia).
  rewrite Z.lxor_assoc, Z.lxor_nilpotent, Z.lxor_0_r.
  rewrite <- Hw at 1. apply le_encode_decode.
Qed.

Lemma map_words_encode (f : Z -> Z) (v : Z) (rest : list byte) :
  map_words f (le_encode 4 v ++ rest)
  = le_encode 4 (f (le_decode (le_encode 4 v))) ++ map_words f rest.
Proof. reflexivity. Qed.

Lemma words_encode (v : Z) (rest : list byte) :
  0 <= v < 2 ^ 32 -> words (le_encode 4 v ++ rest) = v :: words rest.
Proof.
  intros Hv.
  change (words (le_encode 4 v ++ rest))
    with (le_decode (le_encode 4 v) :: words rest).
  rewrite le_decode_encode by exact Hv. reflexivity.
Qed.

Lemma xor_const_twice (key : Z) :
  0 <= key < 2 ^ 32 ->
  forall data, len data mod 4 = 0 ->
    map_words (fun v => Z.lxor v key) (map_words (fun v => Z.lxor v key) data)
    = data.
Proof.
  intros Hk.
  apply (words_ind (fun data =>
    map_words (fun v => Z.lxor v key) (map_words (fun v => Z.lxor v key) data)
    = data)); [reflexivity|].
  intros b0 b1 b2 b3 rest IH.
  cbn [map_words]. rewrite map_words_encode, IH.
  rewrite (xor_word_twice key [b0; b1; b2; b3] Hk eq_refl). reflexivity.
Qed.

Lemma chain_words_length (data : list byte) :
  len data mod 4 = 0 ->
  forall key, length (chain_words key data) = length data.
Proof.
  revert data.
  apply (words_ind (fun data =>
    forall key, length (chain_words key data) = length data)); [reflexivity|].
  intros b0 b1 b2 b3 rest IH key. cbn [chain_words].
  rewrite length_app, le_encode_length. cbn [length]. rewrite IH. reflexivity.
Qed.

Lemma chain_words_running_key (data : list byte) :
  len data mod 4 = 0 ->
  forall key, 0 <= key < 2 ^ 32 ->
    words (chain_words key data)
    = map (fun wk => Z.lxor (fst wk) (snd wk))
        (combine (words data) (key :: words data)).
Proof.
  revert data.
  apply (words_ind (fun data =>
    forall key, 0 <= key < 2 ^ 32 ->
      words (chain_words key data)
      = map (fun wk => Z.lxor (fst wk) (snd wk))
          (combine (words data) (key :: words data)))); [reflexivity|].
  intros b0 b1 b2 b3 rest IH key Hk.
  cbn [chain_words].
  rewrite words_encode by (apply lxor_range; [lia|apply word_range|exact Hk]).
  cbn [words combine map fst snd]. f_equal.
  apply IH, word_range.
Qed.

(* ================================================================== *)
(** ** Opcode 1 and opcode 2 *)
(* ================================================================== *)

(** C10.  On a region of whole words and with a 32-bit stage key, the
    opcode-1 stage applied twice with the same key gives back the bytes
    it started from; neither application raises. *)
Theorem opcode1_twice_restores (data : list byte) (key : Z) :
  len data mod 4 = 0 -> 0 <= key < 2 ^ 32 ->
  (data' <- stage 1 data key ;; stage 1 data' key) = Ok data.
Proof.
  intros Hd Hk.
  change (stage 1) with xor_const.
  rewrite (xor_const_words data key Hd Hk). cbn [bind].
  rewrite xor_const_words; [|unfold len; rewrite map_words_length|]; auto.
  f_equal. apply xor_const_twice; assumption.
Qed.

Lemma opcode1_twice_restores_witness :
  (data' <- stage 1 [x41; x42; x43; x00; xff; x10; x80; x7f] 0xDEADBEEF ;;
   stage 1 data' 0xDEADBEEF)
  = Ok [x41; x42; x43; x00; xff; x10; x80; x7f].
Proof.
  apply (opcode1_twice_restores
           [x41; x42; x43; x00; xff; x10; x80; x7f] 0xDEADBEEF).
  - reflexivity.
  - lia.
Defined.

(** C6.  On a region of whole words, the opcode-2 stage replaces every
    word, left to right, by the word XOR the running key; the running key
    is the stage key for the first word and, for every later word, the
    value the preceding word had before the stage touched it. *)
Theorem opcode2_chained_xor (data : list byte) (key : Z) :
  len data mod 4 = 0 -> 0 <= key < 2 ^ 32 ->
  exists data',
    stage 2 data key = Ok data' /\
    length data' = length data /\
    words data'
    = map (fun wk => Z.lxor (fst wk) (snd wk))
        (combine (words data) (key :: words data)).
Proof.
  intros Hd Hk. exists (chain_words key data).
  change (stage 2) with xor_chain.
  split; [apply xor_chain_words_eq; assumption|].
  split; [apply chain_words_length; assumption|].
  apply chain_words_running_key; assumption.
Qed.

Lemma opcode2_chained_xor_witness :
  exists data',
    stage 2 [x01; x00; x00; x00; x03; x00; x00; x00; x07; x00; x00; x00] 16
    = Ok data' /\
    length data' = 12%nat /\
    words data' = [Z.lxor 1 16; Z.lxor 3 1; Z.lxor 7 3].
Proof.
  apply (opcode2_chained_xor
           [x01; x00; x00; x00; x03; x00; x00; x00; x07; x00; x00; x00] 16).
  - reflexivity.
  - lia.
Defined.

(* ================================================================== *)
(** ** The eight rounds of [decrypt] *)
(* ================================================================== *)

Lemma clamp_inside (n i : Z) : 0 <= i <= n -> clamp n i = Z.to_nat i.
Proof.
  intros H. unfold clamp.
  destruct (i <? 0) eqn:E; [lia|]. f_equal. lia.
Qed.

Lemma slice_inside {A} (l : list A) (lo hi : Z) :
  0 <= lo <= hi -> hi <= len l ->
  slice l lo hi = firstn (Z.to_nat (hi - lo)) (skipn (Z.to_nat lo) l).
Proof.
  intros H1 H2. unfold slice.
  rewrite !clamp_inside by lia. f_equal. lia.
Qed.

Lemma unpack_from_inside (size : nat) (buf : list byte) (off : Z) :
  0 <= off -> off + Z.of_nat size <= len buf ->
  unpack_from size buf off
  = Ok (le_decode (slice buf off (off + Z.of_nat size))).
Proof.
  intros H1 H2. unfold unpack_from, struct_offset.
  destruct (off <? 0) eqn:E1; [lia|]. rewrite E1. cbn [orb].
  destruct (len buf - off <? Z.of_nat size) eqn:E2; [lia|].
  rewrite slice_inside by lia.
  replace (Z.to_nat (off + Z.of_nat size - off)) with size by lia.
  reflexivity.
Qed.

Lemma getitem_inside {A} (k : seqkind) (l : list A) (i : Z) (d : A) :
  0 <= i < len l -> getitem k l i = Ok (nth (Z.to_nat i) l d).
Proof.
  intros H. unfold getitem, norm_index.
  destruct (i <? 0) eqn:E1; [lia|]. rewrite E1. cbn [orb].
  destruct (len l <=? i) eqn:E2; [lia|].
  destruct (nth_error l (Z.to_nat i)) as [a|] eqn:E3.
  - rewrite (nth_error_nth l (Z.to_nat i) d E3). reflexivity.
  - apply nth_error_None in E3. unfold len in H. lia.
Qed.

Lemma decrypt_round_spec (routine : list byte) (i : Z) (data : list byte) :
  length routine = 40%nat -> 0 <= i < 8 ->
  decrypt_round routine i (8 + 4 * i + 4, data)
  = (data' <- round routine i data ;; Ok (8 + 4 * i, data')).
Proof.
  intros Hr Hi. unfold decrypt_round, round, stage_opcode, stage_key.
  replace (8 + 4 * i + 4 - 4) with (8 + 4 * i) by lia.
  rewrite (unpack_from_inside 4 routine (8 + 4 * i))
    by (unfold len; rewrite ?Hr; lia).
  cbn [bind].
  rewrite (getitem_inside Bytes routine i x00) by (unfold len; lia).
  reflexivity.
Qed.

Lemma decrypt_rounds_spec (routine : list byte) (n : nat) :
  length routine = 40%nat -> (n <= 8)%nat ->
  forall data,
    for_ (map Z.of_nat (rev (seq 0 n))) (decrypt_round routine)
      (8 + 4 * Z.of_nat n, data)
    = (data' <- for_ (map Z.of_nat (rev (seq 0 n))) (round routine) data ;;
       Ok (8, data')).
Proof.
  intros Hr. induction n as [|n IH]; intros Hn data.
  - reflexivity.
  - rewrite seq_S, rev_app_distr. cbn [rev app map for_ Nat.add].
    replace (8 + 4 * Z.of_nat (S n)) with (8 + 4 * Z.of_nat n + 4) by lia.
    rewrite decrypt_round_spec by (auto; lia).
    destruct (round routine (Z.of_nat n) data) as [data'|e]; cbn [bind].
    + apply IH. lia.
    + reflexivity.
Qed.

Lemma decrypt_data_spec (routine data : list byte) :
  length routine = 40%nat ->
  decrypt_data data routine = apply_stages routine data.
Proof.
  intros Hr. unfold decrypt_data, apply_stages.
  replace (len routine) with (8 + 4 * Z.of_nat 8) by (unfold len; lia).
  change [7; 6; 5; 4; 3; 2; 1; 0] with (map Z.of_nat (rev (seq 0 8))).
  rewrite decrypt_rounds_spec by (auto; lia).
  destruct (for_ _ (round routine) data); reflexivity.
Qed.

Lemma stage_noop (op : Z) (data : list byte) (key : Z) :
  op <> 1 -> op <> 2 -> op <> 4 -> op <> 8 -> stage op data key = Ok data.
Proof.
  intros H1 H2 H4 H8. unfold stage.
  destruct (op =? 1) eqn:E1; [lia|].
  destruct (op =? 2) eqn:E2; [lia|].
  destruct (op =? 4) eqn:E4; [lia|].
  destruct (op =? 8) eqn:E8; [lia|]. reflexivity.
Qed.

(** C3.  With 40 bytes of key material, [decrypt] on a region is the
    eight rounds 7, 6, ..., 0 run one after the other, each on the
    region as the round before left it; round [i] takes its opcode from
    [key[i]] and its key from the little-endian dword at
    [key[8 + 4*i .. 8 + 4*i + 4)]; a round whose opcode is none of 1, 2,
    4, 8 gives the region back unchanged and does not raise. *)
Theorem decrypt_eight_rounds (buffer : list byte) (offset length : Z)
    (routine : list byte) :
  List.length routine = 40%nat ->
  decrypt buffer offset length routine
  = (data <- for_ [7; 6; 5; 4; 3; 2; 1; 0]
               (fun i data =>
                  stage (ord (nth (Z.to_nat i) routine x00)) data
                    (le_decode (slice routine (8 + 4 * i) (8 + 4 * i + 4))))
               (slice buffer offset (offset + length)) ;;
     Ok (firstn (clamp (len buffer) offset) buffer ++ data
         ++ skipn (Nat.max (clamp (len buffer) offset)
                     (clamp (len buffer) (offset + length))) buffer))
  /\ (forall op data key,
        ~ In op [1; 2; 4; 8] -> stage op data key = Ok data).
Proof.
  intros Hr. split.
  - unfold decrypt. rewrite decrypt_data_spec by exact Hr. reflexivity.
  - intros op data key Hop.
    apply stage_noop; intros E; apply Hop; rewrite E; simpl; auto.
Qed.

Lemma decrypt_eight_rounds_witness :
  decrypt example_region 0 8 example_routine
  = Ok [x06; x80; x40; xd0; x23; x20; x20; x30]
  /\ stage 0 example_region 5 = Ok example_region.
Proof.
  destruct (decrypt_eight_rounds example_region 0 8 example_routine eq_refl)
    as [H1 H2].
  split.
  - rewrite H1. reflexivity.
  - apply H2. simpl. intuition discriminate.
Defined.

(* ================================================================== *)
(** ** Opcode 4: [shift_value] *)
(* ================================================================== *)

Lemma land_shiftr_1 (val i : Z) :
  0 <= i -> Z.land (Z.shiftr val i) 1 = Z.b2z (Z.testbit val i).
Proof.
  intros Hi. change 1 with (Z.ones 1).
  rewrite Z.land_ones by lia. change (2 ^ 1) with 2.
  rewrite <- Z.bit0_mod, Z.shiftr_spec by lia. reflexivity.
Qed.

Lemma testbit_b2z (b : bool) (j : Z) : Z.testbit (Z.b2z b) j = b && (j =? 0).
Proof.
  destruct b; simpl.
  - destruct j as [|p|p]; try reflexivity; destruct p; reflexivity.
  - apply Z.testbit_0_l.
Qed.

Lemma testbit_placed (b : bool) (k d : Z) :
  0 <= k -> Z.testbit (Z.shiftl (Z.b2z b) k) d = b && (k =? d).
Proof.
  intros Hk. destruct (Z.ltb_spec d 0) as [Hd|Hd].
  - rewrite Z.testbit_neg_r by exact Hd.
    destruct (k =? d) eqn:E; [lia|]. rewrite andb_false_r. reflexivity.
  - rewrite Z.shiftl_spec by exact Hd. rewrite testbit_b2z.
    f_equal. destruct (d - k =? 0) eqn:E1, (k =? d) eqn:E2; lia || reflexivity.
Qed.

Lemma placed_range (b : bool) (k : Z) :
  0 <= k < 32 -> 0 <= Z.shiftl (Z.b2z b) k < 2 ^ 32.
Proof.
  intros Hk. rewrite Z.shiftl_mul_pow2 by lia.
  assert (0 < 2 ^ k) by (apply Z.pow_pos_nonneg; lia).
  assert (2 ^ k < 2 ^ 32) by (apply Z.pow_lt_mono_r; lia).
  destruct b; simpl Z.b2z; lia.
Qed.

Lemma lor_range (n a b : Z) :
  0 <= n -> 0 <= a < 2 ^ n -> 0 <= b < 2 ^ n -> 0 <= Z.lor a b < 2 ^ n.
Proof.
  intros Hn Ha Hb.
  assert (H0 : 0 <= Z.lor a b) by (apply Z.lor_nonneg; lia).
  split; [exact H0|].
  destruct (Z.eq_dec (Z.lor a b) 0) as [E|E].
  - rewrite E. apply Z.pow_pos_nonneg; lia.
  - assert (Hn' : 0 < n).
    { destruct (Z.eq_dec n 0) as [->|]; [|lia].
      simpl in Ha, Hb. replace a with 0 in E by lia.
      replace b with 0 in E by lia. simpl in E. lia. }
    apply Z.log2_lt_pow2; [lia|].
    rewrite Z.log2_lor by lia.
    assert (Z.log2 a < n).
    { destruct (Z.eq_dec a 0) as [->|]; [simpl|apply Z.log2_lt_pow2]; lia. }
    assert (Z.log2 b < n).
    { destruct (Z.eq_dec b 0) as [->|]; [simpl|apply Z.log2_lt_pow2]; lia. }
    lia.
Qed.

Section ShiftValue.

Variables val key : Z.

Lemma shift_fold (m : nat) :
  forall (n : nat) (result : Z),
    0 <= result < 2 ^ 32 ->
    0 <= snd (fold_left (shift_step val key) (map Z.of_nat (seq n m))
                (Z.of_nat n * key, result)) < 2 ^ 32 /\
    forall d,
      Z.testbit (snd (fold_left (shift_step val key) (map Z.of_nat (seq n m))
                        (Z.of_nat n * key, result))) d
      = Z.testbit result d
        || existsb (fun b => Z.testbit val b && (bit_dest key b =? d))
             (map Z.of_nat (seq n m)).
Proof.
  induction m as [|m IH]; intros n result Hres.
  - simpl. split; [exact Hres|]. intros d. rewrite orb_false_r. reflexivity.
  - cbn [seq map fold_left].
    assert (Hstep : shift_step val key (Z.of_nat n * key, result) (Z.of_nat n)
                    = (Z.of_nat (S n) * key,
                       Z.lor result
                         (Z.shiftl (Z.b2z (Z.testbit val (Z.of_nat n)))
                            ((Z.of_nat (S n) * key) mod 32)))).
    { unfold shift_step. rewrite land_shiftr_1 by lia.
      replace (Z.of_nat n * key + key) with (Z.of_nat (S n) * key) by lia.
      reflexivity. }
    rewrite Hstep.
    pose proof (Z.mod_pos_bound (Z.of_nat (S n) * key) 32 ltac:(lia)) as Hm.
    destruct (IH (S n)
                (Z.lor result
                   (Z.shiftl (Z.b2z (Z.testbit val (Z.of_nat n)))
                      ((Z.of_nat (S n) * key) mod 32)))) as [IHr IHb].
    { apply lor_range; [lia|exact Hres|apply placed_range; exact Hm]. }
    split; [exact IHr|].
    intros d. rewrite IHb, Z.lor_spec, testbit_placed by lia.
    cbn [existsb]. unfold bit_dest at 2.
    replace (Z.of_nat n + 1) with (Z.of_nat (S n)) by lia.
    rewrite orb_assoc. reflexivity.
Qed.

End ShiftValue.

Lemma shift_value_bits (val key d : Z) :
  Z.testbit (shift_value val key) d
  = existsb (fun b => Z.testbit val b && (bit_dest key b =? d)) (range 32).
Proof.
  pose proof (shift_fold val key 32 0 0 ltac:(lia)) as [_ H].
  specialize (H d). rewrite Z.testbit_0_l in H. exact H.
Qed.

Lemma shift_value_range (val key : Z) : 0 <= shift_value val key < 2 ^ 32.
Proof.
  exact (proj1 (shift_fold val key 32 0 0 ltac:(lia))).
Qed.

Lemma existsb_pointwise {A} (f g : A -> bool) (l : list A) :
  (forall x, f x = g x) -> existsb f l = existsb g l.
Proof.
  intros H. induction l as [|a l IH]; simpl; [|rewrite H, IH]; reflexivity.
Qed.

Lemma shift_value_key_mod (val key : Z) :
  shift_value val key = shift_value val (key mod 32).
Proof.
  apply Z.bits_inj'. intros d _. rewrite !shift_value_bits.
  apply existsb_pointwise. intros b. unfold bit_dest.
  rewrite Z.mul_mod_idemp_r by lia. reflexivity.
Qed.

Lemma gcd_32_even (key : Z) : Z.gcd key 32 <> 1 -> key mod 2 = 0.
Proof.
  intros Hg.
  pose proof (Z.gcd_divide_r key 32) as Hd32.
  pose proof (Z.gcd_divide_l key 32) as Hdk.
  pose proof (Z.gcd_nonneg key 32) as Hnn.
  set (g := Z.gcd key 32) in *.
  assert (Hle : g <= 32) by (apply Z.divide_pos_le; [lia|exact Hd32]).
  assert (Hnz : g <> 0).
  { intros E. rewrite E in Hd32. destruct Hd32 as [q Hq]. lia. }
  apply Z.mod_divide in Hd32; [|exact Hnz].
  assert (He : g mod 2 = 0).
  { assert (Hc : In g (map Z.of_nat (seq 1 32))).
    { apply in_map_iff. exists (Z.to_nat g). split; [lia|].
      apply in_seq. lia. }
    simpl in Hc.
    repeat (destruct Hc as [E|Hc];
            [rewrite <- E in *; first [reflexivity | discriminate Hd32
                                       | exfalso; apply Hg; reflexivity]|]).
    destruct Hc. }
  apply Z.mod_divide; [lia|].
  apply Z.divide_trans with g; [|exact Hdk].
  apply Z.mod_divide; [lia|exact He].
Qed.

Lemma bit_dest_collision (key b : Z) :
  key mod 2 = 0 -> bit_dest key (b + 16) = bit_dest key b.
Proof.
  intros He. unfold bit_dest.
  apply Z.mod_divide in He; [|lia]. destruct He as [q ->].
  replace ((b + 16 + 1) * (q * 2)) with ((b + 1) * (q * 2) + q * 32) by lia.
  apply Z.mod_add. lia.
Qed.

Lemma shift_value_lossy (key : Z) :
  key mod 2 = 0 -> shift_value 1 key = shift_value 65536 key.
Proof.
  intros He.
  rewrite (shift_value_key_mod 1), (shift_value_key_mod 65536).
  pose proof (Z.mod_pos_bound key 32 ltac:(lia)) as Hb.
  assert (Hm : (key mod 32) mod 2 = 0).
  { pose proof (Z.div_mod key 32 ltac:(lia)).
    pose proof (Z.div_mod key 2 ltac:(lia)).
    pose proof (Z.div_mod (key mod 32) 2 ltac:(lia)).
    pose proof (Z.mod_pos_bound (key mod 32) 2 ltac:(lia)). lia. }
  apply Z.mod_divide in Hm; [|lia]. destruct Hm as [q Hq].
  rewrite Hq in *.
  assert (Hq' : 0 <= q < 16) by lia.
  assert (Hc : In q (map Z.of_nat (seq 0 16))).
  { apply in_map_iff. exists (Z.to_nat q). split; [lia|].
    apply in_seq. lia. }
  simpl in Hc.
  repeat (destruct Hc as [<-|Hc]; [vm_compute; reflexivity|]).
  destruct Hc.
Qed.

(* ================================================================== *)
(** ** Opcode 8: [init_table] *)
(* ================================================================== *)

Lemma setitem_inside {A} (k : seqkind) (l : list A) (i : Z) (a : A) :
  0 <= i < len l ->
  setitem k l i a = Ok (firstn (Z.to_nat i) l ++ a :: skipn (S (Z.to_nat i)) l).
Proof.
  intros H. unfold setitem, norm_index.
  destruct (i <? 0) eqn:E1; [lia|]. rewrite E1. cbn [orb].
  destruct (len l <=? i) eqn:E2; [lia|]. reflexivity.
Qed.

Lemma store_length {A} (l : list A) (j : nat) (a : A) :
  (j < length l)%nat ->
  length (firstn j l ++ a :: skipn (S j) l) = length l.
Proof.
  intros H. rewrite length_app, length_firstn. cbn [length].
  rewrite length_skipn. lia.
Qed.

Lemma store_nth {A} (l : list A) (j d : nat) (a dflt : A) :
  (j < length l)%nat ->
  nth d (firstn j l ++ a :: skipn (S j) l) dflt
  = if Nat.eqb d j then a else nth d l dflt.
Proof.
  intros H.
  assert (Hf : length (firstn j l) = j) by (rewrite length_firstn; lia).
  destruct (Nat.eqb_spec d j) as [->|Hne].
  - rewrite app_nth2 by lia. rewrite Hf, Nat.sub_diag. reflexivity.
  - destruct (Nat.lt_ge_cases d j) as [Hlt|Hge].
    + rewrite app_nth1 by lia.
      rewrite <- (firstn_skipn j l) at 2.
      rewrite app_nth1 by lia. reflexivity.
    + rewrite app_nth2 by lia. rewrite Hf.
      destruct (d - j)%nat as [|k] eqn:Ek; [lia|]. cbn [nth].
      rewrite <- (firstn_skipn (S j) l) at 2.
      rewrite app_nth2 by (rewrite length_firstn; lia).
      rewrite length_firstn. f_equal. lia.
Qed.

Section InitTable.

Variable buffer : list byte.
Variable key : Z.

Lemma init_table_loop (m : nat) :
  forall (n : nat) (table : list byte),
    (n + m = length buffer)%nat ->
    table_filled buffer key n table ->
    exists x' table',
      for_ (map Z.of_nat (seq n m)) (init_table_body buffer key)
        ((Z.of_nat n * key) mod len buffer, table)
      = Ok (x', table')
      /\ table_filled buffer key (n + m) table'.
Proof.
  induction m as [|m IH]; intros n table Hnm Hfill.
  - exists ((Z.of_nat n * key) mod len buffer), table.
    rewrite Nat.add_0_r. split; [reflexivity|exact Hfill].
  - cbn [seq map for_]. unfold init_table_body at 1.
    assert (HL : 0 < len buffer) by (unfold len; lia).
    rewrite (getitem_inside Memoryview buffer (Z.of_nat n) x00)
      by (unfold len; lia).
    cbn [bind].
    assert (Hx : ((Z.of_nat n * key) mod (len buffer) + key) mod (len buffer)
                 = byte_dest key (len buffer) (Z.of_nat n)).
    { unfold byte_dest. rewrite Z.add_mod_idemp_l by lia.
      f_equal. lia. }
    rewrite Hx.
    pose proof (Z.mod_pos_bound ((Z.of_nat n + 1) * key) (len buffer) HL) as Hb.
    fold (byte_dest key (len buffer) (Z.of_nat n)) in Hb.
    destruct Hfill as [Hlen Hnth].
    rewrite setitem_inside by (unfold len; rewrite Hlen; fold (len buffer); exact Hb).
    cbn [bind].
    assert (Hj : (Z.to_nat (byte_dest key (len buffer) (Z.of_nat n)) < length table)%nat).
    { rewrite Hlen. unfold len in Hb |- *. lia. }
    destruct (IH (S n)
                (firstn (Z.to_nat (byte_dest key (len buffer) (Z.of_nat n))) table
                 ++ nth (Z.to_nat (Z.of_nat n)) buffer x00
                 :: skipn (S (Z.to_nat (byte_dest key (len buffer) (Z.of_nat n)))) table))
      as (x' & table' & Hrun & Hfill').
    + lia.
    + split.
      * rewrite store_length by exact Hj. exact Hlen.
      * intros d Hd. rewrite store_nth by exact Hj.
        cbn [last_source].
        destruct (Nat.eqb_spec d (Z.to_nat (byte_dest key (len buffer) (Z.of_nat n))))
          as [E|E].
        -- destruct (byte_dest key (len buffer) (Z.of_nat n) =? Z.of_nat d) eqn:E'; [|lia].
           rewrite Nat2Z.id. reflexivity.
        -- destruct (byte_dest key (len buffer) (Z.of_nat n) =? Z.of_nat d) eqn:E'; [lia|].
           apply Hnth. exact Hd.
    + exists x', table'. split.
      * replace (byte_dest key (len buffer) (Z.of_nat n))
          with ((Z.of_nat (S n) * key) mod (len buffer))
          by (unfold byte_dest; f_equal; lia).
        replace (byte_dest key (len buffer) (Z.of_nat n))
          with ((Z.of_nat (S n) * key) mod (len buffer)) in Hrun
          by (unfold byte_dest; f_equal; lia).
        exact Hrun.
      * replace (n + S m)%nat with (S n + m)%nat by lia. exact Hfill'.
Qed.

Lemma init_table_filled :
  exists table,
    init_table buffer key = Ok table /\
    length table = length buffer /\
    forall d, (d < length buffer)%nat ->
      nth d table x00
      = match last_source key (len buffer) (Z.of_nat d) (length buffer) with
        | Some i => nth i buffer x00
        | None => x00
        end.
Proof.
  assert (Hm : (0 + Z.to_nat (len buffer) = length buffer)%nat)
    by (unfold len; lia).
  destruct (init_table_loop (Z.to_nat (len buffer)) 0
              (repeat x00 (Z.to_nat (len buffer))) Hm)
    as (x' & table' & Hrun & Hlen & Hnth).
  - split.
    + rewrite repeat_length. exact Hm.
    + intros d Hd. cbn [last_source]. apply nth_repeat.
  - rewrite Hm in Hnth.
    exists table'. split; [|split; [exact Hlen|exact Hnth]].
    unfold init_table, range. cbv zeta.
    change ((Z.of_nat 0 * key) mod len buffer) with 0 in Hrun.
    unfold init_table_body in Hrun. rewrite Hrun. reflexivity.
Qed.

End InitTable.

Lemma shift_words_eq (data : list byte) (key : Z) :
  len data mod 4 = 0 ->
  shift_words data key = Ok (map_words (fun v => shift_value v key) data).
Proof.
  intros Hd.
  apply (word_loop_whole (fun v => shift_value v key)); [|exact Hd].
  intros v _. apply shift_value_range.
Qed.

Lemma last_source_is_last (key L d : Z) (n s : nat) :
  last_source key L d n = Some s ->
  (s < n)%nat /\ byte_dest key L (Z.of_nat s) = d /\
  forall j, (s < j < n)%nat -> byte_dest key L (Z.of_nat j) <> d.
Proof.
  induction n as [|n IH]; cbn [last_source]; [discriminate|].
  destruct (Z.eqb_spec (byte_dest key L (Z.of_nat n)) d) as [E|E].
  - intros [= <-]. repeat split; [lia|exact E|intros j Hj; lia].
  - intros H. destruct (IH H) as (H1 & H2 & H3).
    repeat split; [lia|exact H2|].
    intros j Hj. destruct (Nat.eq_dec j n) as [->|Hne]; [exact E|].
    apply H3. lia.
Qed.

Lemma byte_dest_collision (key L : Z) :
  0 < L -> Z.gcd key L <> 1 ->
  exists j, 0 < j < L /\ byte_dest key L j = byte_dest key L 0.
Proof.
  intros HL Hg.
  pose proof (Z.gcd_divide_r key L) as [a Ha].
  pose proof (Z.gcd_divide_l key L) as [b Hb].
  pose proof (Z.gcd_nonneg key L) as Hnn.
  set (g := Z.gcd key L) in *.
  assert (Hg0 : g <> 0) by (intros E; rewrite E in Ha; lia).
  assert (Hg2 : 2 <= g) by lia.
  assert (Ha0 : 0 < a) by nia.
  exists a. split; [nia|].
  unfold byte_dest.
  replace ((a + 1) * key) with ((0 + 1) * key + b * L).
  - apply Z.mod_add. lia.
  - rewrite Hb at 1 2. rewrite Ha. ring.
Qed.

Lemma replace_at_length {A} (l : list A) (i : nat) (a : A) :
  (i < length l)%nat -> length (replace_at l i a) = length l.
Proof. apply store_length. Qed.

Lemma init_table_overwritten (buffer : list byte) (key : Z) (i j : nat)
    (b : byte) :
  (i < j < length buffer)%nat ->
  byte_dest key (len buffer) (Z.of_nat i)
  = byte_dest key (len buffer) (Z.of_nat j) ->
  init_table (replace_at buffer i b) key = init_table buffer key.
Proof.
  intros Hij Hd.
  assert (Hlen : length (replace_at buffer i b) = length buffer)
    by (apply replace_at_length; lia).
  destruct (init_table_filled buffer key) as (t1 & Ht1 & Hl1 & Hn1).
  destruct (init_table_filled (replace_at buffer i b) key)
    as (t2 & Ht2 & Hl2 & Hn2).
  rewrite Ht1, Ht2. f_equal.
  apply (nth_ext _ _ x00 x00); [congruence|].
  intros d Hdl. rewrite Hl2, Hlen in Hdl.
  rewrite Hn1 by exact Hdl. rewrite Hn2 by (rewrite Hlen; exact Hdl).
  unfold len. rewrite Hlen. fold (len buffer).
  destruct (last_source key (len buffer) (Z.of_nat d) (length buffer))
    as [s|] eqn:Es; [|reflexivity].
  destruct (last_source_is_last _ _ _ _ _ Es) as (Hs & Hsd & Hlast).
  unfold replace_at. rewrite store_nth by lia.
  destruct (Nat.eqb_spec s i) as [->|Hne]; [|reflexivity].
  exfalso. apply (Hlast j); [lia|]. rewrite <- Hd. exact Hsd.
Qed.

(* ================================================================== *)
(** ** Opcodes 4 and 8 together *)
(* ================================================================== *)

(** C5.  Opcode 4 replaces every word [v] of a region of whole words by
    [shift_value v key], whose bit [d] is the OR of the source bits [b]
    in 0..31 with [((b+1)*key) mod 32 = d]; when [gcd(key,32) <> 1] two
    source bits share a destination and two different words have the
    same image.  Opcode 8 works on the region of length [L] as a whole:
    destination [d] ends up with the source byte [i] that is the last
    one with [((i+1)*key) mod L = d] (zero if there is none); when
    [gcd(key,L) <> 1] two sources [i < j] share a destination and the
    byte at [i] has no influence on the result.  Neither stage raises. *)
Theorem opcode4_opcode8_not_bijective :
  (forall data key,
      len data mod 4 = 0 ->
      stage 4 data key = Ok (map_words (fun v => shift_value v key) data))
  /\ (forall val key d,
        Z.testbit (shift_value val key) d
        = existsb (fun b => Z.testbit val b && (((b + 1) * key) mod 32 =? d))
            (range 32))
  /\ (forall key,
        Z.gcd key 32 <> 1 ->
        (exists b1 b2,
            0 <= b1 < b2 /\ b2 < 32 /\
            ((b1 + 1) * key) mod 32 = ((b2 + 1) * key) mod 32)
        /\ (exists v1 v2,
               0 <= v1 < 2 ^ 32 /\ 0 <= v2 < 2 ^ 32 /\ v1 <> v2 /\
               shift_value v1 key = shift_value v2 key))
  /\ (forall buffer key,
        exists table,
          stage 8 buffer key = Ok table /\
          length table = length buffer /\
          forall d, (d < length buffer)%nat ->
            nth d table x00
            = match last_source key (len buffer) (Z.of_nat d)
                      (length buffer) with
              | Some i => nth i buffer x00
              | None => x00
              end)
  /\ (forall buffer key,
        0 < len buffer ->
        Z.gcd key (len buffer) <> 1 ->
        exists i j,
          (i < j < length buffer)%nat /\
          ((Z.of_nat i + 1) * key) mod len buffer
          = ((Z.of_nat j + 1) * key) mod len buffer /\
          forall b, stage 8 (replace_at buffer i b) key = stage 8 buffer key).
Proof.
  split; [|split; [|split; [|split]]].
  - intros data key Hd. exact (shift_words_eq data key Hd).
  - intros val key d. exact (shift_value_bits val key d).
  - intros key Hg. apply gcd_32_even in Hg. split.
    + exists 0, 16. repeat split; try lia.
      symmetry. exact (bit_dest_collision key 0 Hg).
    + exists 1, 65536. repeat split; try lia.
      exact (shift_value_lossy key Hg).
  - intros buffer key. exact (init_table_filled buffer key).
  - intros buffer key HL Hg.
    destruct (byte_dest_collision key (len buffer) HL Hg) as (j & Hj & Hc).
    exists 0%nat, (Z.to_nat j).
    assert (Hjn : (0 < Z.to_nat j < length buffer)%nat)
      by (unfold len in Hj; lia).
    split; [exact Hjn|]. split.
    + rewrite Z2Nat.id by lia. symmetry. exact Hc.
    + intros b.
      apply (init_table_overwritten buffer key 0 (Z.to_nat j) b Hjn).
      rewrite Z2Nat.id by lia. symmetry. exact Hc.
Qed.

Lemma opcode4_opcode8_not_bijective_witness :
  (exists v1 v2,
      0 <= v1 < 2 ^ 32 /\ 0 <= v2 < 2 ^ 32 /\ v1 <> v2 /\
      shift_value v1 6 = shift_value v2 6)
  /\ (exists i j,
         (i < j < 8)%nat /\
         forall b, stage 8 (replace_at example_region i b) 6
                   = stage 8 example_region 6).
Proof.
  destruct opcode4_opcode8_not_bijective as (_ & _ & H4 & _ & H8).
  split.
  - apply (H4 6). vm_compute. discriminate.
  - destruct (H8 example_region 6) as (i & j & Hij & _ & Hb).
    + reflexivity.
    + vm_compute. discriminate.
    + exists i, j. split; [exact Hij|exact Hb].
Defined.

(* ================================================================== *)
(** ** [decrypt] on regions of whole words never raises *)
(* ================================================================== *)

Lemma stage_total (op : Z) (data : list byte) (key : Z) :
  len data mod 4 = 0 -> 0 <= key < 2 ^ 32 ->
  exists data', stage op data key = Ok data' /\ length data' = length data.
Proof.
  intros Hd Hk. unfold stage.
  destruct (op =? 1).
  { rewrite xor_const_words by assumption.
    eexists; split; [reflexivity|apply map_words_length; exact Hd]. }
  destruct (op =? 2).
  { rewrite xor_chain_words_eq by assumption.
    eexists; split; [reflexivity|apply chain_words_length; exact Hd]. }
  destruct (op =? 4).
  { rewrite shift_words_eq by assumption.
    eexists; split; [reflexivity|apply map_words_length; exact Hd]. }
  destruct (op =? 8).
  { destruct (init_table_filled data key) as (t & Ht & Hl & _).
    exists t. split; assumption. }
  exists data. split; reflexivity.
Qed.

Lemma stage_key_range (routine : list byte) (i : Z) :
  length routine = 40%nat -> 0 <= i < 8 ->
  0 <= stage_key routine i < 2 ^ 32.
Proof.
  intros Hr Hi. unfold stage_key.
  pose proof (le_decode_range (slice routine (8 + 4 * i) (8 + 4 * i + 4))) as H.
  rewrite slice_inside in * by (unfold len; lia).
  rewrite length_firstn, length_skipn in H.
  replace (Init.Nat.min (Z.to_nat (8 + 4 * i + 4 - (8 + 4 * i)))
             (length routine - Z.to_nat (8 + 4 * i)))%nat with 4%nat in H
    by lia.
  exact H.
Qed.

Lemma rounds_total (routine : list byte) (rounds : list Z) :
  length routine = 40%nat ->
  (forall i, In i rounds -> 0 <= i < 8) ->
  forall data,
    len data mod 4 = 0 ->
    exists data',
      for_ rounds (round routine) data = Ok data' /\ length data' = length data.
Proof.
  intros Hr. induction rounds as [|i rounds IH]; intros His data Hd.
  - exists data. split; reflexivity.
  - cbn [for_]. unfold round at 1.
    destruct (stage_total (stage_opcode routine i) data (stage_key routine i))
      as (d1 & H1 & L1); [exact Hd| |].
    { apply stage_key_range; [exact Hr|]. apply His. left. reflexivity. }
    rewrite H1. cbn [bind].
    destruct (IH (fun j Hj => His j (or_intror Hj)) d1) as (d2 & H2 & L2).
    { unfold len. rewrite L1. exact Hd. }
    exists d2. split; [exact H2|congruence].
Qed.

Lemma decrypt_data_total (data routine : list byte) :
  length routine = 40%nat -> len data mod 4 = 0 ->
  exists data',
    decrypt_data data routine = Ok data' /\ length data' = length data.
Proof.
  intros Hr Hd. rewrite decrypt_data_spec by exact Hr.
  apply rounds_total; [exact Hr| |exact Hd].
  simpl. intros i Hi. intuition lia.
Qed.

(* ================================================================== *)
(** ** The coroutine decoder *)
(* ================================================================== *)

Lemma land_mask (x : Z) : Z.land x 4095 = x mod 4096.
Proof. change 4095 with (Z.ones 12). rewrite Z.land_ones by lia. reflexivity. Qed.

Lemma window_index_lt (x : Z) : (window_index x < 4096)%nat.
Proof.
  unfold window_index. pose proof (Z.mod_pos_bound x 4096 ltac:(lia)). lia.
Qed.

Lemma prefix_refl {A} (l : list A) : prefix l l.
Proof. exists []. symmetry. apply app_nil_r. Qed.

Lemma prefix_trans {A} (l1 l2 l3 : list A) :
  prefix l1 l2 -> prefix l2 l3 -> prefix l1 l3.
Proof.
  intros [t1 ->] [t2 ->]. exists (t1 ++ t2). symmetry. apply app_assoc.
Qed.

Lemma prefix_snoc {A} (l : list A) (a : A) : prefix l (l ++ [a]).
Proof. exists [a]. reflexivity. Qed.

Lemma co_emit_ok (v : byte) (s : costate) : co_ok s -> co_ok (co_emit v s).
Proof.
  unfold co_ok. intros H. cbn [co_emit co_frame].
  rewrite replace_at_length; [exact H|]. rewrite H. apply window_index_lt.
Qed.

Lemma co_emits_ok (n : nat) :
  forall offset s, co_ok s -> co_ok (co_emits n offset s).
Proof.
  induction n as [|n IH]; intros offset s H; cbn [co_emits]; [exact H|].
  apply IH, co_emit_ok, H.
Qed.

Lemma co_put_emit (v : byte) (s : costate) :
  co_ok s -> co_put 4095 v s = Next (co_emit v s).
Proof.
  unfold co_ok. intros H. unfold co_put.
  pose proof (Z.mod_pos_bound (co_frame_pos s) 4096 ltac:(lia)) as Hb.
  rewrite land_mask.
  rewrite setitem_inside by (unfold len; rewrite H; lia).
  reflexivity.
Qed.

Lemma co_copy_emits (n : nat) :
  forall offset s,
    co_ok s -> co_copy n 4095 offset s = Next (co_emits n offset s).
Proof.
  induction n as [|n IH]; intros offset s H; cbn [co_copy co_emits].
  - reflexivity.
  - pose proof (Z.mod_pos_bound offset 4096 ltac:(lia)) as Hb.
    rewrite land_mask.
    rewrite (getitem_inside Bytearray (co_frame s) (offset mod 4096) x00)
      by (unfold len; rewrite H; lia).
    cbn [lift]. rewrite co_put_emit by exact H.
    apply IH, co_emit_ok, H.
Qed.

Lemma co_emits_buffer (n : nat) :
  forall offset s,
    co_buffer (co_emits n offset s)
    = co_buffer s
      ++ fst (window_copy n (co_frame s) (co_frame_pos s) offset)
    /\ co_frame (co_emits n offset s)
       = snd (window_copy n (co_frame s) (co_frame_pos s) offset)
    /\ co_frame_pos (co_emits n offset s) = co_frame_pos s + Z.of_nat n
    /\ co_input (co_emits n offset s) = co_input s.
Proof.
  induction n as [|n IH]; intros offset s; cbn [co_emits window_copy].
  - rewrite app_nil_r, Z.add_0_r. repeat split.
  - destruct (IH (offset + 1)
                (co_emit (nth (window_index offset) (co_frame s) x00) s))
      as (Hb & Hf & Hp & Hi).
    cbn [co_emit co_buffer co_frame co_frame_pos co_input] in Hb, Hf, Hp, Hi.
    destruct (window_copy n _ _ _) as [out fr] eqn:E.
    cbn [fst snd] in *.
    rewrite Hb, Hf, Hp, Hi, <- app_assoc. repeat split. lia.
Qed.

Lemma window_copy_length (n : nat) :
  forall frame cursor offset,
    length (fst (window_copy n frame cursor offset)) = n.
Proof.
  induction n as [|n IH]; intros frame cursor offset; cbn [window_copy].
  - reflexivity.
  - specialize (IH (replace_at frame (window_index cursor)
                      (nth (window_index offset) frame x00))
                  (cursor + 1) (offset + 1)).
    destruct (window_copy n _ _ _) as [out fr]. cbn [fst length] in *.
    rewrite IH. reflexivity.
Qed.

Lemma match_length_range (hi : byte) : (3 <= match_length hi <= 18)%nat.
Proof.
  unfold match_length. change 0x0F with (Z.ones 4).
  rewrite Z.land_ones by lia.
  pose proof (Z.mod_pos_bound (ord hi) (2 ^ 4) ltac:(lia)). lia.
Qed.

Lemma land_range (n a b : Z) :
  0 <= n -> 0 <= a -> 0 <= b < 2 ^ n -> 0 <= Z.land a b < 2 ^ n.
Proof.
  intros Hn Ha Hb.
  assert (H0 : 0 <= Z.land a b) by (apply Z.land_nonneg; lia).
  split; [exact H0|].
  destruct (Z.eq_dec (Z.land a b) 0) as [E|E].
  - rewrite E. apply Z.pow_pos_nonneg; lia.
  - assert (Hb0 : b <> 0).
    { intros ->. rewrite Z.land_0_r in E. lia. }
    apply Z.log2_lt_pow2; [lia|].
    pose proof (Z.log2_land a b Ha ltac:(lia)).
    assert (Z.log2 b < n) by (apply Z.log2_lt_pow2; lia).
    lia.
Qed.

Lemma match_offset_range (lo hi : byte) : 0 <= match_offset lo hi < 4096.
Proof.
  unfold match_offset.
  pose proof (ord_range lo) as Hlo. pose proof (ord_range hi) as Hhi.
  assert (Hh : 0 <= Z.shiftl (Z.land (ord hi) 240) 4 < 2 ^ 12).
  { rewrite Z.shiftl_mul_pow2 by lia.
    pose proof (land_range 8 (ord hi) 240 ltac:(lia) ltac:(lia) ltac:(lia)).
    change (2 ^ 4) with 16. change (2 ^ 12) with 4096.
    change (2 ^ 8) with 256 in *. lia. }
  change 4096 with (2 ^ 12). apply lor_range; lia.
Qed.

Lemma co_bit_eq (ctl bit : Z) (s : costate) :
  co_ok s ->
  co_bit 4095 ctl bit s
  = if negb (Z.land ctl (Z.shiftl 1 bit) =? 0) then
      match co_input s with
      | [] => Return s
      | b :: rest => Next (co_emit b (co_set_input s rest))
      end
    else
      match co_input s with
      | [] => Return s
      | [_] => Return (co_set_input s [])
      | lo :: hi :: rest =>
          Next (co_emits (match_length hi) (match_offset lo hi)
                  (co_set_input s rest))
      end.
Proof.
  intros Hok. unfold co_bit, co_read.
  destruct (negb (Z.land ctl (Z.shiftl 1 bit) =? 0)).
  - destruct (co_input s) as [|b rest]; [reflexivity|].
    apply co_put_emit. exact Hok.
  - destruct (co_input s) as [|lo [|hi rest]]; try reflexivity.
    cbn [co_input]. apply co_copy_emits. exact Hok.
Qed.

Lemma co_emits_prefix (n : nat) (offset : Z) (s : costate) :
  prefix (co_buffer s) (co_buffer (co_emits n offset s)).
Proof.
  destruct (co_emits_buffer n offset s) as (Hb & _). rewrite Hb.
  eexists. reflexivity.
Qed.

Lemma co_bit_good (ctl bit : Z) (s : costate) :
  co_ok s -> co_good s (co_bit 4095 ctl bit s).
Proof.
  intros Hok. rewrite co_bit_eq by exact Hok.
  destruct (negb (Z.land ctl (Z.shiftl 1 bit) =? 0)).
  - destruct (co_input s) as [|b rest] eqn:Ei; cbn [co_good].
    + split; [exact Ei|apply prefix_refl].
    + split; [apply co_emit_ok; exact Hok|].
      split; [apply prefix_snoc|]. rewrite Ei. cbn. lia.
  - destruct (co_input s) as [|lo [|hi rest]] eqn:Ei; cbn [co_good].
    + split; [exact Ei|apply prefix_refl].
    + split; [reflexivity|apply prefix_refl].
    + split; [apply co_emits_ok; exact Hok|].
      split; [apply (co_emits_prefix _ _ (co_set_input s rest))|].
      destruct (co_emits_buffer (match_length hi) (match_offset lo hi)
                  (co_set_input s rest)) as (_ & _ & _ & Hi).
      rewrite Hi, Ei. cbn. lia.
Qed.

Lemma co_good_trans (s s' : costate) (f : flow costate) :
  prefix (co_buffer s) (co_buffer s') ->
  (length (co_input s') <= length (co_input s))%nat ->
  co_good s' f -> co_good s f.
Proof.
  intros Hp Hl. destruct f as [u|u|e u]; cbn [co_good]; [| |tauto].
  - intros (H1 & H2 & H3). split; [exact H1|].
    split; [apply (prefix_trans _ _ _ Hp H2)|lia].
  - intros (H1 & H2). split; [exact H1|apply (prefix_trans _ _ _ Hp H2)].
Qed.

Lemma co_bits_good (ctl : Z) (bits : list Z) :
  forall s, co_ok s -> co_good s (each bits (co_bit 4095 ctl) s).
Proof.
  induction bits as [|bit bits IH]; intros s Hok; cbn [each].
  - cbn [co_good]. split; [exact Hok|]. split; [apply prefix_refl|lia].
  - pose proof (co_bit_good ctl bit s Hok) as Hg.
    destruct (co_bit 4095 ctl bit s) as [s'|s'|e s']; [|exact Hg|exact Hg].
    destruct Hg as (Hok' & Hp & Hl).
    apply (co_good_trans s s'); [exact Hp|exact Hl|].
    apply IH. exact Hok'.
Qed.

Lemma co_while_total (fuel : nat) :
  forall s,
    co_ok s -> (length (co_input s) < fuel)%nat ->
    exists s',
      co_while fuel 4095 s = Some (Return s') /\
      co_input s' = [] /\ prefix (co_buffer s) (co_buffer s').
Proof.
  induction fuel as [|fuel IH]; intros s Hok Hf; [lia|].
  cbn [co_while]. unfold co_read.
  destruct (co_input s) as [|ctl rest] eqn:Ei.
  - exists s. split; [reflexivity|]. split; [exact Ei|apply prefix_refl].
  - pose proof (co_bits_good (ord ctl) (range 8) (co_set_input s rest) Hok)
      as Hg.
    change {| co_input := rest; co_buffer := co_buffer s;
              co_pos := co_pos s; co_length := co_length s;
              co_frame := co_frame s; co_frame_pos := co_frame_pos s;
              co_yields := co_yields s |} with (co_set_input s rest).
    destruct (each (range 8) (co_bit 4095 (ord ctl)) (co_set_input s rest))
      as [s'|s'|e s']; cbn [co_good] in Hg.
    + destruct Hg as (Hok' & Hp & Hl). cbn [co_set_input co_input] in Hl.
      destruct (IH s' Hok') as (r & Hr & Hi & Hp').
      { cbn [length] in Hf. lia. }
      exists r. split; [exact Hr|]. split; [exact Hi|].
      exact (prefix_trans _ _ _ Hp Hp').
    + exists s'. split; [reflexivity|exact Hg].
    + destruct Hg.
Qed.

(** *** More input only ever adds output *)

Lemma co_emits_set_input (n : nat) :
  forall offset s input,
    co_emits n offset (co_set_input s input)
    = co_set_input (co_emits n offset s) input.
Proof.
  induction n as [|n IH]; intros offset s input; cbn [co_emits].
  - reflexivity.
  - rewrite <- IH. reflexivity.
Qed.

Lemma co_emits_input (n : nat) (offset : Z) (s : costate) :
  co_input (co_emits n offset s) = co_input s.
Proof. apply co_emits_buffer. Qed.

(** A step that goes on with the input it has goes on in the same way when
    more input follows. *)
Lemma co_bit_more_input (ctl bit : Z) (s s' : costate) (extra : list byte) :
  co_ok s ->
  co_bit 4095 ctl bit s = Next s' ->
  co_bit 4095 ctl bit (co_set_input s (co_input s ++ extra))
  = Next (co_set_input s' (co_input s' ++ extra)).
Proof.
  intros Hok. rewrite !co_bit_eq by exact Hok.
  cbn [co_set_input co_input].
  destruct (negb (Z.land ctl (Z.shiftl 1 bit) =? 0)).
  - destruct (co_input s) as [|b rest]; [discriminate|].
    intros [= <-]. reflexivity.
  - destruct (co_input s) as [|lo [|hi rest]]; try discriminate.
    intros [= <-]. cbn [app]. f_equal.
    rewrite co_emits_input. cbn [co_set_input co_input].
    rewrite <- co_emits_set_input. reflexivity.
Qed.

Lemma co_bit_return_buffer (ctl bit : Z) (s s' : costate) :
  co_ok s -> co_bit 4095 ctl bit s = Return s' ->
  co_buffer s' = co_buffer s.
Proof.
  intros Hok. rewrite co_bit_eq by exact Hok.
  destruct (negb (Z.land ctl (Z.shiftl 1 bit) =? 0)).
  - destruct (co_input s) as [|b rest]; [|discriminate].
    intros [= <-]. reflexivity.
  - destruct (co_input s) as [|lo [|hi rest]]; try discriminate;
      intros [= <-]; reflexivity.
Qed.

Lemma co_bits_more_input (ctl : Z) (extra : list byte) (bits : list Z) :
  forall s,
    co_ok s ->
    match each bits (co_bit 4095 ctl) s with
    | Next s' =>
        each bits (co_bit 4095 ctl) (co_set_input s (co_input s ++ extra))
        = Next (co_set_input s' (co_input s' ++ extra))
    | Return s' =>
        co_good (co_set_input s' (co_input s ++ extra))
          (each bits (co_bit 4095 ctl) (co_set_input s (co_input s ++ extra)))
    | Throw _ _ => False
    end.
Proof.
  induction bits as [|bit bits IH]; intros s Hok; cbn [each].
  - reflexivity.
  - pose proof (co_bit_good ctl bit s Hok) as Hg.
    destruct (co_bit 4095 ctl bit s) as [s1|s1|e s1] eqn:E1.
    + rewrite (co_bit_more_input ctl bit s s1 extra Hok E1).
      destruct Hg as (Hok1 & Hp1 & Hl1).
      specialize (IH s1 Hok1).
      destruct (each bits (co_bit 4095 ctl) s1) as [s2|s2|e s2];
        [exact IH| |exact IH].
      destruct (each bits (co_bit 4095 ctl)
                  (co_set_input s1 (co_input s1 ++ extra)))
        as [u|u|e u]; cbn [co_good co_set_input co_input co_buffer] in *.
      * destruct IH as (H1 & H2 & H3). repeat split; try assumption.
        rewrite !length_app in *. lia.
      * exact IH.
      * exact IH.
    + pose proof (co_bit_return_buffer ctl bit s s1 Hok E1) as Hb.
      pose proof (co_bits_good ctl (bit :: bits)
                    (co_set_input s (co_input s ++ extra)) Hok) as Hg2.
      cbn [each] in Hg2.
      destruct (co_bit 4095 ctl bit (co_set_input s (co_input s ++ extra)))
        as [u|u|e u]; [| |exact Hg2].
      * destruct (each bits (co_bit 4095 ctl) u) as [w|w|e w];
          cbn [co_good co_set_input co_input co_buffer] in *;
          try rewrite Hb; exact Hg2.
      * cbn [co_good co_set_input co_input co_buffer] in *.
        rewrite Hb. exact Hg2.
    + destruct Hg.
Qed.

Lemma co_while_more_input (fuel1 : nat) :
  forall (fuel2 : nat) (s : costate) (extra : list byte),
    co_ok s ->
    (length (co_input s) < fuel1)%nat ->
    (length (co_input s ++ extra) < fuel2)%nat ->
    exists r1 r2,
      co_while fuel1 4095 s = Some (Return r1) /\
      co_while fuel2 4095 (co_set_input s (co_input s ++ extra))
      = Some (Return r2) /\
      prefix (co_buffer r1) (co_buffer r2).
Proof.
  induction fuel1 as [|fuel1 IH]; intros fuel2 s extra Hok Hf1 Hf2; [lia|].
  destruct (co_input s) as [|ctl rest] eqn:Ei.
  - destruct (co_while_total fuel2 (co_set_input s ([] ++ extra)) Hok Hf2)
      as (r2 & Hr2 & _ & Hp).
    exists s, r2. split; [|split; [exact Hr2|exact Hp]].
    cbn [co_while]. unfold co_read. rewrite Ei. reflexivity.
  - destruct fuel2 as [|fuel2]; [lia|].
    cbn [co_while]. unfold co_read. rewrite Ei.
    cbn [co_set_input co_input co_buffer co_pos co_length co_frame
         co_frame_pos co_yields app].
    change {| co_input := rest; co_buffer := co_buffer s;
              co_pos := co_pos s; co_length := co_length s;
              co_frame := co_frame s; co_frame_pos := co_frame_pos s;
              co_yields := co_yields s |} with (co_set_input s rest).
    change {| co_input := rest ++ extra; co_buffer := co_buffer s;
              co_pos := co_pos s; co_length := co_length s;
              co_frame := co_frame s; co_frame_pos := co_frame_pos s;
              co_yields := co_yields s |}
      with (co_set_input (co_set_input s rest)
              (co_input (co_set_input s rest) ++ extra)).
    pose proof (co_bits_more_input (ord ctl) extra (range 8)
                  (co_set_input s rest) Hok) as Hsim.
    pose proof (co_bits_good (ord ctl) (range 8) (co_set_input s rest) Hok)
      as Hg.
    destruct (each (range 8) (co_bit 4095 (ord ctl)) (co_set_input s rest))
      as [t|t|e t]; cbn [co_good] in Hg.
    + rewrite Hsim. destruct Hg as (Hokt & _ & Hl).
      cbn [co_set_input co_input] in Hl.
      rewrite length_app in Hf2. cbn [length] in Hf1, Hf2.
      apply IH; [exact Hokt|lia|rewrite length_app; lia].
    + cbn [co_set_input co_input] in Hsim |- *.
      destruct (each (range 8) (co_bit 4095 (ord ctl))
                  (co_set_input (co_set_input s rest) (rest ++ extra)))
        as [u|u|e u]; cbn [co_good co_set_input co_input co_buffer] in Hsim.
      * destruct Hsim as (Hoku & Hp & Hl).
        destruct (co_while_total fuel2 u Hoku) as (r2 & Hr2 & _ & Hp2).
        { rewrite !length_app in *. cbn [length] in Hf2. lia. }
        exists t, r2. split; [reflexivity|]. split; [exact Hr2|].
        exact (prefix_trans _ _ _ Hp Hp2).
      * exists t, u. split; [reflexivity|]. split; [reflexivity|].
        apply Hsim.
      * destruct Hsim.
    + destruct Hg.
Qed.

Lemma co_start_ok (input : list byte) (length : Z) :
  co_ok (co_start default_settings input length).
Proof. unfold co_ok. cbn [co_start co_frame]. apply repeat_length. Qed.

Lemma co_unpack_returns (input : list byte) (length : Z) :
  exists s,
    co_unpack default_settings input length = Some (Return s) /\
    co_input s = [].
Proof.
  destruct (co_while_total (S (List.length input))
              (co_start default_settings input length)
              (co_start_ok input length)) as (s & Hs & Hi & _).
  - cbn [co_start co_input]. lia.
  - exists s. split; [exact Hs|exact Hi].
Qed.

Lemma co_unpack_prefix (input extra : list byte) (length : Z) :
  exists s1 s2,
    co_unpack default_settings input length = Some (Return s1) /\
    co_unpack default_settings (input ++ extra) length = Some (Return s2) /\
    prefix (co_buffer s1) (co_buffer s2).
Proof.
  apply (co_while_more_input (S (List.length input))
           (S (List.length (input ++ extra)))
           (co_start default_settings input length) extra
           (co_start_ok input length));
    cbn [co_start co_input]; lia.
Qed.

(* ================================================================== *)
(** ** The length-bounded decoder *)
(* ================================================================== *)

Lemma replace_at_firstn {A} (l : list A) (i : nat) (a : A) :
  (i <= length l)%nat -> firstn i (replace_at l i a) = firstn i l.
Proof.
  intros H. unfold replace_at.
  rewrite firstn_app, length_firstn.
  replace (i - Nat.min i (length l))%nat with 0%nat by lia.
  rewrite firstn_firstn. replace (Nat.min i i) with i by lia.
  cbn [firstn]. apply app_nil_r.
Qed.

Lemma replace_at_skipn {A} (l : list A) (i : nat) (a : A) :
  (i < length l)%nat -> skipn (S i) (replace_at l i a) = skipn (S i) l.
Proof.
  intros H. unfold replace_at.
  rewrite skipn_app, length_firstn.
  replace (S i - Nat.min i (length l))%nat with 1%nat by lia.
  rewrite skipn_all2 by (rewrite length_firstn; lia).
  reflexivity.
Qed.

Lemma r_ext_refl (s : rstate) : r_ext s s.
Proof. unfold r_ext. repeat split; lia. Qed.

Lemma r_ext_trans (s1 s2 s3 : rstate) :
  0 <= r_dst s1 -> r_ext s1 s2 -> r_ext s2 s3 -> r_ext s1 s3.
Proof.
  intros H0 (L1 & D1 & F1 & S1 & R1) (L2 & D2 & F2 & S2 & R2).
  unfold r_ext. repeat split; try lia.
  - rewrite <- F1.
    replace (Z.to_nat (r_dst s1))
      with (Nat.min (Z.to_nat (r_dst s1)) (Z.to_nat (r_dst s2))) by lia.
    rewrite <- !firstn_firstn. rewrite F2. reflexivity.
  - rewrite S2.
    replace (Z.to_nat (r_dst s3))
      with ((Z.to_nat (r_dst s3) - Z.to_nat (r_dst s2))
            + Z.to_nat (r_dst s2))%nat by lia.
    rewrite <- !skipn_skipn. rewrite S1. reflexivity.
Qed.

Lemma r_emit_ok (v : byte) (s : rstate) :
  r_ok s -> r_dst s < len (r_output s) ->
  r_ok (r_emit v s) /\ r_ext s (r_emit v s).
Proof.
  intros (Hf & Hp & Hd) Hroom. unfold len in *.
  assert (Ho : length (replace_at (r_output s) (Z.to_nat (r_dst s)) v)
               = length (r_output s)) by (apply replace_at_length; lia).
  split.
  - unfold r_ok. cbn [r_emit r_frame r_frame_pos r_dst r_output].
    split; [rewrite replace_at_length; [exact Hf|lia]|].
    split; [apply Z.mod_pos_bound; lia|].
    unfold len. rewrite Ho. lia.
  - unfold r_ext. cbn [r_emit r_dst r_output r_remaining].
    split; [exact Ho|]. split; [lia|].
    split; [apply replace_at_firstn; lia|].
    split; [|lia].
    replace (Z.to_nat (r_dst s + 1)) with (S (Z.to_nat (r_dst s))) by lia.
    apply replace_at_skipn. lia.
Qed.

Lemma r_put_emit (v : byte) (s : rstate) :
  r_ok s -> r_dst s < len (r_output s) ->
  r_put 4095 v s = Next (r_emit v s).
Proof.
  intros (Hf & Hp & Hd) Hroom. unfold r_put.
  rewrite setitem_inside by (unfold len; rewrite Hf; lia).
  cbn [lift r_output r_dst].
  rewrite setitem_inside by lia.
  cbn [lift]. rewrite land_mask. reflexivity.
Qed.

Lemma r_copy_good (n : nat) :
  forall offset s,
    0 <= offset < 4096 -> r_ok s ->
    exists s', r_copy n 4095 offset s = Next s' /\ r_ok s' /\ r_ext s s'.
Proof.
  induction n as [|n IH]; intros offset s Ho Hok; cbn [r_copy].
  - exists s. split; [reflexivity|]. split; [exact Hok|apply r_ext_refl].
  - destruct (r_dst s >=? len (r_output s)) eqn:E.
    + exists s. split; [reflexivity|]. split; [exact Hok|apply r_ext_refl].
    + assert (Hroom : r_dst s < len (r_output s)) by lia.
      destruct Hok as (Hf & Hp & Hd).
      rewrite (getitem_inside Bytearray (r_frame s) offset x00)
        by (unfold len; rewrite Hf; lia).
      cbn [lift].
      rewrite r_put_emit by (unfold r_ok; auto).
      destruct (r_emit_ok (nth (Z.to_nat offset) (r_frame s) x00) s)
        as (Hok' & Hext'); [unfold r_ok; auto|exact Hroom|].
      rewrite land_mask.
      destruct (IH ((offset + 1) mod 4096) _
                  (Z.mod_pos_bound _ 4096 ltac:(lia)) Hok')
        as (s' & Hs' & Hok'' & Hext'').
      exists s'. split; [exact Hs'|]. split; [exact Hok''|].
      exact (r_ext_trans s _ s' (proj1 Hd) Hext' Hext'').
Qed.

Lemma r_advance_ok (k : nat) (s : rstate) : r_ok s -> r_ok (r_advance k s).
Proof. intros H. exact H. Qed.

Lemma r_advance_ext (k : nat) (s : rstate) : r_ext s (r_advance k s).
Proof.
  unfold r_ext. cbn [r_advance r_consume r_take snd r_output r_dst r_remaining].
  repeat split; lia.
Qed.

Lemma r_good_trans (s s' : rstate) (f : flow rstate) :
  0 <= r_dst s -> r_ext s s' -> r_good s' f -> r_good s f.
Proof.
  intros H0 He (Hok & Hext & Hne).
  split; [exact Hok|]. split; [|exact Hne].
  exact (r_ext_trans s s' (final f) H0 He Hext).
Qed.

Lemma r_bit_good (ctl bit : Z) (s : rstate) :
  r_ok s -> r_good s (r_bit 4095 ctl bit s).
Proof.
  intros Hok. pose proof Hok as (Hf & Hp & Hd). unfold r_bit.
  destruct (r_dst s >=? len (r_output s)) eqn:Efull.
  { split; [exact Hok|]. split; [apply r_ext_refl|intros []]. }
  assert (Hroom : r_dst s < len (r_output s)) by lia.
  destruct (negb (Z.land ctl (Z.shiftl 1 bit) =? 0)).
  - destruct (r_remaining s =? 0).
    { split; [exact Hok|]. split; [apply r_ext_refl|intros []]. }
    cbn [r_take].
    destruct (firstn 1 (r_input s)) as [|b rest].
    + split; [exact Hok|]. split; [|intros []].
      unfold r_ext; cbn; repeat split; lia.
    + change (r_consume 1 _) with (r_advance 1 s).
      rewrite r_put_emit by (try apply r_advance_ok; assumption).
      destruct (r_emit_ok b (r_advance 1 s) (r_advance_ok 1 s Hok) Hroom)
        as (Hok' & Hext').
      apply (r_good_trans s (r_advance 1 s)); [lia|apply r_advance_ext|].
      split; [exact Hok'|]. split; [exact Hext'|intros []].
  - destruct (r_remaining s <? 2).
    { split; [exact Hok|]. split; [apply r_ext_refl|intros []]. }
    cbn [r_take].
    destruct (firstn 2 (r_input s)) as [|lo [|hi [|x rest]]];
      try (split; [exact Hok|]; split; [|intros []];
           unfold r_ext; cbn; repeat split; lia).
    + change (r_consume 2 _) with (r_advance 2 s).
      destruct (r_copy_good (Z.to_nat (3 + Z.land (ord hi) 15))
                  (Z.lor (Z.shiftl (Z.land (ord hi) 240) 4) (ord lo))
                  (r_advance 2 s) (match_offset_range lo hi)
                  (r_advance_ok 2 s Hok)) as (s' & Hs' & Hok' & Hext').
      rewrite Hs'.
      apply (r_good_trans s (r_advance 2 s)); [lia|apply r_advance_ext|].
      split; [exact Hok'|]. split; [exact Hext'|intros []].
Qed.

Lemma r_bits_good (ctl : Z) (bits : list Z) :
  forall s, r_ok s -> r_good s (each bits (r_bit 4095 ctl) s).
Proof.
  induction bits as [|bit bits IH]; intros s Hok; cbn [each].
  - split; [exact Hok|]. split; [apply r_ext_refl|intros []].
  - pose proof (r_bit_good ctl bit s Hok) as Hg.
    destruct (r_bit 4095 ctl bit s) as [s'|s'|e s']; [|exact Hg|exact Hg].
    destruct Hg as (Hok' & Hext' & _). cbn [final] in *.
    apply (r_good_trans s s'); [apply Hok|exact Hext'|].
    apply IH. exact Hok'.
Qed.

Lemma r_while_good (fuel : nat) :
  forall s,
    r_ok s -> (Z.to_nat (r_remaining s) <= fuel)%nat ->
    exists f, r_while fuel 4095 s = Some f /\ r_good s f.
Proof.
  induction fuel as [|fuel IH]; intros s Hok Hfuel.
  - cbn [r_while]. destruct (r_remaining s >? 0) eqn:E; [lia|].
    exists (Next s). split; [reflexivity|].
    split; [exact Hok|]. split; [apply r_ext_refl|intros []].
  - cbn [r_while]. destruct (r_remaining s >? 0) eqn:E.
    + cbn [r_take]. destruct (firstn 1 (r_input s)) as [|ctl rest].
      * eexists. split; [reflexivity|].
        split; [exact Hok|]. split; [|intros []].
        unfold r_ext; cbn; repeat split; lia.
      * change (r_consume 1 _) with (r_advance 1 s).
        pose proof (r_bits_good (ord ctl) (range 8) (r_advance 1 s)
                      (r_advance_ok 1 s Hok)) as Hg.
        destruct (each (range 8) (r_bit 4095 (ord ctl)) (r_advance 1 s))
          as [s'|s'|e s'].
        -- destruct Hg as (Hok' & Hext' & _). cbn [final] in *.
           destruct (IH s' Hok') as (f & Hf & Hgf).
           { destruct Hext' as (_ & _ & _ & _ & Hr).
             cbn [r_advance r_consume r_remaining r_take snd] in Hr. lia. }
           exists f. split; [exact Hf|].
           apply (r_good_trans s (r_advance 1 s));
             [apply Hok|apply r_advance_ext|].
           apply (r_good_trans (r_advance 1 s) s');
             [apply Hok|exact Hext'|exact Hgf].
        -- eexists. split; [reflexivity|].
           apply (r_good_trans s (r_advance 1 s));
             [apply Hok|apply r_advance_ext|exact Hg].
        -- eexists. split; [reflexivity|].
           apply (r_good_trans s (r_advance 1 s));
             [apply Hok|apply r_advance_ext|exact Hg].
    + exists (Next s). split; [reflexivity|].
      split; [exact Hok|]. split; [apply r_ext_refl|intros []].
Qed.

Lemma r_unpack_good (input_stream : list byte)
    (input_length output_length : Z) :
  0 <= output_length ->
  exists r f,
    LzssReader input_stream input_length output_length = Ok r /\
    r_unpack r = Some f /\
    r_good (r_start r) f.
Proof.
  intros Hol. unfold LzssReader.
  destruct (output_length <? 0) eqn:E; [lia|].
  eexists. 
  match goal with
  | |- exists f, Ok ?r = _ /\ _ =>
      destruct (r_while_good (Z.to_nat (rd_size r)) (r_start r))
        as (f & Hf & Hg)
  end.
  - unfold r_ok. cbn [r_start r_frame r_frame_pos r_dst r_output
                        rd_frame_fill rd_frame_size rd_frame_init_pos
                        rd_output].
    split; [apply repeat_length|]. split; [lia|].
    unfold len. lia.
  - cbn [r_start r_remaining]. lia.
  - exists f. split; [reflexivity|]. split; [exact Hf|exact Hg].
Qed.

(** *** Both decoders copy a match the same way *)

Lemma window_index_mod (x : Z) : window_index (x mod 4096) = window_index x.
Proof. unfold window_index. rewrite Z.mod_mod by lia. reflexivity. Qed.

Lemma window_index_inside (x : Z) :
  0 <= x < 4096 -> window_index x = Z.to_nat x.
Proof. intros H. unfold window_index. rewrite Z.mod_small by exact H. reflexivity. Qed.

Lemma window_copy_mod (n : nat) :
  forall frame cursor offset,
    window_copy n frame (cursor mod 4096) (offset mod 4096)
    = window_copy n frame cursor offset.
Proof.
  induction n as [|n IH]; intros frame cursor offset; cbn [window_copy].
  - reflexivity.
  - rewrite !window_index_mod.
    rewrite <- (IH _ (cursor mod 4096 + 1) (offset mod 4096 + 1)).
    rewrite <- (IH _ (cursor + 1) (offset + 1)).
    rewrite !Z.add_mod_idemp_l by lia. reflexivity.
Qed.

Lemma replace_at_firstn_S {A} (l : list A) (i : nat) (a : A) :
  (i < length l)%nat -> firstn (S i) (replace_at l i a) = firstn i l ++ [a].
Proof.
  intros H. unfold replace_at.
  rewrite firstn_app, length_firstn.
  replace (S i - Nat.min i (length l))%nat with 1%nat by lia.
  rewrite firstn_all2 by (rewrite length_firstn; lia).
  reflexivity.
Qed.

Lemma r_emits_spec (n : nat) :
  forall offset s,
    0 <= offset < 4096 -> r_ok s ->
    r_dst s + Z.of_nat n <= len (r_output s) ->
    r_copy n 4095 offset s = Next (r_emits n offset s) /\
    r_output (r_emits n offset s)
    = firstn (Z.to_nat (r_dst s)) (r_output s)
      ++ fst (window_copy n (r_frame s) (r_frame_pos s) offset)
      ++ skipn (Z.to_nat (r_dst s) + n) (r_output s) /\
    r_frame (r_emits n offset s)
    = snd (window_copy n (r_frame s) (r_frame_pos s) offset) /\
    r_dst (r_emits n offset s) = r_dst s + Z.of_nat n /\
    r_input (r_emits n offset s) = r_input s /\
    r_remaining (r_emits n offset s) = r_remaining s.
Proof.
  induction n as [|n IH]; intros offset s Ho Hok Hroom;
    cbn [r_copy r_emits window_copy].
  - cbn [fst snd app]. rewrite Nat.add_0_r, firstn_skipn, Z.add_0_r.
    repeat split.
  - pose proof Hok as (Hf & Hp & Hd).
    destruct (r_dst s >=? len (r_output s)) eqn:E; [lia|].
    rewrite (getitem_inside Bytearray (r_frame s) offset x00)
      by (unfold len; rewrite Hf; lia).
    cbn [lift]. rewrite r_put_emit by (assumption || lia).
    rewrite land_mask.
    set (v := nth (Z.to_nat offset) (r_frame s) x00).
    destruct (r_emit_ok v s Hok ltac:(lia)) as (Hok1 & Hext1).
    destruct (IH ((offset + 1) mod 4096) (r_emit v s)
                (Z.mod_pos_bound _ 4096 ltac:(lia)) Hok1)
      as (Hc & Hout & Hfr & Hdst & Hin & Hrem).
    { destruct Hext1 as (Hl & _). unfold len in *. rewrite Hl.
      cbn [r_emit r_dst]. lia. }
    rewrite (window_index_inside offset Ho). fold v.
    rewrite (window_index_inside _ Hp).
    cbn [r_emit r_frame r_frame_pos r_dst r_output r_input r_remaining]
      in Hout, Hfr, Hdst, Hin, Hrem.
    rewrite window_copy_mod in Hout, Hfr.
    destruct (window_copy n _ (r_frame_pos s + 1) (offset + 1))
      as [out fr] eqn:Ewc.
    cbn [fst snd] in *.
    split; [exact Hc|].
    split; [|split; [exact Hfr|split; [lia|split; assumption]]].
    rewrite Hout.
    replace (Z.to_nat (r_dst s + 1)) with (S (Z.to_nat (r_dst s))) by lia.
    unfold len in *.
    rewrite replace_at_firstn_S by lia.
    rewrite <- app_assoc. cbn [app]. do 3 f_equal.
    replace (S (Z.to_nat (r_dst s)) + n)%nat
      with (n + S (Z.to_nat (r_dst s)))%nat by lia.
    replace (Z.to_nat (r_dst s) + S n)%nat
      with (n + S (Z.to_nat (r_dst s)))%nat by lia.
    rewrite <- !skipn_skipn. rewrite replace_at_skipn by lia. reflexivity.
Qed.

Lemma control_bit (ctl bit : Z) :
  0 <= bit ->
  negb (Z.land ctl (Z.shiftl 1 bit) =? 0) = Z.testbit ctl bit.
Proof.
  intros Hb.
  assert (Hbits : forall j,
             Z.testbit (Z.land ctl (Z.shiftl 1 bit)) j
             = Z.testbit ctl j && (bit =? j)).
  { intros j. rewrite Z.land_spec.
    change 1 with (Z.b2z true). rewrite testbit_placed by exact Hb.
    reflexivity. }
  destruct (Z.testbit ctl bit) eqn:Et.
  - destruct (Z.eqb_spec (Z.land ctl (Z.shiftl 1 bit)) 0) as [E|E];
      [|reflexivity].
    specialize (Hbits bit). rewrite E, Z.testbit_0_l, Et, Z.eqb_refl in Hbits.
    discriminate.
  - replace (Z.land ctl (Z.shiftl 1 bit)) with 0; [reflexivity|].
    symmetry. apply Z.bits_inj'. intros j _.
    rewrite Hbits, Z.testbit_0_l.
    destruct (Z.eqb_spec bit j) as [<-|]; [rewrite Et|];
      [reflexivity|apply andb_false_r].
Qed.

(** A match that starts one byte behind the cursor repeats that byte. *)
Lemma window_copy_run (n : nat) :
  forall frame cursor b,
    length frame = 4096%nat ->
    nth (window_index (cursor - 1)) frame x00 = b ->
    fst (window_copy n frame cursor (cursor - 1)) = repeat b n.
Proof.
  induction n as [|n IH]; intros frame cursor b Hlen Hb; cbn [window_copy].
  - reflexivity.
  - rewrite Hb.
    specialize (IH (replace_at frame (window_index cursor) b) (cursor + 1) b).
    replace (cursor + 1 - 1) with cursor in IH by lia.
    replace (cursor - 1 + 1) with cursor by lia.
    destruct (window_copy n _ (cursor + 1) cursor) as [out fr].
    cbn [fst repeat] in *. f_equal. apply IH.
    + rewrite replace_at_length; [exact Hlen|].
      rewrite Hlen. apply window_index_lt.
    + unfold replace_at. rewrite store_nth by (rewrite Hlen; apply window_index_lt).
      rewrite Nat.eqb_refl. reflexivity.
Qed.

(* ================================================================== *)
(** ** The decoders, step by step *)
(* ================================================================== *)

Lemma co_bit_literal (ctl bit : Z) (s : costate) (b : byte)
    (rest : list byte) :
  co_ok s -> 0 <= bit -> Z.testbit ctl bit = true ->
  co_input s = b :: rest ->
  exists s',
    co_bit 4095 ctl bit s = Next s' /\
    co_input s' = rest /\
    co_buffer s' = co_buffer s ++ [b] /\
    co_frame s' = replace_at (co_frame s) (window_index (co_frame_pos s)) b /\
    co_frame_pos s' = co_frame_pos s + 1.
Proof.
  intros Hok Hbit Ht Hi. rewrite co_bit_eq by exact Hok.
  rewrite control_bit, Ht, Hi by exact Hbit.
  eexists. split; [reflexivity|]. repeat split.
Qed.

Lemma co_bit_match (ctl bit : Z) (s : costate) (lo hi : byte)
    (rest : list byte) :
  co_ok s -> 0 <= bit -> Z.testbit ctl bit = false ->
  co_input s = lo :: hi :: rest ->
  exists s',
    co_bit 4095 ctl bit s = Next s' /\
    co_input s' = rest /\
    co_buffer s'
    = co_buffer s
      ++ fst (window_copy (match_length hi) (co_frame s) (co_frame_pos s)
                (match_offset lo hi)) /\
    co_frame s'
    = snd (window_copy (match_length hi) (co_frame s) (co_frame_pos s)
             (match_offset lo hi)) /\
    co_frame_pos s' = co_frame_pos s + Z.of_nat (match_length hi).
Proof.
  intros Hok Hbit Ht Hi. rewrite co_bit_eq by exact Hok.
  rewrite control_bit, Ht, Hi by exact Hbit. cbn [negb].
  eexists. split; [reflexivity|].
  destruct (co_emits_buffer (match_length hi) (match_offset lo hi)
              (co_set_input s rest)) as (Hb & Hf & Hp & Hin).
  repeat split; assumption.
Qed.

Lemma r_bit_literal (ctl bit : Z) (s : rstate) (b : byte)
    (rest : list byte) :
  r_ok s -> 0 <= bit -> Z.testbit ctl bit = true ->
  r_dst s < len (r_output s) -> r_remaining s <> 0 ->
  r_input s = b :: rest ->
  exists s',
    r_bit 4095 ctl bit s = Next s' /\
    r_input s' = rest /\
    r_output s' = replace_at (r_output s) (Z.to_nat (r_dst s)) b /\
    r_dst s' = r_dst s + 1 /\
    r_frame s' = replace_at (r_frame s) (window_index (r_frame_pos s)) b /\
    r_frame_pos s' = (r_frame_pos s + 1) mod 4096.
Proof.
  intros Hok Hbit Ht Hroom Hrem Hi. unfold r_bit.
  destruct (r_dst s >=? len (r_output s)) eqn:E1; [lia|].
  rewrite control_bit, Ht by exact Hbit.
  destruct (r_remaining s =? 0) eqn:E2; [lia|].
  cbn [r_take]. rewrite Hi. cbn [firstn skipn].
  rewrite r_put_emit by assumption.
  eexists. split; [reflexivity|].
  cbn [r_emit r_consume r_input r_output r_dst r_frame r_frame_pos].
  rewrite (window_index_inside (r_frame_pos s)) by apply Hok.
  repeat split.
Qed.

Lemma r_bit_match (ctl bit : Z) (s : rstate) (lo hi : byte)
    (rest : list byte) :
  r_ok s -> 0 <= bit -> Z.testbit ctl bit = false ->
  r_dst s + Z.of_nat (match_length hi) <= len (r_output s) ->
  2 <= r_remaining s ->
  r_input s = lo :: hi :: rest ->
  exists s',
    r_bit 4095 ctl bit s = Next s' /\
    r_input s' = rest /\
    r_output s'
    = firstn (Z.to_nat (r_dst s)) (r_output s)
      ++ fst (window_copy (match_length hi) (r_frame s) (r_frame_pos s)
                (match_offset lo hi))
      ++ skipn (Z.to_nat (r_dst s) + match_length hi) (r_output s) /\
    r_dst s' = r_dst s + Z.of_nat (match_length hi) /\
    r_frame s'
    = snd (window_copy (match_length hi) (r_frame s) (r_frame_pos s)
             (match_offset lo hi)).
Proof.
  intros Hok Hbit Ht Hroom Hrem Hi. unfold r_bit.
  pose proof (match_length_range hi) as Hn.
  destruct (r_dst s >=? len (r_output s)) eqn:E1; [lia|].
  rewrite control_bit, Ht by exact Hbit. cbn [negb].
  destruct (r_remaining s <? 2) eqn:E2; [lia|].
  cbn [r_take]. rewrite Hi. cbn [firstn skipn].
  match goal with
  | |- exists s', r_copy _ _ _ ?t = _ /\ _ =>
      destruct (r_emits_spec (match_length hi) (match_offset lo hi) t
                  (match_offset_range lo hi) Hok Hroom)
        as (Hc & Hout & Hfr & Hdst & Hin & _)
  end.
  eexists. split; [exact Hc|].
  repeat split; assumption.
Qed.

(** C7.  Both decoders start from a window of 4096 zero bytes with the
    cursor at 0xFEE and take the bits of a control byte from bit 0 to bit
    7.  A set bit moves one input byte to the output and to the window at
    the cursor.  A clear bit reads [lo] and [hi] and copies
    [3 + (hi & 0x0F)] bytes, between 3 and 18, from the window position
    [((hi & 0xF0) << 4) | lo], one byte at a time, each byte also stored at
    the cursor, so that a match reaching into what it has just written
    repeats it.  The stream of three literals and one match of length 5 at
    position 0 decodes to the three literals followed by five zero
    bytes. *)
Theorem sliding_window_decoding :
  (* the window at the start *)
  (forall input n,
      co_frame (co_start default_settings input n) = repeat x00 4096 /\
      co_frame_pos (co_start default_settings input n) = 0xFEE)
  /\ (forall stream il ol r,
        LzssReader stream il ol = Ok r ->
        r_frame (r_start r) = repeat x00 4096 /\
        r_frame_pos (r_start r) = 0xFEE)
  (* one control byte, then its bits from 0 to 7 *)
  /\ (forall fuel s ctl rest,
        co_input s = ctl :: rest ->
        co_while (S fuel) 4095 s
        = match each [0; 1; 2; 3; 4; 5; 6; 7] (co_bit 4095 (ord ctl))
                  (co_set_input s rest) with
          | Next s' => co_while fuel 4095 s'
          | stop => Some stop
          end)
  /\ (forall fuel s ctl rest,
        0 < r_remaining s -> r_input s = ctl :: rest ->
        r_while (S fuel) 4095 s
        = match each [0; 1; 2; 3; 4; 5; 6; 7] (r_bit 4095 (ord ctl))
                  (r_advance 1 s) with
          | Next s' => r_while fuel 4095 s'
          | stop => Some stop
          end)
  (* literals *)
  /\ (forall ctl bit s b rest,
        co_ok s -> 0 <= bit -> Z.testbit ctl bit = true ->
        co_input s = b :: rest ->
        exists s',
          co_bit 4095 ctl bit s = Next s' /\
          co_input s' = rest /\
          co_buffer s' = co_buffer s ++ [b] /\
          co_frame s'
          = replace_at (co_frame s) (window_index (co_frame_pos s)) b /\
          co_frame_pos s' = co_frame_pos s + 1)
  /\ (forall ctl bit s b rest,
        r_ok s -> 0 <= bit -> Z.testbit ctl bit = true ->
        r_dst s < len (r_output s) -> r_remaining s <> 0 ->
        r_input s = b :: rest ->
        exists s',
          r_bit 4095 ctl bit s = Next s' /\
          r_input s' = rest /\
          r_output s' = replace_at (r_output s) (Z.to_nat (r_dst s)) b /\
          r_dst s' = r_dst s + 1 /\
          r_frame s'
          = replace_at (r_frame s) (window_index (r_frame_pos s)) b /\
          r_frame_pos s' = (r_frame_pos s + 1) mod 4096)
  (* matches *)
  /\ (forall lo hi,
        match_offset lo hi
        = Z.lor (Z.shiftl (Z.land (ord hi) 0xF0) 4) (ord lo) /\
        0 <= match_offset lo hi < 4096 /\
        Z.of_nat (match_length hi) = 3 + Z.land (ord hi) 0x0F /\
        (3 <= match_length hi <= 18)%nat)
  /\ (forall ctl bit s lo hi rest,
        co_ok s -> 0 <= bit -> Z.testbit ctl bit = false ->
        co_input s = lo :: hi :: rest ->
        exists s',
          co_bit 4095 ctl bit s = Next s' /\
          co_input s' = rest /\
          co_buffer s'
          = co_buffer s
            ++ fst (window_copy (match_length hi) (co_frame s)
                      (co_frame_pos s) (match_offset lo hi)) /\
          co_frame s'
          = snd (window_copy (match_length hi) (co_frame s)
                   (co_frame_pos s) (match_offset lo hi)) /\
          co_frame_pos s' = co_frame_pos s + Z.of_nat (match_length hi))
  /\ (forall ctl bit s lo hi rest,
        r_ok s -> 0 <= bit -> Z.testbit ctl bit = false ->
        r_dst s + Z.of_nat (match_length hi) <= len (r_output s) ->
        2 <= r_remaining s ->
        r_input s = lo :: hi :: rest ->
        exists s',
          r_bit 4095 ctl bit s = Next s' /\
          r_input s' = rest /\
          r_output s'
          = firstn (Z.to_nat (r_dst s)) (r_output s)
            ++ fst (window_copy (match_length hi) (r_frame s)
                      (r_frame_pos s) (match_offset lo hi))
            ++ skipn (Z.to_nat (r_dst s) + match_length hi) (r_output s) /\
          r_dst s' = r_dst s + Z.of_nat (match_length hi) /\
          r_frame s'
          = snd (window_copy (match_length hi) (r_frame s)
                   (r_frame_pos s) (match_offset lo hi)))
  (* a match copies byte by byte, through the window *)
  /\ (forall n frame cursor offset,
        length (fst (window_copy n frame cursor offset)) = n /\
        window_copy (S n) frame cursor offset
        = (let v := nth (window_index offset) frame x00 in
           let rest := window_copy n (replace_at frame (window_index cursor) v)
                         (cursor + 1) (offset + 1) in
           (v :: fst rest, snd rest)))
  /\ (forall n frame cursor b,
        length frame = 4096%nat ->
        nth (window_index (cursor - 1)) frame x00 = b ->
        fst (window_copy n frame cursor (cursor - 1)) = repeat b n)
  (* three literals, then a match of length 5 at position 0 *)
  /\ (forall a b c,
        (exists s,
            co_unpack default_settings [x07; a; b; c; x00; x02] 0
            = Some (Return s) /\
            co_buffer s = [a; b; c; x00; x00; x00; x00; x00])
        /\ (exists r s,
               LzssReader [x07; a; b; c; x00; x02] 6 8 = Ok r /\
               r_unpack r = Some (Return s) /\
               r_output s = [a; b; c; x00; x00; x00; x00; x00])).
Proof.
  split; [intros; split; reflexivity|].
  split.
  { intros stream il ol r. unfold LzssReader.
    destruct (ol <? 0); [discriminate|]. intros [= <-]. split; reflexivity. }
  split.
  { intros fuel s ctl rest Hi. cbn [co_while]. unfold co_read.
    rewrite Hi. reflexivity. }
  split.
  { intros fuel s ctl rest Hrem Hi. cbn [co_while r_while].
    destruct (r_remaining s >? 0) eqn:E; [|lia].
    unfold r_advance. cbn [r_take snd]. rewrite Hi. reflexivity. }
  split; [exact co_bit_literal|].
  split; [exact r_bit_literal|].
  split.
  { intros lo hi. split; [reflexivity|].
    split; [apply match_offset_range|].
    pose proof (match_length_range hi) as H.
    split; [|exact H]. unfold match_length in *. 
    destruct (Z.le_gt_cases 0 (3 + Z.land (ord hi) 15)); [|lia].
    apply Z2Nat.id. assumption. }
  split; [exact co_bit_match|].
  split; [exact r_bit_match|].
  split.
  { intros n frame cursor offset. split; [apply window_copy_length|].
    cbn [window_copy]. destruct (window_copy n _ _ _). reflexivity. }
  split; [exact window_copy_run|].
  intros a b c. split.
  - eexists. split; [vm_compute; reflexivity|reflexivity].
  - eexists. eexists. split; [reflexivity|].
    split; [vm_compute; reflexivity|reflexivity].
Qed.

Lemma sliding_window_decoding_witness :
  (exists s',
      co_bit 4095 1 0 (co_start default_settings [x41] 0) = Next s' /\
      co_input s' = [] /\
      co_buffer s' = [x41] /\
      co_frame_pos s' = 0xFEF)
  /\ fst (window_copy 5 (replace_at (repeat x00 4096) 0xFEE x41) 0xFEF 0xFEE)
     = repeat x41 5.
Proof.
  destruct sliding_window_decoding
    as (_ & _ & _ & _ & Hlit & _ & _ & _ & _ & _ & Hrun & _).
  split.
  - destruct (Hlit 1 0 (co_start default_settings [x41] 0) x41 [])
      as (s' & H1 & H2 & H3 & _ & H5).
    + vm_compute. reflexivity.
    + lia.
    + reflexivity.
    + reflexivity.
    + exists s'. repeat split; assumption.
  - apply (Hrun 5%nat (replace_at (repeat x00 4096) 0xFEE x41) 0xFEF x41).
    + vm_compute. reflexivity.
    + vm_compute. reflexivity.
Defined.

Lemma skipn_of_repeat {A} (a : A) (n k : nat) :
  skipn k (repeat a n) = repeat a (n - k).
Proof.
  revert k. induction n as [|n IH]; intros k.
  - destruct k; reflexivity.
  - destruct k as [|k]; [reflexivity|]. cbn [repeat skipn]. apply IH.
Qed.

(* ================================================================== *)
(** ** Where decoding stops *)
(* ================================================================== *)

(** C8.  [LzssReader.unpack] always ends; it never raises from a store to
    its output buffer or its window, the buffer keeps the requested size,
    the write position ends inside it and the bytes from the write
    position on are still the zeros of the fresh buffer; it stops inside a
    control-byte group and inside a match as soon as the buffer is full,
    with input left unread.  [LzssCoroutine.unpack] always ends by
    returning, with all its input read; what it has produced from an input
    is an initial part of what it produces from any longer input. *)
Theorem decoders_stop_in_bounds :
  (forall stream input_length output_length,
      0 <= output_length ->
      exists r f,
        LzssReader stream input_length output_length = Ok r /\
        r_unpack r = Some f /\
        ~ bytearray_error f /\
        len (r_output (final f)) = output_length /\
        0 <= r_dst (final f) <= output_length /\
        skipn (Z.to_nat (r_dst (final f))) (r_output (final f))
        = repeat x00 (Z.to_nat (output_length - r_dst (final f))))
  /\ (forall a b c d,
        exists r s,
          LzssReader [x0f; a; b; c; d] 5 2 = Ok r /\
          r_unpack r = Some (Return s) /\
          r_output s = [a; b] /\ r_dst s = 2 /\ r_input s = [c; d])
  /\ (forall c,
        exists r s,
          LzssReader [x00; x00; x0f; c] 4 2 = Ok r /\
          r_unpack r = Some (Return s) /\
          r_output s = [x00; x00] /\ r_dst s = 2 /\ r_input s = [c])
  /\ (forall input n,
        exists s,
          co_unpack default_settings input n = Some (Return s) /\
          co_input s = [])
  /\ (forall input extra n,
        exists s1 s2,
          co_unpack default_settings input n = Some (Return s1) /\
          co_unpack default_settings (input ++ extra) n = Some (Return s2) /\
          prefix (co_buffer s1) (co_buffer s2))
  /\ (forall a b lo,
        (exists s,
            co_unpack default_settings [] 0 = Some (Return s) /\
            co_buffer s = [])
        /\ (exists s,
               co_unpack default_settings [x03; a] 0 = Some (Return s) /\
               co_buffer s = [a])
        /\ (exists s,
               co_unpack default_settings [x03; a; b; lo] 0
               = Some (Return s) /\
               co_buffer s = [a; b])).
Proof.
  split.
  { intros stream il ol Hol.
    destruct (r_unpack_good stream il ol Hol)
      as (r & f & Hr & Hf & Hok & Hext & Hne).
    exists r, f. split; [exact Hr|]. split; [exact Hf|]. split; [exact Hne|].
    destruct Hext as (Hlen & Hdst & _ & Hskip & _).
    destruct Hok as (_ & _ & Hd).
    unfold LzssReader in Hr. destruct (ol <? 0); [discriminate|].
    injection Hr as <-.
    cbn [r_start r_output rd_output r_dst] in Hlen, Hdst, Hskip.
    rewrite repeat_length in Hlen.
    assert (Hl : len (r_output (final f)) = ol) by (unfold len; lia).
    split; [exact Hl|]. split; [lia|].
    rewrite Hskip, skipn_of_repeat. f_equal. lia. }
  split.
  { intros a b c d. eexists. eexists. split; [reflexivity|].
    split; [vm_compute; reflexivity|]. repeat split. }
  split.
  { intros c. eexists. eexists. split; [reflexivity|].
    split; [vm_compute; reflexivity|]. repeat split. }
  split.
  { exact co_unpack_returns. }
  split; [exact co_unpack_prefix|].
  intros a b lo.
  split; [|split];
    (eexists; split; [vm_compute; reflexivity|reflexivity]).
Qed.

Lemma decoders_stop_in_bounds_witness :
  exists r f,
    LzssReader [x07; x41; x42; x43; x00; x02; xff; xff] 6 5 = Ok r /\
    r_unpack r = Some f /\
    ~ bytearray_error f /\
    len (r_output (final f)) = 5 /\
    0 <= r_dst (final f) <= 5.
Proof.
  destruct decoders_stop_in_bounds as (H & _).
  destruct (H [x07; x41; x42; x43; x00; x02; xff; xff] 6 5 ltac:(lia))
    as (r & f & H1 & H2 & H3 & H4 & H5 & _).
  exists r, f. repeat split; assumption || apply H5.
Defined.

(* ================================================================== *)
(** ** Parsing the index *)
(* ================================================================== *)

Lemma slice_app_mid {A} (pre mid post : list A) (o n : Z) :
  0 <= o -> 0 <= n -> o + n <= len mid ->
  slice (pre ++ mid ++ post) (len pre + o) (len pre + o + n)
  = slice mid o (o + n).
Proof.
  intros Ho Hn Hm. unfold len in *.
  rewrite !slice_inside by (unfold len; rewrite ?length_app; lia).
  replace (Z.to_nat (Z.of_nat (length pre) + o))
    with (length pre + Z.to_nat o)%nat by lia.
  rewrite skipn_app, skipn_all2 by lia.
  replace (length pre + Z.to_nat o - length pre)%nat with (Z.to_nat o) by lia.
  cbn [app]. rewrite skipn_app.
  rewrite firstn_app, length_skipn.
  replace (Z.to_nat (Z.of_nat (length pre) + o + n
                     - (Z.of_nat (length pre) + o)))
    with (Z.to_nat (o + n - o)) by lia.
  replace (Z.to_nat (o + n - o) - (length mid - Z.to_nat o))%nat
    with 0%nat by lia.
  cbn [firstn]. apply app_nil_r.
Qed.

Lemma unpack_from_app_mid (size : nat) (pre mid post : list byte) (o : Z) :
  0 <= o -> o + Z.of_nat size <= len mid ->
  unpack_from size (pre ++ mid ++ post) (len pre + o)
  = Ok (slot_field mid o (Z.of_nat size)).
Proof.
  intros Ho Hm. unfold len in *.
  rewrite unpack_from_inside by (unfold len; rewrite ?length_app; lia).
  unfold slot_field. f_equal. f_equal.
  apply slice_app_mid; unfold len; lia.
Qed.

Lemma decrypt_app_mid (pre mid post routine : list byte) :
  decrypt (pre ++ mid ++ post) (len pre) (len mid) routine
  = (data <- decrypt_data mid routine ;; Ok (pre ++ data ++ post)).
Proof.
  unfold decrypt.
  replace (slice (pre ++ mid ++ post) (len pre) (len pre + len mid)) with mid.
  - destruct (decrypt_data mid routine) as [data|e]; [|reflexivity].
    cbn [bind]. f_equal.
    rewrite !clamp_inside by (unfold len; rewrite !length_app; lia).
    unfold len. rewrite <- Nat2Z.inj_add, !Nat2Z.id.
    rewrite firstn_app, firstn_all, Nat.sub_diag.
    cbn [firstn]. rewrite app_nil_r. do 2 f_equal.
    rewrite Nat.max_r by lia.
    rewrite skipn_app, skipn_all2 by lia.
    replace (length pre + length mid - length pre)%nat with (length mid) by lia.
    cbn [app]. rewrite skipn_app, skipn_all, Nat.sub_diag. reflexivity.
  - symmetry.
    replace (len pre) with (len pre + 0) at 1 by lia.
    replace (len pre + len mid) with (len pre + 0 + len mid) by lia.
    rewrite slice_app_mid by (unfold len; lia).
    rewrite slice_inside by (unfold len; lia).
    cbn [skipn]. replace (Z.to_nat (0 + len mid - 0)) with (length mid)
      by (unfold len; lia).
    apply firstn_all.
Qed.

Lemma read_entry_app_mid (pre slot post : list byte) :
  len slot = 0x60 ->
  exists e,
    read_entry (pre ++ slot ++ post) (len pre) = Ok e /\
    entry_of_slot e slot.
Proof.
  intros Hs. unfold read_entry.
  rewrite (unpack_from_app_mid 2 pre slot post 0x40) by lia.
  rewrite (unpack_from_app_mid 2 pre slot post 0x42) by lia.
  rewrite (unpack_from_app_mid 4 pre slot post 0x48) by lia.
  rewrite (unpack_from_app_mid 4 pre slot post 0x4C) by lia.
  rewrite (unpack_from_app_mid 4 pre slot post 0x50) by lia.
  rewrite (unpack_from_app_mid 4 pre slot post 0x54) by lia.
  cbn [bind]. eexists. split; [reflexivity|].
  unfold entry_of_slot.
  cbn [lzss_frame_size lzss_init_pos sub_type size unpacked_size offset
       is_packed].
  change (Z.of_nat 2) with 2. change (Z.of_nat 4) with 4.
  destruct (slot_field slot 64 2 =? 0); repeat split.
Qed.

Lemma raw_slot_0 (slot rest : list byte) :
  length slot = 96%nat -> raw_slot (slot ++ rest) 0 = slot.
Proof.
  intros H. unfold raw_slot.
  rewrite slice_inside by (unfold len; rewrite ?length_app; lia).
  replace (Z.to_nat (96 * Z.of_nat 0)) with 0%nat by lia.
  replace (Z.to_nat (96 * Z.of_nat 0 + 96 - 96 * Z.of_nat 0)) with 96%nat
    by lia.
  cbn [skipn].
  rewrite firstn_app, firstn_all2 by lia.
  replace (96 - length slot)%nat with 0%nat by lia.
  cbn [firstn]. apply app_nil_r.
Qed.

Lemma raw_slot_S (slot rest : list byte) (j : nat) :
  length slot = 96%nat -> (96 * S j <= length rest)%nat ->
  raw_slot (slot ++ rest) (S j) = raw_slot rest j.
Proof.
  intros H Hj. unfold raw_slot.
  rewrite <- (app_nil_r rest) at 1.
  replace (96 * Z.of_nat (S j)) with (len slot + 96 * Z.of_nat j)
    by (unfold len; lia).
  apply slice_app_mid; unfold len; lia.
Qed.

Lemma parse_loop (routine : list byte) {A} (l : list A) :
  length routine = 40%nat ->
  forall (k : nat) (pre rest : list byte) (es : list EmEntry),
    length pre = (96 * k)%nat ->
    length rest = (96 * length l)%nat ->
    exists buf' new,
      each l (fun _ => parse_slot routine) (pre ++ rest, 96 * Z.of_nat k, es)
      = Next (buf', 96 * Z.of_nat (k + length l), es ++ new) /\
      length new = length l /\
      forall i, (i < length l)%nat ->
        exists slot e,
          nth_error new i = Some e /\
          decrypt_data (raw_slot rest i) routine = Ok slot /\
          entry_of_slot e slot.
Proof.
  intros Hr. induction l as [|x l IH]; intros k pre rest es Hpre Hrest.
  - exists (pre ++ rest), []. cbn [each length].
    rewrite Nat.add_0_r, app_nil_r.
    split; [reflexivity|]. split; [reflexivity|]. intros i Hi. lia.
  - cbn [length] in Hrest.
    rewrite <- (firstn_skipn 96 rest) in *.
    set (slot := firstn 96 rest) in *. set (rest' := skipn 96 rest) in *.
    assert (Hslot : length slot = 96%nat)
      by (unfold slot; rewrite length_firstn; rewrite length_app in Hrest;
          unfold slot, rest' in Hrest;
          rewrite length_firstn, length_skipn in Hrest; lia).
    assert (Hrest' : length rest' = (96 * length l)%nat)
      by (rewrite length_app in Hrest; lia).
    cbn [each]. unfold parse_slot at 1.
    replace (96 * Z.of_nat k) with (len pre) by (unfold len; lia).
    replace (decrypt (pre ++ slot ++ rest') (len pre) 96 routine)
      with (decrypt (pre ++ slot ++ rest') (len pre) (len slot) routine)
      by (unfold len; rewrite Hslot; reflexivity).
    rewrite decrypt_app_mid.
    destruct (decrypt_data_total slot routine Hr) as (d & Hd & Hdl).
    { unfold len. rewrite Hslot. reflexivity. }
    rewrite Hd. cbn [bind lift].
    destruct (read_entry_app_mid pre d rest') as (e & He & Hes).
    { unfold len. rewrite Hdl, Hslot. reflexivity. }
    rewrite He. cbn [lift].
    rewrite app_assoc.
    destruct (IH (S k) (pre ++ d) rest' (es ++ [e])) as (buf' & new & Hrun & Hlen & Hall).
    { rewrite length_app. lia. }
    { exact Hrest'. }
    exists buf', (e :: new).
    replace (len pre + 96) with (96 * Z.of_nat (S k)) by (unfold len; lia).
    rewrite Hrun. split.
    { f_equal. f_equal; [f_equal; cbn [length]; lia|].
      rewrite <- app_assoc. reflexivity. }
    split; [cbn [length]; lia|].
    intros [|j] Hj.
    + exists d, e. split; [reflexivity|].
      rewrite raw_slot_0 by exact Hslot. split; assumption.
    + destruct (Hall j ltac:(cbn [length] in Hj; lia)) as (s' & e' & H1 & H2 & H3).
      exists s', e'. split; [exact H1|].
      rewrite raw_slot_S; [split; assumption|exact Hslot|].
      cbn [length] in Hj. lia.
Qed.

Lemma range_length (n : Z) : length (range n) = Z.to_nat n.
Proof. unfold range. rewrite length_map, length_seq. reflexivity. Qed.

Lemma f_read_ok (content : list byte) (pos n : Z) :
  -1 <= n -> f_read content pos n = Ok (read_at content pos n).
Proof.
  intros H. unfold f_read.
  destruct (Z.ltb_spec n (- 2 ^ 63)); [lia|].
  destruct (Z.ltb_spec n (-1)); [lia|]. reflexivity.
Qed.

Lemma read_at_slice (content : list byte) (pos n : Z) :
  0 <= pos -> 0 <= n -> pos + n <= len content ->
  fst (read_at content pos n) = slice content pos (pos + n) /\
  len (fst (read_at content pos n)) = n.
Proof.
  intros Hp Hn Hl. unfold read_at. cbn [fst].
  destruct (n <? 0) eqn:E; [lia|].
  rewrite slice_inside by lia.
  replace (Z.to_nat (pos + n - pos)) with (Z.to_nat n) by lia.
  split; [reflexivity|].
  unfold len in *. rewrite length_firstn, length_skipn. lia.
Qed.

(** In [open] no read raises: the counts are 4, 40 and the size of the
    index table, none of them negative. *)
Lemma open_reads (self : EmeArchive) (content : list byte) :
  open self (Some content)
  = (let '(magic, pos) := read_at content 0 4 in
     if negb (bytes_eqb magic SIGNATURE) then (false, self) else
     let '(magic, pos) := read_at content pos 4 in
     if negb (bytes_eqb magic SIGNATURE2) then (false, self) else
     let file_size := len content in
     match f_seek (file_size - 4) with
     | Raise _ => (false, self)
     | Ok pos =>
     let '(data, pos) := read_at content pos 4 in
     match unpack 4 data with
     | Raise _ => (false, self)
     | Ok entry_count =>
     if entry_count >? 10000 then (false, self) else
     let index_size := entry_count * 0x60 in
     let index_offset := file_size - 4 - index_size in
     match f_seek (index_offset - 40) with
     | Raise _ => (false, self)
     | Ok pos =>
     let '(routine, pos) := read_at content pos 40 in
     let self := with_key self routine in
     match f_seek index_offset with
     | Raise _ => (false, self)
     | Ok pos =>
     let '(index_data, pos) := read_at content pos index_size in
     match each (range entry_count) (fun _ => parse_slot routine)
             (index_data, 0, entries self) with
     | Next (_, _, es) => (true, with_entries self es)
     | Return (_, _, es) => (false, with_entries self es)
     | Throw _ (_, _, es) => (false, with_entries self es)
     end end end end end).
Proof.
  unfold open.
  rewrite (f_read_ok content 0 4) by lia.
  destruct (read_at content 0 4) as [magic pos0].
  destruct (negb (bytes_eqb magic SIGNATURE)); [reflexivity|].
  rewrite (f_read_ok content pos0 4) by lia.
  destruct (read_at content pos0 4) as [magic2 pos1].
  destruct (negb (bytes_eqb magic2 SIGNATURE2)); [reflexivity|].
  cbv zeta.
  destruct (f_seek (len content - 4)) as [p1|]; [|reflexivity].
  rewrite (f_read_ok content p1 4) by lia.
  destruct (read_at content p1 4) as [data p2].
  unfold unpack.
  destruct (Nat.eqb (length data) 4); [|reflexivity].
  pose proof (le_decode_range data) as Hn.
  destruct (le_decode data >? 10000); [reflexivity|].
  destruct (f_seek (len content - 4 - le_decode data * 96 - 40)) as [p3|];
    [|reflexivity].
  rewrite (f_read_ok content p3 40) by lia.
  destruct (read_at content p3 40) as [routine p4].
  destruct (f_seek (len content - 4 - le_decode data * 96)) as [p5|];
    [|reflexivity].
  rewrite (f_read_ok content p5 (le_decode data * 96)) by lia.
  reflexivity.
Qed.

(** What [open] leaves behind.  When it fails, [self.entries] is as it
    was.  When it succeeds, the key is the key material of the file and
    one entry has been appended per slot of the index table, each holding
    the fields of its decrypted slot. *)
Lemma open_outcome (self : EmeArchive) (content : list byte) :
  match open self (Some content) with
  | (false, self') => entries self' = entries self
  | (true, self') =>
      key self' = Some (key_material content) /\
      exists new,
        entries self' = entries self ++ new /\
        length new = Z.to_nat (entry_count_of content) /\
        forall i, (i < length new)%nat ->
          exists slot e,
            nth_error new i = Some e /\
            decrypt_data (raw_slot (index_table content) i)
              (key_material content) = Ok slot /\
            entry_of_slot e slot
  end.
Proof.
  rewrite open_reads.
  destruct (read_at content 0 4) as [magic pos0].
  destruct (negb (bytes_eqb magic SIGNATURE)); [reflexivity|].
  destruct (read_at content pos0 4) as [magic2 pos1].
  destruct (negb (bytes_eqb magic2 SIGNATURE2)); [reflexivity|].
  cbv zeta. unfold f_seek at 1.
  destruct (len content - 4 <? 0) eqn:E4; [reflexivity|].
  destruct (read_at_slice content (len content - 4) 4) as (Hcnt & Hcntl);
    try lia.
  destruct (read_at content (len content - 4) 4) as [data pos2].
  cbn [fst] in Hcnt, Hcntl.
  unfold unpack.
  replace (Nat.eqb (length data) 4) with true
    by (symmetry; apply Nat.eqb_eq; unfold len in Hcntl; lia).
  assert (Hec : le_decode data = entry_count_of content).
  { unfold entry_count_of. rewrite Hcnt. do 2 f_equal. lia. }
  rewrite Hec.
  pose proof (le_decode_range data) as Hrange. rewrite Hec in Hrange.
  set (n := entry_count_of content) in *.
  destruct (n >? 10000) eqn:Ebig; [reflexivity|].
  unfold f_seek at 1.
  destruct (len content - 4 - n * 96 - 40 <? 0) eqn:Ekey; [reflexivity|].
  assert (Hio : index_offset_of content = len content - 4 - n * 96)
    by reflexivity.
  destruct (read_at_slice content (len content - 4 - n * 96 - 40) 40)
    as (Hk & Hkl); try lia.
  destruct (read_at content (len content - 4 - n * 96 - 40) 40)
    as [routine pos3].
  cbn [fst] in Hk, Hkl.
  assert (Hkm : routine = key_material content).
  { unfold key_material. rewrite Hio, Hk. f_equal. lia. }
  unfold f_seek.
  destruct (len content - 4 - n * 96 <? 0) eqn:Eidx; [lia|].
  destruct (read_at_slice content (len content - 4 - n * 96) (n * 96))
    as (Hi & Hil); try lia.
  destruct (read_at content (len content - 4 - n * 96) (n * 96))
    as [index_data pos4].
  cbn [fst] in Hi, Hil.
  assert (Hit : index_data = index_table content).
  { unfold index_table. rewrite Hio, Hi. f_equal. lia. }
  destruct (parse_loop routine (range n)
              ltac:(unfold len in Hkl; lia) 0 [] index_data
              (entries (with_key self routine)) eq_refl)
    as (buf' & new & Hrun & Hlen & Hall).
  { rewrite range_length. unfold len in Hil. lia. }
  cbn [app Z.of_nat Z.mul] in Hrun. rewrite Hrun.
  cbn [with_entries with_key key entries] in *.
  split; [rewrite Hkm; reflexivity|].
  exists new. split; [reflexivity|].
  rewrite range_length in Hlen. split; [exact Hlen|].
  intros i Hi'. rewrite <- Hit, <- Hkm.
  apply Hall. rewrite range_length. lia.
Qed.

(* ================================================================== *)
(** ** The catalog after [open] *)
(* ================================================================== *)

Lemma open_failure_keeps_entries (self self' : EmeArchive)
    (disk : option (list byte)) :
  open self disk = (false, self') -> entries self' = entries self.
Proof.
  destruct disk as [content|].
  - pose proof (open_outcome self content) as H.
    intros E. rewrite E in H. exact H.
  - intros [= <-]. reflexivity.
Qed.

(** C4.  When [open] fails on a newly made archive, whatever the reason,
    the archive has no entries.  Once the index table has been read, the
    parsing loop cannot fail: every slot decrypts and parses, so there is
    no failure partway through the slots. *)
Theorem failed_open_leaves_no_entries :
  (forall disk self',
      open new_archive disk = (false, self') -> entries self' = [])
  /\ (forall routine index_data n es,
        length routine = 40%nat -> 0 <= n -> len index_data = 0x60 * n ->
        exists index_data' es',
          each (range n) (fun _ => parse_slot routine) (index_data, 0, es)
          = Next (index_data', 0x60 * n, es')).
Proof.
  split.
  - intros disk self' H.
    exact (open_failure_keeps_entries new_archive self' disk H).
  - intros routine index_data n es Hr Hn Hlen.
    destruct (parse_loop routine (range n) Hr 0 [] index_data es eq_refl)
      as (buf' & new & Hrun & _).
    { rewrite range_length. unfold len in Hlen. lia. }
    exists buf', (es ++ new). cbn [app] in Hrun.
    change (96 * Z.of_nat 0) with 0 in Hrun. rewrite Hrun.
    rewrite range_length. do 3 f_equal. lia.
Qed.

Lemma failed_open_leaves_no_entries_witness :
  open new_archive (Some oversized_container)
  = (false, new_archive)
  /\ entries (snd (open new_archive (Some oversized_container))) = [].
Proof.
  split; [vm_compute; reflexivity|].
  apply (proj1 failed_open_leaves_no_entries (Some oversized_container)).
  vm_compute. reflexivity.
Defined.

(** C9.  Every entry that [open] produces carries, for the slot it was
    parsed from: a window start position equal to
    [(frameSize - rawInitPos) mod frameSize] whenever the window size is
    not 0, where [frameSize] and [rawInitPos] are the 16-bit values at
    offsets 0x40 and 0x42 of the decrypted slot; and a compression flag
    equal to [rawSize <> storedSize], for the 32-bit values at offsets
    0x50 and 0x4C. *)
Theorem entry_derived_fields (content : list byte) (self' : EmeArchive)
    (i : nat) (e : EmEntry) :
  open new_archive (Some content) = (true, self') ->
  nth_error (entries self') i = Some e ->
  exists slot,
    decrypt_data (raw_slot (index_table content) i) (key_material content)
    = Ok slot /\
    lzss_frame_size e = slot_field slot 0x40 2 /\
    (lzss_frame_size e <> 0 ->
     lzss_init_pos e
     = (lzss_frame_size e - slot_field slot 0x42 2) mod lzss_frame_size e) /\
    size e = slot_field slot 0x4C 4 /\
    unpacked_size e = slot_field slot 0x50 4 /\
    is_packed e = negb (unpacked_size e =? size e).
Proof.
  intros Hopen He.
  pose proof (open_outcome new_archive content) as H.
  rewrite Hopen in H. destruct H as (_ & new & Hent & Hlen & Hall).
  cbn [new_archive entries app] in Hent. rewrite Hent in He.
  destruct (Hall i) as (slot & e' & He' & Hdec & Hf & Hp & _ & Hs & Hu & _ & Hk).
  { apply nth_error_Some. rewrite He. discriminate. }
  rewrite He in He'. injection He' as <-.
  exists slot. split; [exact Hdec|]. split; [exact Hf|].
  split; [|split; [exact Hs|split; [exact Hu|exact Hk]]].
  intros Hnz. rewrite Hp.
  destruct (Z.eqb_spec (lzss_frame_size e) 0); [contradiction|reflexivity].
Qed.

Lemma entry_derived_fields_witness :
  open new_archive (Some example_container)
  = (true, {| key := Some (repeat x00 40); entries := [example_entry] |})
  /\ exists slot,
       decrypt_data (raw_slot (index_table example_container) 0)
         (key_material example_container) = Ok slot /\
       lzss_frame_size example_entry = slot_field slot 0x40 2 /\
       (lzss_frame_size example_entry <> 0 ->
        lzss_init_pos example_entry
        = (lzss_frame_size example_entry - slot_field slot 0x42 2)
            mod lzss_frame_size example_entry) /\
       size example_entry = slot_field slot 0x4C 4 /\
       unpacked_size example_entry = slot_field slot 0x50 4 /\
       is_packed example_entry
       = negb (unpacked_size example_entry =? size example_entry).
Proof.
  split; [vm_compute; reflexivity|].
  apply (entry_derived_fields example_container
           {| key := Some (repeat x00 40); entries := [example_entry] |}
           0 example_entry).
  - vm_compute. reflexivity.
  - reflexivity.
Defined.

(* ================================================================== *)
(** ** Split script records *)
(* ================================================================== *)

Lemma slice_0 {A} (l : list A) (n : Z) :
  0 <= n -> slice l 0 n = firstn (Z.to_nat n) l.
Proof.
  intros Hn. unfold slice.
  rewrite (clamp_inside (len l) 0) by (unfold len; lia).
  change (Z.to_nat 0) with 0%nat. cbn [skipn]. rewrite Nat.sub_0_r.
  destruct (Z.le_gt_cases n (len l)) as [H|H].
  - rewrite clamp_inside by lia. reflexivity.
  - unfold clamp. destruct (n <? 0) eqn:E; [lia|].
    rewrite Z.min_r by lia. unfold len in *. rewrite Nat2Z.id.
    rewrite !firstn_all2 by lia. reflexivity.
Qed.

Lemma decrypt_header (header routine : list byte) :
  length routine = 40%nat -> len header = 12 ->
  exists header',
    decrypt header 0 12 routine = Ok header' /\
    decrypt_data header routine = Ok header' /\
    len header' = 12.
Proof.
  intros Hr Hh.
  destruct (decrypt_data_total header routine Hr) as (d & Hd & Hl).
  { rewrite Hh. reflexivity. }
  exists d. split; [|split; [exact Hd|unfold len in *; lia]].
  pose proof (decrypt_app_mid [] header [] routine) as H.
  cbn [app] in H. rewrite app_nil_r in H.
  change (len []) with 0 in H. rewrite Hh in H.
  rewrite H, Hd. cbn [bind]. rewrite app_nil_r. reflexivity.
Qed.

(** C2, as amended.  For a script record with a window size other than 0
    whose 12-byte header lies inside the file: with [U] the 32-bit value
    at offset 4 of the decrypted header and [P] the one at offset 0, if
    [0 < U < rawSize] and [P <= storedSize], the output is the first
    [rawSize - U] bytes of the decompressed tail followed by the whole
    decompressed head, where the head is the [P] stored bytes after the
    header and the tail the [storedSize - P] stored bytes after the head.
    With [U = 10], [rawSize = 30] and at least 20 bytes in the
    decompressed tail, the output is [segment2[0:20] + segment1] and has
    [20 + len(segment1)] bytes.  If [P > storedSize + 1], the read of the
    tail is asked for fewer than -1 bytes and raises [ValueError], before
    any call of the decompressor; nothing is written. *)
Theorem split_script_output {Aux : Type}
    (decompress : list byte -> result (list byte * Aux))
    (routine content : list byte) (entry : EmEntry) :
  length routine = 40%nat ->
  0 <= offset entry -> offset entry + 12 <= len content ->
  lzss_frame_size entry <> 0 ->
  exists header,
    decrypt_data (slice content (offset entry) (offset entry + 12)) routine
    = Ok header /\
    (forall segment2 a2 segment1 a1,
       0 < slot_field header 4 4 < unpacked_size entry ->
       slot_field header 0 4 <= size entry ->
       decompress (script_tail content entry (slot_field header 0 4))
       = Ok (segment2, a2) ->
       decompress (script_head content entry (slot_field header 0 4))
       = Ok (segment1, a1) ->
       _extract_script decompress routine content entry
       = Ok (firstn (Z.to_nat (unpacked_size entry - slot_field header 4 4))
               segment2 ++ segment1)
       /\ (offset entry + 12 + size entry <= len content ->
           script_head content entry (slot_field header 0 4)
           = slice content (offset entry + 12)
               (offset entry + 12 + slot_field header 0 4) /\
           script_tail content entry (slot_field header 0 4)
           = slice content (offset entry + 12 + slot_field header 0 4)
               (offset entry + 12 + size entry))
       /\ (slot_field header 4 4 = 10 -> unpacked_size entry = 30 ->
           20 <= len segment2 ->
           _extract_script decompress routine content entry
           = Ok (firstn 20 segment2 ++ segment1) /\
           len (firstn 20 segment2 ++ segment1) = 20 + len segment1))
    /\ (0 < slot_field header 4 4 < unpacked_size entry ->
        0 <= size entry ->
        size entry + 1 < slot_field header 0 4 ->
        _extract_script decompress routine content entry
        = Raise ValueError).
Proof.
  intros Hr Hoff Hfile Hframe.
  destruct (read_at_slice content (offset entry) 12 Hoff ltac:(lia) Hfile)
    as (Hrd & Hrdl).
  destruct (decrypt_header (fst (read_at content (offset entry) 12)) routine
              Hr Hrdl) as (header & Hdec & Hdd & Hhl).
  exists header. split; [rewrite <- Hrd; exact Hdd|].
  pose proof (le_decode_range (slice header 0 (0 + 4))) as HP.
  fold (slot_field header 0 4) in HP.
  assert (Hsplit :
            0 < slot_field header 4 4 < unpacked_size entry ->
            _extract_script decompress routine content entry
            = ('(compressed_part1, _) <-
                 f_read content (offset entry + 12 + slot_field header 0 4)
                   (size entry - slot_field header 0 4) ;;
               '(decompressed_part1, _) <- decompress compressed_part1 ;;
               '(compressed_part2, _) <-
                 f_read content (offset entry + 12) (slot_field header 0 4) ;;
               '(decompressed_part2, _) <- decompress compressed_part2 ;;
               Ok (slice decompressed_part1 0
                     (unpacked_size entry - slot_field header 4 4)
                   ++ decompressed_part2))).
  { intros HU. unfold _extract_script, f_seek.
    destruct (offset entry <? 0) eqn:E0; [lia|]. cbn [bind].
    rewrite f_read_ok by lia. cbn [bind].
    destruct (read_at content (offset entry) 12) as [raw pos] eqn:Eraw.
    cbn [fst] in Hdec. rewrite Hdec. cbn [bind].
    destruct (lzss_frame_size entry =? 0) eqn:Ef; [lia|].
    rewrite (unpack_from_inside 4 header 4) by lia.
    cbn [bind]. change (4 + Z.of_nat 4) with (4 + 4).
    fold (slot_field header 4 4).
    destruct (negb (slot_field header 4 4 =? 0)) eqn:E1;
      [|apply negb_false_iff in E1; lia].
    destruct (slot_field header 4 4 <? unpacked_size entry) eqn:E2; [|lia].
    cbn [andb].
    rewrite (unpack_from_inside 4 header 0) by lia.
    cbn [bind]. change (0 + Z.of_nat 4) with (0 + 4).
    fold (slot_field header 0 4).
    destruct (offset entry + 12 + slot_field header 0 4 <? 0) eqn:E3; [lia|].
    cbn [bind].
    destruct (f_read content (offset entry + 12 + slot_field header 0 4)
                (size entry - slot_field header 0 4)) as [[c1 p1]|e];
      cbn [bind]; [|reflexivity].
    destruct (decompress c1) as [[d1 x1]|e]; cbn [bind]; [|reflexivity].
    destruct (offset entry + 12 <? 0) eqn:E4; [lia|].
    cbn [bind]. reflexivity. }
  split.
  - intros segment2 a2 segment1 a1 HU HPs Htail Hhead.
    assert (Hout : _extract_script decompress routine content entry
                   = Ok (firstn (Z.to_nat (unpacked_size entry
                                           - slot_field header 4 4))
                           segment2 ++ segment1)).
    { rewrite (Hsplit HU). rewrite !f_read_ok by lia.
      unfold script_tail in Htail. unfold script_head in Hhead.
      cbn [bind].
      destruct (read_at content (offset entry + 12 + slot_field header 0 4)
                  (size entry - slot_field header 0 4)) as [c1 p1].
      cbn [fst] in Htail. rewrite Htail. cbn [bind].
      destruct (read_at content (offset entry + 12) (slot_field header 0 4))
        as [c2 p2].
      cbn [fst] in Hhead. rewrite Hhead. cbn [bind].
      rewrite slice_0 by lia. reflexivity. }
    split; [exact Hout|]. split.
    + intros Hend. unfold script_head, script_tail.
      destruct (read_at_slice content (offset entry + 12)
                  (slot_field header 0 4)) as (H1 & _); try lia.
      destruct (read_at_slice content
                  (offset entry + 12 + slot_field header 0 4)
                  (size entry - slot_field header 0 4)) as (H2 & _);
        try lia.
      rewrite H1, H2. split; [reflexivity|]. f_equal. lia.
    + intros HU10 Hraw Hseg. rewrite Hout, HU10, Hraw.
      change (Z.to_nat (30 - 10)) with 20%nat.
      split; [reflexivity|].
      unfold len in *. rewrite length_app, length_firstn. lia.
  - intros HU Hsize Hbig. rewrite (Hsplit HU). unfold f_read at 1.
    assert (HP32 : slot_field header 0 4 < 4294967296).
    { replace (length (slice header 0 (0 + 4))) with 4%nat in HP.
      - change (256 ^ Z.of_nat 4) with 4294967296 in HP. lia.
      - rewrite slice_0 by lia. rewrite length_firstn.
        change (Z.to_nat (0 + 4)) with 4%nat. unfold len in Hhl. lia. }
    destruct (Z.ltb_spec (size entry - slot_field header 0 4) (- 2 ^ 63));
      [lia|].
    destruct (Z.ltb_spec (size entry - slot_field header 0 4) (-1));
      [|lia].
    reflexivity.
Qed.

Lemma split_script_output_witness :
  _extract_script stored_decompress zero_key script_a entry_a
  = Ok ([x05; x06; x07; x08; x09; x0a; x0b; x0c; x0d; x0e;
         x0f; x10; x11; x12; x13; x14; x15; x16; x17; x18]
        ++ [x01; x02; x03; x04]).
Proof.
  destruct (split_script_output stored_decompress zero_key script_a entry_a)
    as (header & Hd & H & _).
  - reflexivity.
  - cbn. lia.
  - vm_compute. discriminate.
  - cbn. lia.
  - vm_compute in Hd. injection Hd as <-.
    destruct (H (skipn 16 script_a) tt (firstn 4 (skipn 12 script_a)) tt)
      as (Hout & _).
    + vm_compute. split; reflexivity.
    + vm_compute. discriminate.
    + reflexivity.
    + reflexivity.
    + rewrite Hout. reflexivity.
Defined.

(** C2, as stated, fails.  On [script_a] the first four bytes of the
    decrypted header hold 4, which lies between 0 and the raw size 30, yet
    the output is not the one obtained by reading them as the raw size of
    the head: the code takes that size from offset 4, where it finds 10.
    On [script_b] both readings give 10, the raw size is 30, the tail
    decodes to 21 bytes and the head to 12, and the output has 32 bytes,
    not 30. *)
Lemma split_script_counterexample :
  (decrypt (firstn 12 script_a) 0 12 zero_key = Ok (firstn 12 script_a) /\
   sub_type entry_a = 3 /\ lzss_frame_size entry_a <> 0 /\
   0 < slot_field (firstn 12 script_a) 0 4 < unpacked_size entry_a /\
   exists out claimed,
     _extract_script stored_decompress zero_key script_a entry_a = Ok out /\
     split_output_first_dword stored_decompress zero_key script_a entry_a
     = Ok claimed /\
     out <> claimed)
  /\ (decrypt (firstn 12 script_b) 0 12 zero_key = Ok (firstn 12 script_b) /\
      sub_type entry_b = 3 /\ lzss_frame_size entry_b <> 0 /\
      slot_field (firstn 12 script_b) 0 4 = 10 /\
      slot_field (firstn 12 script_b) 4 4 = 10 /\
      unpacked_size entry_b = 30 /\
      exists segment2 segment1 out,
        coroutine_decompress (script_tail script_b entry_b 10)
        = Ok (segment2, tt) /\
        coroutine_decompress (script_head script_b entry_b 10)
        = Ok (segment1, tt) /\
        20 <= len segment2 /\ 10 <= len segment1 /\
        _extract_script coroutine_decompress zero_key script_b entry_b
        = Ok out /\
        out = firstn 20 segment2 ++ segment1 /\
        len out <> 30).
Proof.
  split.
  - split; [vm_compute; reflexivity|].
    split; [reflexivity|]. split; [vm_compute; discriminate|].
    split; [vm_compute; split; reflexivity|].
    eexists. eexists.
    split; [vm_compute; reflexivity|].
    split; [vm_compute; reflexivity|].
    intros E. apply (f_equal (@length byte)) in E.
    vm_compute in E. discriminate E.
  - split; [vm_compute; reflexivity|].
    split; [reflexivity|]. split; [vm_compute; discriminate|].
    split; [vm_compute; reflexivity|].
    split; [vm_compute; reflexivity|].
    split; [reflexivity|].
    eexists. eexists. eexists.
    split; [vm_compute; reflexivity|].
    split; [vm_compute; reflexivity|].
    split; [vm_compute; discriminate|].
    split; [vm_compute; discriminate|].
    split; [vm_compute; reflexivity|].
    split; [vm_compute; reflexivity|].
    vm_compute. discriminate.
Qed.

(* ================================================================== *)
(** ** Running the script *)
(* ================================================================== *)

(** C1.  [lzss.py] binds neither [decompress] nor [LZSSError]; its
    definitions are the five classes [LzssMode], [LzssSettings],
    [LzssCoroutine], [LzssStream] and [LzssReader].  So line 8 of
    [EXEME.py] raises [ImportError] whatever the arguments and the files,
    before [main] runs and before any container is opened; and any module
    that does not bind [decompress] makes the run end the same way. *)
Theorem import_of_decompress_fails :
  lookup lzss "decompress" = None
  /\ lookup lzss "LZSSError" = None
  /\ skipn 4 (map fst lzss)
     = ["LzssMode"; "LzssSettings"; "LzssCoroutine"; "LzssStream";
        "LzssReader"]%string
  /\ (forall argv fs, run lzss argv fs = Raise (ImportError "decompress"))
  /\ (forall m argv fs,
        lookup m "decompress" = None ->
        run m argv fs = Raise (ImportError "decompress")).
Proof.
  split; [reflexivity|]. split; [reflexivity|]. split; [reflexivity|].
  split; [intros argv fs; reflexivity|].
  intros m argv fs H. unfold run. cbn [import_from]. rewrite H. reflexivity.
Qed.

Lemma import_of_decompress_fails_witness :
  run [("LzssReader", Class)]%string
    ["EXEME.py"; "game.eme"; "out"]%string
    (fun _ => Some example_container)
  = Raise (ImportError "decompress").
Proof.
  apply (proj2 (proj2 (proj2 (proj2 import_of_decompress_fails)))).
  reflexivity.
Defined.

(* ================================================================== *)
(** ** The stage cipher beyond whole words: lengths, locality, errors *)
(* ================================================================== *)

Lemma for_invariant {A S} (P : S -> Prop) (body : A -> S -> result S)
    (xs : list A) :
  (forall x s s', P s -> body x s = Ok s' -> P s') ->
  forall s s', P s -> for_ xs body s = Ok s' -> P s'.
Proof.
  intros Hbody. induction xs as [|x xs IH]; intros s s' Hs; cbn [for_].
  - intros [= <-]. exact Hs.
  - destruct (body x s) as [s1|e] eqn:E; cbn [bind]; [|discriminate].
    apply IH. exact (Hbody x s s1 Hs E).
Qed.

Lemma struct_offset_bound (size : nat) (n offset : Z) (o : nat) :
  0 <= n -> struct_offset size n offset = Some o ->
  Z.of_nat o + Z.of_nat size <= n.
Proof.
  intros Hn. unfold struct_offset.
  destruct ((if offset <? 0 then offset + n else offset) <? 0) eqn:E1;
    [discriminate|].
  destruct (n - (if offset <? 0 then offset + n else offset) <? Z.of_nat size)
    eqn:E2; [discriminate|].
  cbn [orb]. intros [= <-]. lia.
Qed.

Lemma pack_into_length (size : nat) (buf : list byte) (offset v : Z)
    (buf' : list byte) :
  pack_into size buf offset v = Ok buf' -> length buf' = length buf.
Proof.
  unfold pack_into.
  destruct (struct_offset size (len buf) offset) as [o|] eqn:E; [|discriminate].
  apply struct_offset_bound in E; [|unfold len; lia]. unfold len in E.
  destruct ((0 <=? v) && (v <? 256 ^ Z.of_nat size)); [|discriminate].
  intros [= <-].
  rewrite !length_app, length_firstn, le_encode_length, length_skipn. lia.
Qed.

Lemma stage_length (op : Z) (data : list byte) (key : Z) (data' : list byte) :
  stage op data key = Ok data' -> length data' = length data.
Proof.
  unfold stage.
  destruct (op =? 1).
  { unfold xor_const.
    apply (for_invariant (fun d => length d = length data)); [|reflexivity].
    intros j d d' Hd. destruct (unpack_from 4 d j); cbn [bind]; [|discriminate].
    intros H. apply pack_into_length in H. congruence. }
  destruct (op =? 2).
  { unfold xor_chain.
    destruct (for_ _ _ (data, key)) as [[d k]|e] eqn:E; cbn [bind];
      [|discriminate].
    intros [= <-].
    apply (for_invariant (fun st : list byte * Z =>
                            length (fst st) = length data)) in E;
      [exact E| |reflexivity].
    intros j [d0 k0] [d1 k1] Hd. cbn [fst] in *.
    destruct (unpack_from 4 d0 j); cbn [bind]; [|discriminate].
    destruct (pack_into 4 d0 j _) as [d2|] eqn:Ep; cbn [bind]; [|discriminate].
    intros [= <- <-]. apply pack_into_length in Ep. congruence. }
  destruct (op =? 4).
  { unfold shift_words.
    apply (for_invariant (fun d => length d = length data)); [|reflexivity].
    intros j d d' Hd. destruct (unpack_from 4 d j); cbn [bind]; [|discriminate].
    intros H. apply pack_into_length in H. congruence. }
  destruct (op =? 8).
  { destruct (init_table_filled data key) as (t & Ht & Hl & _).
    rewrite Ht. intros [= <-]. exact Hl. }
  intros [= <-]. reflexivity.
Qed.

Lemma decrypt_data_length (data routine data' : list byte) :
  decrypt_data data routine = Ok data' -> length data' = length data.
Proof.
  unfold decrypt_data.
  destruct (for_ _ _ (len routine, data)) as [[k d]|e] eqn:E; cbn [bind];
    [|discriminate].
  intros [= <-].
  apply (for_invariant (fun st : Z * list byte =>
                          length (snd st) = length data)) in E;
    [exact E| |reflexivity].
  intros i [k0 d0] [k1 d1] Hd. cbn [snd] in *. unfold decrypt_round.
  destruct (unpack_from 4 routine (k0 - 4)); cbn [bind]; [|discriminate].
  destruct (getitem Bytes routine i); cbn [bind]; [|discriminate].
  destruct (stage _ d0 _) as [d2|] eqn:Es; cbn [bind]; [|discriminate].
  intros [= <- <-]. apply stage_length in Es. congruence.
Qed.

Lemma clamp_le (n i : Z) : 0 <= n -> (clamp n i <= Z.to_nat n)%nat.
Proof. intros H. unfold clamp. destruct (i <? 0) eqn:E; lia. Qed.

Lemma slice_length {A} (l : list A) (lo hi : Z) :
  length (slice l lo hi)
  = (clamp (len l) hi - clamp (len l) lo)%nat.
Proof.
  unfold slice. rewrite length_firstn, length_skipn.
  pose proof (clamp_le (len l) hi ltac:(unfold len; lia)).
  unfold len in *. lia.
Qed.

(** X1.  When [decrypt] returns, the buffer has the length it had, and for
    a region given by an offset and a length that are not negative every
    byte before [offset] and every byte from [offset + length] on is the
    byte that was there: the stages only ever write inside the region. *)
Theorem decrypt_stays_in_region (buffer : list byte) (offset length : Z)
    (routine buffer' : list byte) :
  0 <= offset -> 0 <= length ->
  decrypt buffer offset length routine = Ok buffer' ->
  List.length buffer' = List.length buffer /\
  forall i,
    (Z.of_nat i < offset \/ offset + length <= Z.of_nat i) ->
    nth_error buffer' i = nth_error buffer i.
Proof.
  intros Ho Hl. unfold decrypt.
  destruct (decrypt_data _ routine) as [data|e] eqn:E; cbn [bind];
    [|discriminate].
  intros [= <-]. apply decrypt_data_length in E.
  rewrite slice_length in E.
  set (a := clamp (len buffer) offset) in *.
  set (b := clamp (len buffer) (offset + length)) in *.
  assert (Ha : (a <= List.length buffer)%nat)
    by (pose proof (clamp_le (len buffer) offset); unfold len in *; lia).
  assert (Hb : (b <= List.length buffer)%nat)
    by (pose proof (clamp_le (len buffer) (offset + length));
        unfold len in *; lia).
  assert (Hab : (a <= b)%nat).
  { unfold a, b, clamp.
    destruct (offset <? 0) eqn:E1; [lia|].
    destruct (offset + length <? 0) eqn:E2; lia. }
  rewrite Nat.max_r by exact Hab.
  assert (Hfa : List.length (firstn a buffer) = a)
    by (rewrite length_firstn; lia).
  split.
  - rewrite !length_app, Hfa, E, length_skipn. lia.
  - intros i Hi.
    assert (Hcases : (i < a)%nat \/ (b <= i)%nat).
    { unfold a, b, clamp. unfold len.
      destruct (offset <? 0) eqn:E1; [lia|].
      destruct (offset + length <? 0) eqn:E2; lia. }
    destruct Hcases as [Hlt|Hge].
    + rewrite nth_error_app1 by lia.
      rewrite nth_error_firstn.
      destruct (Nat.ltb_spec i a); [reflexivity|lia].
    + rewrite nth_error_app2 by lia. rewrite Hfa.
      rewrite nth_error_app2 by lia. rewrite E.
      rewrite nth_error_skipn. f_equal. lia.
Qed.

Lemma decrypt_stays_in_region_witness :
  List.length [x06; x80; x40; xd0; x23; x20; x20; x30; xaa; xbb] = 10%nat /\
  nth_error [x06; x80; x40; xd0; x23; x20; x20; x30; xaa; xbb] 9
  = nth_error (example_region ++ [xaa; xbb]) 9.
Proof.
  destruct (decrypt_stays_in_region (example_region ++ [xaa; xbb]) 0 8
              example_routine
              [x06; x80; x40; xd0; x23; x20; x20; x30; xaa; xbb])
    as (H1 & H2).
  - lia.
  - lia.
  - vm_compute. reflexivity.
  - split; [exact H1|]. apply H2. right. cbn. lia.
Defined.

Lemma unpack_from_short (pre rest : list byte) :
  (length rest < 4)%nat ->
  unpack_from 4 (pre ++ rest) (len pre) = Raise StructError.
Proof.
  intros H. unfold unpack_from, struct_offset, len.
  rewrite length_app.
  destruct (Z.ltb_spec (Z.of_nat (length pre)) 0) as [E1|E1]; [lia|].
  destruct (Z.ltb_spec (Z.of_nat (length pre)) 0) as [E1'|_]; [lia|].
  destruct (Z.ltb_spec (Z.of_nat (length pre + length rest)
                        - Z.of_nat (length pre)) (Z.of_nat 4));
    [reflexivity|lia].
Qed.

Lemma range4_partial (n : nat) (r : Z) :
  0 < r < 4 ->
  range4 (4 * Z.of_nat n + r) = map (fun k => 4 * Z.of_nat k) (seq 0 (S n)).
Proof.
  intros Hr. unfold range4. f_equal. f_equal.
  replace ((4 * Z.of_nat n + r + 3) / 4) with (Z.of_nat n + 1); [lia|].
  apply Z.div_unique with (r - 1); lia.
Qed.

Lemma partial_words (data : list byte) :
  len data mod 4 <> 0 ->
  exists n r, 0 < r < 4 /\ len data = 4 * Z.of_nat n + r.
Proof.
  intros H. exists (Z.to_nat (len data / 4)), (len data mod 4).
  pose proof (Z.mod_pos_bound (len data) 4 ltac:(lia)).
  pose proof (Z.div_mod (len data) 4 ltac:(lia)).
  assert (0 <= len data / 4) by (apply Z.div_pos; unfold len; lia).
  split; lia.
Qed.

Section PartialWordLoop.

Variable f : Z -> Z.
Hypothesis f_range : forall v, 0 <= v < 2 ^ 32 -> 0 <= f v < 2 ^ 32.

Lemma word_loop_partial (n : nat) :
  forall (k0 : nat) (pre rest : list byte),
    length pre = (4 * k0)%nat ->
    (4 * n < length rest < 4 * n + 4)%nat ->
    for_ (map (fun k => 4 * Z.of_nat k) (seq k0 (S n)))
      (fun j data =>
         v <- unpack_from 4 data j ;; pack_into 4 data j (f v))
      (pre ++ rest)
    = Raise StructError.
Proof.
  induction n as [|n IH]; intros k0 pre rest Hpre Hrest.
  - cbn [seq map for_].
    replace (4 * Z.of_nat k0) with (len pre) by (unfold len; lia).
    rewrite unpack_from_short by lia. reflexivity.
  - destruct rest as [|b0 [|b1 [|b2 [|b3 rest]]]]; cbn [length] in Hrest;
      try lia.
    change (seq k0 (S (S n))) with (k0 :: seq (S k0) (S n)).
    cbn [map for_].
    replace (4 * Z.of_nat k0) with (len pre) by (unfold len; lia).
    rewrite unpack_from_word. cbn [bind].
    rewrite pack_into_word by (apply f_range, word_range).
    cbn [bind]. rewrite app_assoc.
    apply (IH (S k0)).
    + rewrite length_app, le_encode_length. lia.
    + lia.
Qed.

End PartialWordLoop.

Lemma chain_loop_partial (n : nat) :
  forall (k0 : nat) (pre rest : list byte) (rk : Z),
    0 <= rk < 2 ^ 32 ->
    length pre = (4 * k0)%nat ->
    (4 * n < length rest < 4 * n + 4)%nat ->
    for_ (map (fun k => 4 * Z.of_nat k) (seq k0 (S n)))
      (fun j (st : list byte * Z) =>
         let '(data, key) := st in
         v <- unpack_from 4 data j ;;
         data <- pack_into 4 data j (Z.lxor v key) ;;
         Ok (data, v))
      (pre ++ rest, rk)
    = Raise StructError.
Proof.
  induction n as [|n IH]; intros k0 pre rest rk Hrk Hpre Hrest.
  - cbn [seq map for_].
    replace (4 * Z.of_nat k0) with (len pre) by (unfold len; lia).
    rewrite unpack_from_short by lia. reflexivity.
  - destruct rest as [|b0 [|b1 [|b2 [|b3 rest]]]]; cbn [length] in Hrest;
      try lia.
    change (seq k0 (S (S n))) with (k0 :: seq (S k0) (S n)).
    cbn [map for_].
    replace (4 * Z.of_nat k0) with (len pre) by (unfold len; lia).
    rewrite unpack_from_word. cbn [bind].
    rewrite pack_into_word
      by (apply lxor_range; [lia|apply word_range|exact Hrk]).
    cbn [bind]. rewrite app_assoc.
    apply (IH (S k0)).
    + apply word_range.
    + rewrite length_app, le_encode_length. lia.
    + lia.
Qed.

(** X2.  On a region whose length is not a multiple of 4, a round with
    opcode 1, 2 or 4 raises [struct.error]: the loop over
    [range(0, len(data), 4)] reaches the trailing partial word and
    [unpack_from] finds fewer than four bytes there.  The words before it
    have been rewritten by then, but the exception is all the caller
    sees. *)
Theorem partial_word_raises (op : Z) (data : list byte) (key : Z) :
  len data mod 4 <> 0 -> In op [1; 2; 4] -> 0 <= key < 2 ^ 32 ->
  stage op data key = Raise StructError.
Proof.
  intros Hd Hop Hk.
  destruct (partial_words data Hd) as (n & r & Hr & Hlen).
  assert (Hrest : (4 * n < length data < 4 * n + 4)%nat)
    by (unfold len in Hlen; lia).
  cbn [In] in Hop. destruct Hop as [<-|[<-|[<-|[]]]].
  - change (stage 1 data key) with (xor_const data key).
    unfold xor_const. rewrite Hlen, range4_partial by exact Hr.
    apply (word_loop_partial (fun v => Z.lxor v key)
             (fun v Hv => lxor_range 32 v key ltac:(lia) Hv Hk) n 0 [] data);
      [reflexivity|exact Hrest].
  - change (stage 2 data key) with (xor_chain data key).
    unfold xor_chain. rewrite Hlen, range4_partial by exact Hr.
    pose proof (chain_loop_partial n 0 [] data key Hk eq_refl Hrest) as H.
    cbn [app] in H. rewrite H. reflexivity.
  - change (stage 4 data key) with (shift_words data key).
    unfold shift_words. rewrite Hlen, range4_partial by exact Hr.
    apply (word_loop_partial (fun v => shift_value v key)
             (fun v _ => shift_value_range v key) n 0 [] data);
      [reflexivity|exact Hrest].
Qed.

Lemma partial_word_raises_witness :
  stage 2 [x01; x02; x03; x04; x05; x06] 7 = Raise StructError.
Proof.
  apply partial_word_raises.
  - vm_compute. discriminate.
  - cbn. auto.
  - lia.
Defined.


(* ================================================================== *)
(** ** When the stages lose nothing *)
(* ================================================================== *)

Lemma mod_eq_divide (a b L : Z) :
  L <> 0 -> a mod L = b mod L -> (L | a - b).
Proof.
  intros HL H. exists (a / L - b / L).
  pose proof (Z.div_mod a L HL). pose proof (Z.div_mod b L HL). lia.
Qed.

Lemma byte_dest_injective (key L i j : Z) :
  0 < L -> Z.gcd key L = 1 ->
  0 <= i < L -> 0 <= j < L ->
  byte_dest key L i = byte_dest key L j -> i = j.
Proof.
  intros HL Hg Hi Hj H. unfold byte_dest in H.
  apply mod_eq_divide in H; [|lia].
  replace ((i + 1) * key - (j + 1) * key) with (key * (i - j)) in H by ring.
  apply Z.gauss in H; [|rewrite Z.gcd_comm; exact Hg].
  destruct H as [q Hq].
  assert (q = 0) by nia. lia.
Qed.

Lemma last_source_found (key L d : Z) (n i : nat) :
  (i < n)%nat -> byte_dest key L (Z.of_nat i) = d ->
  exists s, last_source key L d n = Some s.
Proof.
  intros Hi Hd. induction n as [|n IH]; [lia|]. cbn [last_source].
  destruct (Z.eqb_spec (byte_dest key L (Z.of_nat n)) d) as [E|E];
    [eexists; reflexivity|].
  destruct (Nat.eq_dec i n) as [->|Hne]; [contradiction|].
  apply IH. lia.
Qed.

Lemma init_table_permutes (buffer : list byte) (key : Z) :
  Z.gcd key (len buffer) = 1 ->
  exists table,
    init_table buffer key = Ok table /\
    length table = length buffer /\
    forall i, (i < length buffer)%nat ->
      nth (Z.to_nat (byte_dest key (len buffer) (Z.of_nat i))) table x00
      = nth i buffer x00.
Proof.
  intros Hg.
  destruct (init_table_filled buffer key) as (table & Ht & Hl & Hn).
  exists table. split; [exact Ht|]. split; [exact Hl|].
  intros i Hi.
  assert (HL : 0 < len buffer) by (unfold len; lia).
  pose proof (Z.mod_pos_bound ((Z.of_nat i + 1) * key) (len buffer) HL) as Hb.
  fold (byte_dest key (len buffer) (Z.of_nat i)) in Hb.
  rewrite Hn by (unfold len in Hb |- *; lia).
  rewrite Z2Nat.id by lia.
  destruct (last_source_found key (len buffer)
              (byte_dest key (len buffer) (Z.of_nat i)) (length buffer) i
              Hi eq_refl) as (s & Hs).
  rewrite Hs.
  destruct (last_source_is_last _ _ _ _ _ Hs) as (Hsn & Hsd & _).
  apply byte_dest_injective in Hsd; try assumption; unfold len; try lia.
  replace s with i by lia. reflexivity.
Qed.

Lemma existsb_only (p : Z -> bool) (b : Z) (l : list Z) :
  In b l -> (forall x, In x l -> x <> b -> p x = false) ->
  existsb p l = p b.
Proof.
  intros Hin Hothers.
  destruct (existsb p l) eqn:E.
  - apply existsb_exists in E. destruct E as (x & Hx & Hpx).
    destruct (Z.eq_dec x b) as [->|Hne]; [symmetry; exact Hpx|].
    rewrite (Hothers x Hx Hne) in Hpx. discriminate.
  - destruct (p b) eqn:Eb; [|reflexivity].
    assert (existsb p l = true)
      by (apply existsb_exists; exists b; split; assumption).
    congruence.
Qed.

Lemma in_range (n x : Z) : In x (range n) <-> 0 <= x < n.
Proof.
  unfold range. rewrite in_map_iff. split.
  - intros (k & <- & Hk). apply in_seq in Hk. lia.
  - intros H. exists (Z.to_nat x). split; [lia|]. apply in_seq. lia.
Qed.

Lemma shift_value_permutes (val key b : Z) :
  Z.gcd key 32 = 1 -> 0 <= b < 32 ->
  Z.testbit (shift_value val key) (bit_dest key b) = Z.testbit val b.
Proof.
  intros Hg Hb. rewrite shift_value_bits.
  rewrite (existsb_only _ b).
  - rewrite Z.eqb_refl. apply andb_true_r.
  - apply in_range. exact Hb.
  - intros x Hx Hne. apply in_range in Hx.
    destruct (Z.eqb_spec (bit_dest key x) (bit_dest key b)) as [E|E];
      [|apply andb_false_r].
    exfalso. apply Hne.
    apply (byte_dest_injective key 32 x b); try assumption; lia.
Qed.

Lemma testbit_high (v n i : Z) :
  0 <= v < 2 ^ n -> 0 <= n <= i -> Z.testbit v i = false.
Proof.
  intros Hv Hi. rewrite <- (Z.mod_small v (2 ^ n)) by exact Hv.
  apply Z.mod_pow2_bits_high. lia.
Qed.

(** X3.  With a key coprime to 32 the opcode-4 word function is a
    permutation of the 32 bits: source bit [b] is found again at position
    [((b+1)*key) mod 32], and two different 32-bit words never have the
    same image. *)
Theorem shift_value_coprime_lossless (key : Z) :
  Z.gcd key 32 = 1 ->
  (forall val b,
      0 <= b < 32 ->
      Z.testbit (shift_value val key) (((b + 1) * key) mod 32)
      = Z.testbit val b)
  /\ (forall v1 v2,
        0 <= v1 < 2 ^ 32 -> 0 <= v2 < 2 ^ 32 ->
        shift_value v1 key = shift_value v2 key -> v1 = v2).
Proof.
  intros Hg. split.
  - intros val b Hb. exact (shift_value_permutes val key b Hg Hb).
  - intros v1 v2 H1 H2 E. apply Z.bits_inj'. intros b Hb.
    destruct (Z.lt_ge_cases b 32) as [Hlt|Hge].
    + rewrite <- (shift_value_permutes v1 key b Hg) by lia.
      rewrite <- (shift_value_permutes v2 key b Hg) by lia.
      rewrite E. reflexivity.
    + rewrite (testbit_high v1 32 b), (testbit_high v2 32 b) by lia.
      reflexivity.
Qed.

Lemma shift_value_coprime_lossless_witness :
  Z.testbit (shift_value 4 3) ((2 + 1) * 3 mod 32) = Z.testbit 4 2.
Proof.
  apply (proj1 (shift_value_coprime_lossless 3 eq_refl) 4 2). lia.
Defined.

(** X4.  With a key coprime to the region length the opcode-8 stage is a
    permutation of the region: source byte [i] is found again at index
    [((i+1)*key) mod L] of the result, the result has the same length, and
    two different regions never have the same image. *)
Theorem init_table_coprime_lossless (buffer : list byte) (key : Z) :
  Z.gcd key (len buffer) = 1 ->
  (exists table,
      stage 8 buffer key = Ok table /\
      length table = length buffer /\
      forall i, (i < length buffer)%nat ->
        nth (Z.to_nat (((Z.of_nat i + 1) * key) mod len buffer)) table x00
        = nth i buffer x00)
  /\ (forall other,
        stage 8 other key = stage 8 buffer key -> other = buffer).
Proof.
  intros Hg. change (stage 8) with init_table.
  destruct (init_table_permutes buffer key Hg) as (t & Ht & Hl & Hn).
  split; [exists t; split; [exact Ht|split; [exact Hl|exact Hn]]|].
  intros other E.
  destruct (init_table_filled other key) as (t1 & Ht1 & Hl1 & _).
  rewrite Ht1, Ht in E. injection E as ->.
  assert (Hlen : length other = length buffer) by congruence.
  assert (Hg1 : Z.gcd key (len other) = 1)
    by (unfold len; rewrite Hlen; exact Hg).
  destruct (init_table_permutes other key Hg1) as (t2 & Ht2 & _ & Hn2).
  rewrite Ht1 in Ht2. injection Ht2 as <-.
  apply (nth_ext _ _ x00 x00); [exact Hlen|].
  intros i Hi. rewrite <- Hn2 by exact Hi.
  rewrite <- Hn by lia.
  unfold len. rewrite Hlen. reflexivity.
Qed.

Lemma init_table_coprime_lossless_witness :
  exists table,
    stage 8 example_region 3 = Ok table /\
    length table = 8%nat /\
    forall i, (i < 8)%nat ->
      nth (Z.to_nat (((Z.of_nat i + 1) * 3) mod 8)) table x00
      = nth i example_region x00.
Proof.
  exact (proj1 (init_table_coprime_lossless example_region 3 eq_refl)).
Defined.

Lemma lxor_cancel_r (a b k : Z) : Z.lxor a k = Z.lxor b k -> a = b.
Proof.
  intros H. apply (f_equal (fun x => Z.lxor x k)) in H.
  rewrite !Z.lxor_assoc, Z.lxor_nilpotent, !Z.lxor_0_r in H. exact H.
Qed.

Lemma le_encode_word_inj (x y : Z) (r1 r2 : list byte) :
  0 <= x < 2 ^ 32 -> 0 <= y < 2 ^ 32 ->
  le_encode 4 x ++ r1 = le_encode 4 y ++ r2 -> x = y /\ r1 = r2.
Proof.
  intros Hx Hy H. cbn [le_encode app] in H.
  injection H as H0 H1 H2 H3 Hr. split; [|exact Hr].
  rewrite <- (le_decode_encode 4 x Hx), <- (le_decode_encode 4 y Hy).
  cbn [le_encode]. congruence.
Qed.

Lemma word_bytes_inj (b0 b1 b2 b3 c0 c1 c2 c3 : byte) :
  le_decode [b0; b1; b2; b3] = le_decode [c0; c1; c2; c3] ->
  [b0; b1; b2; b3] = [c0; c1; c2; c3].
Proof.
  intros H.
  rewrite <- (le_encode_decode [b0; b1; b2; b3]).
  rewrite <- (le_encode_decode [c0; c1; c2; c3]).
  cbn [length]. rewrite H. reflexivity.
Qed.

Lemma chain_words_inj (d1 : list byte) :
  len d1 mod 4 = 0 ->
  forall d2 key,
    len d2 mod 4 = 0 -> 0 <= key < 2 ^ 32 ->
    chain_words key d1 = chain_words key d2 -> d1 = d2.
Proof.
  revert d1.
  apply (words_ind (fun d1 =>
    forall d2 key,
      len d2 mod 4 = 0 -> 0 <= key < 2 ^ 32 ->
      chain_words key d1 = chain_words key d2 -> d1 = d2)).
  - intros d2 key H2 Hk E.
    apply (f_equal (@length byte)) in E.
    rewrite (chain_words_length d2 H2) in E.
    destruct d2; [reflexivity|discriminate].
  - intros b0 b1 b2 b3 r1 IH d2 key H2 Hk E.
    destruct (whole_words d2 H2) as [n Hn].
    destruct d2 as [|c0 [|c1 [|c2 [|c3 r2]]]]; cbn [length] in Hn; try lia.
    + apply (f_equal (@length byte)) in E. cbn in E. discriminate.
    + cbn [chain_words] in E.
      apply le_encode_word_inj in E;
        try (apply lxor_range; [lia|apply word_range|exact Hk]).
      destruct E as [Ev Er]. apply lxor_cancel_r in Ev.
      pose proof (word_bytes_inj _ _ _ _ _ _ _ _ Ev) as Hb.
      injection Hb as -> -> -> ->. f_equal. f_equal. f_equal. f_equal.
      apply (IH r2 (le_decode [c0; c1; c2; c3])).
      * unfold len in *. cbn [length] in H2.
        apply Z.mod_divide; [lia|]. apply Z.mod_divide in H2; [|lia].
        destruct H2 as [q Hq]. exists (q - 1). lia.
      * apply word_range.
      * exact Er.
Qed.

(** X5.  On regions of whole words and with a 32-bit key, the opcode-1
    and the opcode-2 stage are one-to-one: two different regions never
    decrypt to the same bytes. *)
Theorem xor_stages_one_to_one (op : Z) (d1 d2 : list byte) (key : Z) :
  In op [1; 2] ->
  len d1 mod 4 = 0 -> len d2 mod 4 = 0 -> 0 <= key < 2 ^ 32 ->
  stage op d1 key = stage op d2 key -> d1 = d2.
Proof.
  intros Hop H1 H2 Hk E. cbn [In] in Hop. destruct Hop as [<-|[<-|[]]].
  - change (stage 1) with xor_const in E.
    rewrite !xor_const_words in E by assumption. injection E as E.
    rewrite <- (xor_const_twice key Hk d1 H1).
    rewrite <- (xor_const_twice key Hk d2 H2). rewrite E. reflexivity.
  - change (stage 2) with xor_chain in E.
    rewrite !xor_chain_words_eq in E by assumption. injection E as E.
    exact (chain_words_inj d1 H1 d2 key H2 Hk E).
Qed.

Lemma xor_stages_one_to_one_witness :
  map_words (fun v => Z.lxor v 9) [x01; x02; x03; x04] = [x08; x02; x03; x04]
  /\ [x08; x02; x03; x04] = [x08; x02; x03; x04].
Proof.
  split; [reflexivity|].
  apply (xor_stages_one_to_one 1 [x08; x02; x03; x04] [x08; x02; x03; x04] 9).
  - cbn. auto.
  - reflexivity.
  - reflexivity.
  - lia.
  - reflexivity.
Defined.

(* ================================================================== *)
(** ** Reading integers and names *)
(* ================================================================== *)

Lemma read_at_length (content : list byte) (pos n : Z) :
  0 <= pos -> 0 <= n ->
  len (fst (read_at content pos n)) = Z.min n (Z.max 0 (len content - pos)).
Proof.
  intros Hp Hn. unfold read_at. cbn [fst].
  destruct (Z.ltb_spec n 0); [lia|].
  unfold len. rewrite length_firstn, length_skipn. lia.
Qed.

Lemma f_seek_any_inside (limit pos : Z) :
  limit < 2 ^ 63 -> 0 <= pos <= limit -> f_seek_any limit pos = Ok pos.
Proof.
  intros Hl Hp. unfold f_seek_any, f_seek.
  destruct (Z.ltb_spec pos (- 2 ^ 63)); [lia|].
  destruct (Z.leb_spec (2 ^ 63) pos); [lia|]. cbn [orb].
  destruct (Z.ltb_spec limit pos); [lia|].
  destruct (Z.ltb_spec pos 0); [lia|]. reflexivity.
Qed.

Lemma read_uint_inside (size : nat) (limit : Z) (content : list byte)
    (offset : Z) :
  len content <= limit < 2 ^ 63 ->
  0 <= offset -> offset + Z.of_nat size <= len content ->
  (pos <- f_seek_any limit offset ;;
   '(data, _) <- f_read content pos (Z.of_nat size) ;;
   unpack size data)
  = Ok (slot_field content offset (Z.of_nat size)).
Proof.
  intros Hlim Ho Hl. rewrite f_seek_any_inside by lia. cbn [bind].
  rewrite f_read_ok by lia. cbn [bind].
  destruct (read_at_slice content offset (Z.of_nat size)) as (Hs & Hsl);
    try lia.
  destruct (read_at content offset (Z.of_nat size)) as [data pos].
  cbn [fst] in *. unfold unpack.
  replace (Nat.eqb (length data) size) with true
    by (symmetry; apply Nat.eqb_eq; unfold len in Hsl; lia).
  rewrite Hs. reflexivity.
Qed.

Lemma read_uint_short (size : nat) (limit : Z) (content : list byte)
    (offset : Z) :
  (0 < size)%nat -> limit < 2 ^ 63 ->
  0 <= offset <= limit -> len content < offset + Z.of_nat size ->
  (pos <- f_seek_any limit offset ;;
   '(data, _) <- f_read content pos (Z.of_nat size) ;;
   unpack size data)
  = Raise StructError.
Proof.
  intros Hsz Hlim Ho Hl. rewrite f_seek_any_inside by lia. cbn [bind].
  rewrite f_read_ok by lia. cbn [bind].
  pose proof (read_at_length content offset (Z.of_nat size) ltac:(lia)
                ltac:(lia)) as Hrd.
  destruct (read_at content offset (Z.of_nat size)) as [data pos].
  cbn [fst] in *. unfold unpack.
  replace (Nat.eqb (length data) size) with false; [reflexivity|].
  symmetry. apply Nat.eqb_neq. unfold len in *. lia.
Qed.

(** X6.  On a file system whose largest position is [limit], below 2^63
    and not below the size of the file, [read_uint32] does one of four
    things, by its offset.  An offset outside the signed 64-bit range
    raises [ValueError] from [seek].  Inside that range, a negative
    offset and an offset above [limit] raise [OSError] from [seek].  An
    offset from 0 to [limit] with fewer than four bytes of the file after
    it raises [struct.error].  An offset that leaves four bytes before
    the end of the file returns the little-endian value of those four
    bytes, below 2^32.  [read_uint16] does the same with two bytes and
    2^16. *)
Theorem read_uint_cases (limit : Z) (content : list byte) (offset : Z) :
  len content <= limit < 2 ^ 63 ->
  (0 <= offset -> offset + 4 <= len content ->
   read_uint32 limit content offset = Ok (slot_field content offset 4) /\
   0 <= slot_field content offset 4 < 2 ^ 32)
  /\ (0 <= offset -> offset + 2 <= len content ->
      read_uint16 limit content offset = Ok (slot_field content offset 2) /\
      0 <= slot_field content offset 2 < 2 ^ 16)
  /\ (offset < - 2 ^ 63 \/ 2 ^ 63 <= offset ->
      read_uint32 limit content offset = Raise ValueError /\
      read_uint16 limit content offset = Raise ValueError)
  /\ (- 2 ^ 63 <= offset < 0 \/ limit < offset < 2 ^ 63 ->
      read_uint32 limit content offset = Raise OSError /\
      read_uint16 limit content offset = Raise OSError)
  /\ (0 <= offset <= limit -> len content < offset + 4 ->
      read_uint32 limit content offset = Raise StructError)
  /\ (0 <= offset <= limit -> len content < offset + 2 ->
      read_uint16 limit content offset = Raise StructError).
Proof.
  intros Hlim.
  split; [|split; [|split; [|split; [|split]]]].
  - intros Ho Hl.
    split; [exact (read_uint_inside 4 limit content offset Hlim Ho Hl)|].
    unfold slot_field.
    pose proof (le_decode_range (slice content offset (offset + 4))) as H.
    rewrite slice_length, !clamp_inside in H by lia.
    replace (Z.of_nat (Z.to_nat (offset + 4) - Z.to_nat offset)) with 4 in H
      by lia.
    exact H.
  - intros Ho Hl.
    split; [exact (read_uint_inside 2 limit content offset Hlim Ho Hl)|].
    unfold slot_field.
    pose proof (le_decode_range (slice content offset (offset + 2))) as H.
    rewrite slice_length, !clamp_inside in H by lia.
    replace (Z.of_nat (Z.to_nat (offset + 2) - Z.to_nat offset)) with 2 in H
      by lia.
    exact H.
  - intros Ho. unfold read_uint32, read_uint16, f_seek_any.
    destruct (Z.ltb_spec offset (- 2 ^ 63));
      destruct (Z.leb_spec (2 ^ 63) offset); cbn [orb bind];
      try (split; reflexivity); lia.
  - intros Ho. unfold read_uint32, read_uint16, f_seek_any, f_seek.
    unfold len in Hlim.
    destruct (Z.ltb_spec offset (- 2 ^ 63)); [lia|].
    destruct (Z.leb_spec (2 ^ 63) offset); [lia|]. cbn [orb].
    destruct (Z.ltb_spec limit offset); [split; reflexivity|].
    destruct (Z.ltb_spec offset 0); [split; reflexivity|lia].
  - intros Ho Hl.
    exact (read_uint_short 4 limit content offset ltac:(lia) ltac:(lia)
             Ho Hl).
  - intros Ho Hl.
    exact (read_uint_short 2 limit content offset ltac:(lia) ltac:(lia)
             Ho Hl).
Qed.

Lemma read_uint_cases_witness :
  read_uint32 (2 ^ 44) oversized_container 8 = Ok 10001
  /\ read_uint16 (2 ^ 44) oversized_container (-1) = Raise OSError
  /\ read_uint32 (2 ^ 44) oversized_container (2 ^ 44 + 1) = Raise OSError
  /\ read_uint32 (2 ^ 44) oversized_container (2 ^ 63) = Raise ValueError
  /\ read_uint32 (2 ^ 44) oversized_container 9 = Raise StructError.
Proof.
  assert (Hlim : len oversized_container <= 2 ^ 44 < 2 ^ 63)
    by (vm_compute; split; [discriminate|reflexivity]).
  destruct (read_uint_cases (2 ^ 44) oversized_container 8 Hlim)
    as (H1 & _).
  destruct (read_uint_cases (2 ^ 44) oversized_container (-1) Hlim)
    as (_ & _ & _ & H2 & _).
  destruct (read_uint_cases (2 ^ 44) oversized_container (2 ^ 44 + 1) Hlim)
    as (_ & _ & _ & H3 & _).
  destruct (read_uint_cases (2 ^ 44) oversized_container (2 ^ 63) Hlim)
    as (_ & _ & H4 & _).
  destruct (read_uint_cases (2 ^ 44) oversized_container 9 Hlim)
    as (_ & _ & _ & _ & H5 & _).
  split; [|split; [|split; [|split]]].
  - destruct H1 as (H1 & _); [lia|vm_compute; discriminate|].
    rewrite H1. reflexivity.
  - apply H2. lia.
  - apply H3. lia.
  - apply H4. lia.
  - apply H5; [lia|vm_compute; reflexivity].
Defined.

Lemma find_zero_cases (l : list byte) :
  forall i,
    0 <= i ->
    (find_zero l i = -1 /\ Forall (fun b => b <> x00) l)
    \/ (exists k,
          find_zero l i = i + Z.of_nat k /\
          (k < length l)%nat /\
          Forall (fun b => b <> x00) (firstn k l) /\
          skipn k l = x00 :: skipn (S k) l).
Proof.
  induction l as [|b l IH]; intros i Hi; cbn [find_zero].
  - left. split; [reflexivity|constructor].
  - destruct (Byte.eqb b x00) eqn:E.
    + apply Byte.byte_dec_bl in E. subst b.
      right. exists 0%nat. cbn [firstn skipn length].
      repeat split; [lia|lia|constructor].
    + apply Byte.eqb_false in E.
      destruct (IH (i + 1) ltac:(lia)) as [(Hf & Hall)|(k & Hf & Hk & Hall & Hs)].
      * left. split; [exact Hf|constructor; assumption].
      * right. exists (S k). cbn [firstn skipn length].
        repeat split; [lia|lia|constructor; assumption|exact Hs].
Qed.

Lemma window_at_most (data : list byte) (offset max_length : Z) :
  0 <= offset -> 0 <= max_length ->
  len (slice data offset (offset + max_length)) <= max_length.
Proof.
  intros Ho Hm. unfold len. rewrite slice_length. unfold clamp, len.
  destruct (Z.ltb_spec offset 0); [lia|].
  destruct (Z.ltb_spec (offset + max_length) 0); lia.
Qed.

Lemma name_in_window (data : list byte) (offset max_length : Z) :
  0 <= offset -> 0 <= max_length ->
  (get_null_terminated_string data offset max_length
   = slice data offset (offset + max_length)
   /\ Forall (fun b => b <> x00) (slice data offset (offset + max_length)))
  \/ (exists k,
        (k < length (slice data offset (offset + max_length)))%nat
        /\ get_null_terminated_string data offset max_length
           = firstn k (slice data offset (offset + max_length))
        /\ Forall (fun b => b <> x00)
             (firstn k (slice data offset (offset + max_length)))
        /\ nth_error (slice data offset (offset + max_length)) k
           = Some x00).
Proof.
  intros Ho Hm.
  set (w := slice data offset (offset + max_length)).
  unfold get_null_terminated_string, find0. fold w.
  destruct (find_zero_cases w (Z.of_nat (clamp (len data) offset))
              ltac:(lia)) as [(Hf & Hall)|(k & Hf & Hk & Hall & Hs)].
  - rewrite Hf. cbn [Z.eqb]. fold w. left. split; [reflexivity|exact Hall].
  - rewrite Hf.
    destruct (Z.eqb_spec (Z.of_nat (clamp (len data) offset) + Z.of_nat k)
                (-1)) as [E|_]; [lia|].
    right. exists k. split; [exact Hk|]. split; [|split; [exact Hall|]].
    + unfold w in Hk |- *. rewrite slice_length in Hk.
      unfold slice at 1 2.
      pose proof (clamp_le (len data) (offset + max_length)
                    ltac:(unfold len; lia)) as Hc.
      rewrite (clamp_inside (len data)
                 (Z.of_nat (clamp (len data) offset) + Z.of_nat k))
        by (unfold len in *; lia).
      rewrite firstn_firstn. f_equal. lia.
    + rewrite <- (firstn_skipn k w) at 1.
      rewrite nth_error_app2 by (rewrite length_firstn; lia).
      rewrite length_firstn, Hs.
      replace (k - Nat.min k (length w))%nat with 0%nat by lia.
      reflexivity.
Qed.

(** X7.  For an offset and a maximal length that are not negative,
    [get_null_terminated_string] returns the bytes of
    [data[offset:offset+max_length]] before the first zero byte, or the
    whole of that window when it holds no zero byte: the result contains no
    zero byte, has at most [max_length] bytes, and nothing beyond the
    window (or beyond the end of [data]) is read. *)
Theorem name_stops_at_nul_or_window (data : list byte) (offset max_length : Z) :
  0 <= offset -> 0 <= max_length ->
  Forall (fun b => b <> x00)
    (get_null_terminated_string data offset max_length)
  /\ len (get_null_terminated_string data offset max_length) <= max_length
  /\ (get_null_terminated_string data offset max_length
      = slice data offset (offset + max_length)
      \/ exists rest,
           slice data offset (offset + max_length)
           = get_null_terminated_string data offset max_length
             ++ x00 :: rest).
Proof.
  intros Ho Hm.
  pose proof (window_at_most data offset max_length Ho Hm) as Hwl.
  destruct (name_in_window data offset max_length Ho Hm)
    as [(Hn & Hall)|(k & Hk & Hn & Hall & Hz)]; rewrite Hn.
  - split; [exact Hall|]. split; [exact Hwl|]. left. reflexivity.
  - split; [exact Hall|].
    split; [unfold len in *; rewrite length_firstn; lia|].
    right. apply nth_error_split in Hz.
    destruct Hz as (l1 & l2 & Hw & Hl1).
    exists l2. rewrite Hw at 1. f_equal.
    rewrite Hw, <- Hl1, firstn_app, firstn_all, Nat.sub_diag.
    cbn [firstn]. symmetry. apply app_nil_r.
Qed.

Lemma name_stops_at_nul_or_window_witness :
  get_null_terminated_string example_slot 0 0x40 = [x61; x2e; x62; x69; x6e]
  /\ Forall (fun b => b <> x00)
       (get_null_terminated_string example_slot 0 0x40)
  /\ len (get_null_terminated_string example_slot 0 0x40) <= 0x40.
Proof.
  split; [vm_compute; reflexivity|].
  destruct (name_stops_at_nul_or_window example_slot 0 0x40) as (H1 & H2 & _);
    [lia|lia|].
  split; assumption.
Defined.

(* ================================================================== *)
(** ** Which files [open] accepts *)
(* ================================================================== *)

Lemma bytes_eqb_eq (a b : list byte) : bytes_eqb a b = true <-> a = b.
Proof.
  revert b. induction a as [|x a IH]; intros [|y b]; cbn [bytes_eqb];
    try (split; [discriminate|discriminate]); [split; reflexivity|].
  rewrite andb_true_iff, IH. split.
  - intros [Hxy ->]. apply Byte.byte_dec_bl in Hxy. congruence.
  - intros [= -> ->]. split; [apply Byte.byte_dec_lb|]; reflexivity.
Qed.

Lemma slice_from {A} (l : list A) (lo hi : Z) :
  0 <= lo <= hi -> lo <= len l ->
  slice l lo hi = firstn (Z.to_nat (hi - lo)) (skipn (Z.to_nat lo) l).
Proof.
  intros H1 H2. unfold slice. rewrite (clamp_inside (len l) lo) by lia.
  destruct (Z.le_gt_cases hi (len l)) as [H|H].
  - rewrite clamp_inside by lia. f_equal. lia.
  - unfold clamp. destruct (Z.ltb_spec hi 0); [lia|].
    rewrite Z.min_r by lia. unfold len in *.
    rewrite !firstn_all2 by (rewrite length_skipn; lia). reflexivity.
Qed.

Lemma open_accepts (self : EmeArchive) (content : list byte) :
  fst (open self (Some content)) = container_ok content.
Proof.
  rewrite open_reads. unfold container_ok.
  rewrite (slice_0 content 4) by lia.
  change (read_at content 0 4)
    with (firstn 4 content, 0 + len (firstn 4 content)).
  change (Z.to_nat 4) with 4%nat.
  cbv beta iota.
  destruct (bytes_eqb (firstn 4 content) SIGNATURE) eqn:E1; cbn [negb andb];
    [|reflexivity].
  apply bytes_eqb_eq in E1.
  assert (H4 : 4 <= len content).
  { apply (f_equal (@length byte)) in E1. rewrite length_firstn in E1.
    cbn [SIGNATURE length] in E1. unfold len. lia. }
  rewrite E1. change (0 + len SIGNATURE) with 4.
  rewrite (slice_from content 4 8) by lia.
  change (read_at content 4 4)
    with (firstn 4 (skipn 4 content), 4 + len (firstn 4 (skipn 4 content))).
  change (Z.to_nat (8 - 4)) with 4%nat. change (Z.to_nat 4) with 4%nat.
  cbv beta iota.
  destruct (bytes_eqb (firstn 4 (skipn 4 content)) SIGNATURE2) eqn:E2;
    cbn [negb andb]; [|reflexivity].
  apply bytes_eqb_eq in E2.
  assert (H8 : 8 <= len content).
  { apply (f_equal (@length byte)) in E2.
    rewrite length_firstn, length_skipn in E2.
    cbn [SIGNATURE2 length] in E2. unfold len. lia. }
  cbv zeta. unfold f_seek at 1.
  destruct (Z.ltb_spec (len content - 4) 0); [lia|].
  destruct (read_at_slice content (len content - 4) 4) as (Hcnt & Hcntl);
    try lia.
  destruct (read_at content (len content - 4) 4) as [data pos2].
  cbn [fst] in Hcnt, Hcntl.
  unfold unpack.
  replace (Nat.eqb (length data) 4) with true
    by (symmetry; apply Nat.eqb_eq; unfold len in Hcntl; lia).
  assert (Hec : le_decode data = entry_count_of content).
  { unfold entry_count_of. rewrite Hcnt. do 2 f_equal. lia. }
  rewrite Hec.
  pose proof (le_decode_range data) as Hrange. rewrite Hec in Hrange.
  set (n := entry_count_of content) in *.
  destruct (Z.gtb_spec n 10000) as [Ebig|Ebig].
  { destruct (Z.leb_spec n 10000); [lia|]. reflexivity. }
  destruct (Z.leb_spec n 10000); [|lia]. cbn [andb].
  unfold f_seek at 1.
  destruct (Z.ltb_spec (len content - 4 - n * 96 - 40) 0) as [Ekey|Ekey].
  { destruct (Z.leb_spec (40 + 96 * n + 4) (len content)); [lia|].
    reflexivity. }
  destruct (Z.leb_spec (40 + 96 * n + 4) (len content)); [|lia].
  destruct (read_at_slice content (len content - 4 - n * 96 - 40) 40)
    as (Hk & Hkl); try lia.
  destruct (read_at content (len content - 4 - n * 96 - 40) 40)
    as [routine pos3].
  cbn [fst] in Hk, Hkl.
  unfold f_seek.
  destruct (Z.ltb_spec (len content - 4 - n * 96) 0); [lia|].
  destruct (read_at_slice content (len content - 4 - n * 96) (n * 96))
    as (Hi & Hil); try lia.
  destruct (read_at content (len content - 4 - n * 96) (n * 96))
    as [index_data pos4].
  cbn [fst] in Hi, Hil.
  destruct (parse_loop routine (range n)
              ltac:(unfold len in Hkl; lia) 0 [] index_data
              (entries (with_key self routine)) eq_refl)
    as (buf' & new & Hrun & _).
  { rewrite range_length. unfold len in Hil. lia. }
  cbn [app] in Hrun. change (96 * Z.of_nat 0) with 0 in Hrun.
  rewrite Hrun. reflexivity.
Qed.

(** X8.  [open] returns [True] exactly for the files that start with the
    two magics, hold an entry count of at most 10000 in their last four
    bytes, and are long enough for 40 bytes of key material, the index
    table of 0x60 bytes per entry and the count.  It then appends exactly
    that many entries and keeps the 40 bytes before the table as the key.
    A file that cannot be opened gives [False] and changes nothing. *)
Theorem open_accepts_exactly (self : EmeArchive) (content : list byte) :
  fst (open self (Some content)) = container_ok content
  /\ (container_ok content = true ->
      key (snd (open self (Some content))) = Some (key_material content) /\
      len (key_material content) = 40 /\
      exists new,
        entries (snd (open self (Some content))) = entries self ++ new /\
        len new = entry_count_of content)
  /\ open self None = (false, self).
Proof.
  split; [apply open_accepts|]. split; [|reflexivity].
  intros Hok.
  pose proof (open_accepts self content) as Hfst.
  pose proof (open_outcome self content) as Hout.
  destruct (open self (Some content)) as [ok self'].
  cbn [fst snd] in *. rewrite Hok in Hfst. subst ok.
  destruct Hout as (Hkey & new & Hent & Hlen & _).
  unfold container_ok in Hok.
  apply andb_true_iff in Hok. destruct Hok as (Hok & Hsz).
  apply andb_true_iff in Hok. destruct Hok as (_ & Hcnt).
  apply Z.leb_le in Hsz.
  split; [exact Hkey|]. split.
  - unfold key_material, len. rewrite slice_length.
    pose proof (le_decode_range
                  (slice content (len content - 4) (len content))) as Hr.
    fold (entry_count_of content) in Hr.
    unfold index_offset_of.
    rewrite !clamp_inside by (unfold len in *; lia). unfold len in *. lia.
  - exists new. split; [exact Hent|].
    pose proof (le_decode_range
                  (slice content (len content - 4) (len content))) as Hr.
    fold (entry_count_of content) in Hr.
    unfold len. lia.
Qed.

Lemma open_accepts_exactly_witness :
  container_ok example_container = true
  /\ key (snd (open new_archive (Some example_container)))
     = Some (key_material example_container)
  /\ container_ok oversized_container = false.
Proof.
  split; [vm_compute; reflexivity|]. split; [|vm_compute; reflexivity].
  apply (proj1 (proj2 (open_accepts_exactly new_archive example_container))).
  vm_compute. reflexivity.
Defined.

(* ================================================================== *)
(** ** What [open] guarantees about the entries *)
(* ================================================================== *)

Lemma each_invariant {A S} (I : S -> Prop) (body : A -> S -> flow S)
    (xs : list A) :
  (forall x s, I s -> I (final (body x s))) ->
  forall s, I s -> I (final (each xs body s)).
Proof.
  intros Hbody. induction xs as [|x xs IH]; intros s Hs; cbn [each].
  - exact Hs.
  - pose proof (Hbody x s Hs) as H.
    destruct (body x s) as [s1|s1|e s1]; cbn [final] in *.
    + apply IH. exact H.
    + exact H.
    + exact H.
Qed.

Lemma unpack_from_range (size : nat) (buf : list byte) (o v : Z) :
  unpack_from size buf o = Ok v -> 0 <= v < 256 ^ Z.of_nat size.
Proof.
  unfold unpack_from.
  destruct (struct_offset size (len buf) o) as [off|]; [|discriminate].
  intros [= <-].
  pose proof (le_decode_range (firstn size (skipn off buf))) as H.
  assert (256 ^ Z.of_nat (length (firstn size (skipn off buf)))
          <= 256 ^ Z.of_nat size).
  { apply Z.pow_le_mono_r; [lia|]. rewrite length_firstn. lia. }
  lia.
Qed.

Lemma read_entry_well_formed (buf : list byte) (off : Z) (e : EmEntry) :
  0 <= off -> read_entry buf off = Ok e -> well_formed e.
Proof.
  intros Hoff. unfold read_entry.
  destruct (unpack_from 2 buf (off + 64)) as [fs|] eqn:Efs;
    cbn [bind]; [|discriminate].
  destruct (unpack_from 2 buf (off + 66)) as [ip|] eqn:Eip;
    cbn [bind]; [|discriminate].
  destruct (unpack_from 4 buf (off + 72)) as [st|] eqn:Est;
    cbn [bind]; [|discriminate].
  destruct (unpack_from 4 buf (off + 76)) as [sz|] eqn:Esz;
    cbn [bind]; [|discriminate].
  destruct (unpack_from 4 buf (off + 80)) as [us|] eqn:Eus;
    cbn [bind]; [|discriminate].
  destruct (unpack_from 4 buf (off + 84)) as [os|] eqn:Eos;
    cbn [bind]; [|discriminate].
  intros [= <-].
  apply unpack_from_range in Efs, Eip, Est, Esz, Eus, Eos.
  change (256 ^ Z.of_nat 2) with (2 ^ 16) in *.
  change (256 ^ Z.of_nat 4) with (2 ^ 32) in *.
  assert (Hname : Forall (fun b => b <> x00)
                    (get_null_terminated_string buf off 64)
                  /\ len (get_null_terminated_string buf off 64) <= 64).
  { pose proof (window_at_most buf off 64 Hoff ltac:(lia)) as Hwl.
    destruct (name_in_window buf off 64 Hoff ltac:(lia))
      as [(Hn & Hall)|(k & Hk & Hn & Hall & _)]; rewrite Hn.
    - split; assumption.
    - split; [exact Hall|]. unfold len in *. rewrite length_firstn. lia. }
  destruct Hname as (Hn1 & Hn2).
  unfold well_formed. cbn.
  repeat (split; [assumption|]).
  destruct (Z.eqb_spec fs 0) as [->|Hnz]; cbn [negb].
  - repeat split; try lia.
  - pose proof (Z.mod_pos_bound (fs - ip) fs ltac:(lia)) as Hm.
    repeat split; try lia.
Qed.

Lemma parse_slot_keeps (P : EmEntry -> Prop) (routine : list byte) :
  (forall buf off e, 0 <= off -> read_entry buf off = Ok e -> P e) ->
  forall st : pstate,
    (0 <= snd (fst st) /\ Forall P (snd st)) ->
    0 <= snd (fst (final (parse_slot routine st)))
    /\ Forall P (snd (final (parse_slot routine st))).
Proof.
  intros HP [[buf off] es] [Hoff Hes]. cbn [fst snd] in *.
  unfold parse_slot.
  destruct (decrypt buf off 96 routine) as [buf'|x]; cbn [lift final fst snd];
    [|split; assumption].
  destruct (read_entry buf' off) as [e|x] eqn:E; cbn [lift final fst snd];
    [|split; assumption].
  split; [lia|].
  apply Forall_app. split; [exact Hes|].
  constructor; [|constructor]. exact (HP buf' off e Hoff E).
Qed.

Lemma open_keeps (P : EmEntry -> Prop) (self : EmeArchive)
    (disk : option (list byte)) :
  (forall buf off e, 0 <= off -> read_entry buf off = Ok e -> P e) ->
  Forall P (entries self) ->
  Forall P (entries (snd (open self disk))).
Proof.
  intros HP Hself. destruct disk as [content|]; [|exact Hself].
  rewrite open_reads.
  destruct (read_at content 0 4) as [magic pos0].
  destruct (negb (bytes_eqb magic SIGNATURE)); [exact Hself|].
  destruct (read_at content pos0 4) as [magic2 pos1].
  destruct (negb (bytes_eqb magic2 SIGNATURE2)); [exact Hself|].
  cbv zeta.
  destruct (f_seek (len content - 4)) as [p1|]; [|exact Hself].
  destruct (read_at content p1 4) as [data p2].
  destruct (unpack 4 data) as [n|]; [|exact Hself].
  destruct (n >? 10000); [exact Hself|].
  destruct (f_seek (len content - 4 - n * 96 - 40)) as [p3|]; [|exact Hself].
  destruct (read_at content p3 40) as [routine p4].
  destruct (f_seek (len content - 4 - n * 96)) as [p5|]; [|exact Hself].
  destruct (read_at content p5 (n * 96)) as [index_data p6].
  pose proof (each_invariant
                (fun st : pstate => 0 <= snd (fst st) /\ Forall P (snd st))
                (fun _ => parse_slot routine) (range n)
                (fun _ => parse_slot_keeps P routine HP)
                (index_data, 0, entries (with_key self routine))
                (conj (Z.le_refl 0) Hself)) as [_ H].
  destruct (each (range n) (fun _ => parse_slot routine)
              (index_data, 0, entries (with_key self routine)))
    as [[[b o] es]|[[b o] es]|x [[b o] es]]; exact H.
Qed.

(** X9.  [open] only ever appends well-formed entries, whether it ends
    with [True] or with [False]: the name has no zero byte and at most 64
    bytes; the offset, the two sizes and the subtype are 32-bit values and
    the window size and position 16-bit values, none of them negative; the
    window position is smaller than the window size whenever that is not
    0; and the entry counts as packed exactly when its two sizes differ.
    So if the entries of an archive were well-formed before [open], they
    all are after it. *)
Theorem open_entries_well_formed (self : EmeArchive)
    (disk : option (list byte)) :
  Forall well_formed (entries self) ->
  Forall well_formed (entries (snd (open self disk))).
Proof.
  apply open_keeps. exact read_entry_well_formed.
Qed.

Lemma open_entries_well_formed_witness :
  entries (snd (open new_archive (Some example_container))) = [example_entry]
  /\ Forall well_formed
       (entries (snd (open new_archive (Some example_container)))).
Proof.
  split; [vm_compute; reflexivity|].
  apply (open_entries_well_formed new_archive (Some example_container)).
  constructor.
Defined.

(* ================================================================== *)
(** ** What the extraction of one record writes *)
(* ================================================================== *)

Lemma read_at_window (content : list byte) (pos n : Z) :
  0 <= pos -> 0 <= n ->
  fst (read_at content pos n) = slice content pos (pos + n).
Proof.
  intros Hp Hn. unfold read_at. cbn [fst].
  destruct (Z.ltb_spec n 0); [lia|].
  destruct (Z.le_gt_cases pos (len content)) as [H1|H1].
  - rewrite slice_from by lia. do 2 f_equal. lia.
  - unfold slice, clamp.
    destruct (Z.ltb_spec pos 0); [lia|].
    destruct (Z.ltb_spec (pos + n) 0); [lia|].
    rewrite !Z.min_r by lia.
    rewrite Nat.sub_diag. cbn [firstn].
    rewrite skipn_all2 by (unfold len in *; lia).
    apply firstn_nil.
Qed.

Lemma window_length (content : list byte) (pos n : Z) :
  0 <= pos -> 0 <= n ->
  len (slice content pos (pos + n)) = Z.min n (Z.max 0 (len content - pos)).
Proof.
  intros Hp Hn. rewrite <- read_at_window by assumption.
  apply read_at_length; assumption.
Qed.

(** X10.  [_extract_regular] looks at [entry.size] bytes of the file from
    [entry.offset] on and at nothing else.  An entry that is not packed is
    written as those bytes, without a call of the decompressor and without
    an exception: when the file ends before [offset + size], what is there
    is written, so the output is shorter than [size].  A packed entry is
    written as the first component of what the decompressor returns for
    those bytes, and nothing is written when the decompressor raises. *)
Theorem regular_record_window {Aux : Type}
    (decompress : list byte -> result (list byte * Aux))
    (content : list byte) (entry : EmEntry) :
  0 <= offset entry -> 0 <= size entry ->
  _extract_regular decompress content entry
  = (if is_packed entry
     then d <- decompress
                 (slice content (offset entry) (offset entry + size entry)) ;;
          Ok (fst d)
     else Ok (slice content (offset entry) (offset entry + size entry)))
  /\ len (slice content (offset entry) (offset entry + size entry))
     = Z.min (size entry) (Z.max 0 (len content - offset entry)).
Proof.
  intros Ho Hs. split; [|apply window_length; assumption].
  unfold _extract_regular, f_seek.
  destruct (Z.ltb_spec (offset entry) 0); [lia|]. cbn [bind].
  rewrite f_read_ok by lia. cbn [bind].
  pose proof (read_at_window content (offset entry) (size entry) Ho Hs) as Hw.
  destruct (read_at content (offset entry) (size entry)) as [data pos].
  cbn [fst] in Hw. subst data.
  destruct (is_packed entry); [|reflexivity].
  destruct (decompress _) as [[d a]|e]; reflexivity.
Qed.

Lemma regular_record_window_witness :
  _extract_regular failing_decompress example_container overlong_entry
  = Ok (skipn 8 example_container).
Proof.
  rewrite (proj1 (regular_record_window failing_decompress
                    example_container overlong_entry
                    ltac:(cbn; lia) ltac:(cbn; lia))).
  vm_compute. reflexivity.
Defined.

Lemma decrypt_length (buffer : list byte) (offset length : Z)
    (routine buffer' : list byte) :
  0 <= offset -> 0 <= length ->
  decrypt buffer offset length routine = Ok buffer' ->
  List.length buffer' = List.length buffer.
Proof.
  intros Ho Hl. unfold decrypt.
  destruct (decrypt_data _ routine) as [data|e] eqn:E; cbn [bind];
    [|discriminate].
  intros [= <-]. apply decrypt_data_length in E.
  rewrite slice_length in E.
  pose proof (clamp_le (len buffer) offset ltac:(unfold len; lia)).
  pose proof (clamp_le (len buffer) (offset + length) ltac:(unfold len; lia)).
  assert ((clamp (len buffer) offset
           <= clamp (len buffer) (offset + length))%nat).
  { unfold clamp.
    destruct (Z.ltb_spec offset 0); [lia|].
    destruct (Z.ltb_spec (offset + length) 0); lia. }
  rewrite Nat.max_r by assumption.
  rewrite !length_app, length_firstn, E, length_skipn.
  unfold len in *. lia.
Qed.

(** X11.  For a script record whose 12-byte header lies inside the file,
    the header always decrypts, and outside the split case the output is:
    with a window size of 0, the decrypted header followed by the
    [entry.size] bytes stored after the header, so 12 bytes more than
    were read after it; with another window size, and a value [U] at
    offset 4 of the decrypted header that is 0 or not below
    [entry.unpacked_size], the first component of what the decompressor
    returns for those [entry.size] bytes, or nothing when it raises. *)
Theorem script_record_unsplit {Aux : Type}
    (decompress : list byte -> result (list byte * Aux))
    (routine content : list byte) (entry : EmEntry) :
  length routine = 40%nat ->
  0 <= offset entry -> offset entry + 12 <= len content ->
  0 <= size entry ->
  exists header,
    decrypt_data (slice content (offset entry) (offset entry + 12)) routine
    = Ok header /\
    len header = 12 /\
    (lzss_frame_size entry = 0 ->
     _extract_script decompress routine content entry
     = Ok (header ++ slice content (offset entry + 12)
                       (offset entry + 12 + size entry))) /\
    (lzss_frame_size entry <> 0 ->
     ~ 0 < slot_field header 4 4 < unpacked_size entry ->
     _extract_script decompress routine content entry
     = (d <- decompress (slice content (offset entry + 12)
                           (offset entry + 12 + size entry)) ;;
        Ok (fst d))).
Proof.
  intros Hr Hoff Hfile Hsize.
  destruct (read_at_slice content (offset entry) 12 Hoff ltac:(lia) Hfile)
    as (Hrd & Hrdl).
  destruct (decrypt_header (fst (read_at content (offset entry) 12)) routine
              Hr Hrdl) as (header & Hdec & Hdd & Hhl).
  exists header. split; [rewrite <- Hrd; exact Hdd|].
  split; [exact Hhl|].
  pose proof (read_at_window content (offset entry + 12) (size entry)
                ltac:(lia) Hsize) as Hw.
  split.
  - intros Hframe.
    unfold _extract_script, f_seek.
    destruct (Z.ltb_spec (offset entry) 0); [lia|]. cbn [bind].
    rewrite f_read_ok by lia. cbn [bind].
    destruct (read_at content (offset entry) 12) as [raw pos].
    cbn [fst] in Hdec. rewrite Hdec. cbn [bind].
    rewrite Hframe. cbn [Z.eqb].
    destruct (Z.ltb_spec (offset entry + 12) 0); [lia|]. cbn [bind].
    rewrite f_read_ok by lia. cbn [bind].
    destruct (read_at content (offset entry + 12) (size entry)) as [rest p].
    cbn [fst] in Hw. rewrite Hw. reflexivity.
  - intros Hframe HU.
    unfold _extract_script, f_seek.
    destruct (Z.ltb_spec (offset entry) 0); [lia|]. cbn [bind].
    rewrite f_read_ok by lia. cbn [bind].
    destruct (read_at content (offset entry) 12) as [raw pos].
    cbn [fst] in Hdec. rewrite Hdec. cbn [bind].
    destruct (Z.eqb_spec (lzss_frame_size entry) 0); [contradiction|].
    rewrite (unpack_from_inside 4 header 4) by lia.
    cbn [bind]. change (4 + Z.of_nat 4) with (4 + 4).
    fold (slot_field header 4 4).
    pose proof (le_decode_range (slice header 4 (4 + 4))) as HUr.
    fold (slot_field header 4 4) in HUr.
    replace (negb (slot_field header 4 4 =? 0)
             && (slot_field header 4 4 <? unpacked_size entry)) with false.
    2:{ destruct (Z.eqb_spec (slot_field header 4 4) 0); [reflexivity|].
        destruct (Z.ltb_spec (slot_field header 4 4) (unpacked_size entry));
          [lia|reflexivity]. }
    destruct (Z.ltb_spec (offset entry + 12) 0); [lia|]. cbn [bind].
    rewrite f_read_ok by lia. cbn [bind].
    destruct (read_at content (offset entry + 12) (size entry)) as [rest p].
    cbn [fst] in Hw. rewrite Hw.
    destruct (decompress _) as [[d a]|e]; reflexivity.
Qed.

Lemma script_record_unsplit_witness :
  _extract_script failing_decompress (repeat x00 40) example_container
    plain_script_entry
  = Ok (slice example_container 8 23).
Proof.
  destruct (script_record_unsplit failing_decompress
              (repeat x00 40) example_container plain_script_entry
              eq_refl ltac:(cbn; lia) ltac:(vm_compute; discriminate)
              ltac:(cbn; lia))
    as (header & Hh & _ & H0 & _).
  rewrite (H0 eq_refl).
  vm_compute in Hh. injection Hh as <-.
  vm_compute. reflexivity.
Defined.

(** X12.  A script record with a window size other than 0 whose header is
    cut short by the end of the file, with fewer than 8 bytes left at
    [entry.offset], is never written: decrypting the header or reading
    the value at its offset 4 raises, before any call of the
    decompressor. *)
Theorem script_record_short_header {Aux : Type}
    (decompress : list byte -> result (list byte * Aux))
    (routine content : list byte) (entry : EmEntry) :
  0 <= offset entry -> len content - offset entry < 8 ->
  lzss_frame_size entry <> 0 ->
  exists err,
    _extract_script decompress routine content entry = Raise err.
Proof.
  intros Hoff Hshort Hframe.
  unfold _extract_script, f_seek.
  destruct (Z.ltb_spec (offset entry) 0); [lia|]. cbn [bind].
  rewrite f_read_ok by lia. cbn [bind].
  pose proof (read_at_length content (offset entry) 12 Hoff ltac:(lia)) as Hl.
  destruct (read_at content (offset entry) 12) as [raw pos].
  cbn [fst] in Hl.
  destruct (decrypt raw 0 12 routine) as [header|e] eqn:E; cbn [bind];
    [|exists e; reflexivity].
  apply decrypt_length in E; [|lia|lia].
  destruct (Z.eqb_spec (lzss_frame_size entry) 0); [contradiction|].
  exists StructError.
  unfold unpack_from, struct_offset. cbn [Z.ltb Z.compare orb].
  destruct (Z.ltb_spec (len header - 4) (Z.of_nat 4)) as [_|H4];
    [reflexivity|].
  unfold len in *. lia.
Qed.

Lemma script_record_short_header_witness :
  exists err,
    _extract_script identity_decompress (repeat x00 40)
      example_container cut_script_entry
    = Raise err.
Proof.
  apply script_record_short_header.
  - vm_compute. discriminate.
  - vm_compute. reflexivity.
  - cbn. discriminate.
Defined.

(* ================================================================== *)
(** ** What the coroutine decoder keeps count of *)
(* ================================================================== *)

Section CoroutineInvariant.

Variable J : costate -> Prop.

Hypothesis J_read : forall s b rest,
  J s -> co_input s = b :: rest -> J (co_set_input s rest).

Hypothesis J_literal : forall s b rest,
  J s -> co_input s = b :: rest -> J (co_emit b (co_set_input s rest)).

Hypothesis J_match : forall s lo hi rest,
  J s -> co_input s = lo :: hi :: rest ->
  J (co_emits (match_length hi) (match_offset lo hi) (co_set_input s rest)).

Lemma co_bit_invariant (ctl bit : Z) (s : costate) :
  co_ok s -> J s -> J (final (co_bit 4095 ctl bit s)).
Proof.
  intros Hok HJ. rewrite co_bit_eq by exact Hok.
  destruct (negb (Z.land ctl (Z.shiftl 1 bit) =? 0)).
  - destruct (co_input s) as [|b rest] eqn:Ei; cbn [final].
    + exact HJ.
    + apply (J_literal s b rest HJ Ei).
  - destruct (co_input s) as [|lo [|hi rest]] eqn:Ei; cbn [final].
    + exact HJ.
    + apply (J_read s lo [] HJ Ei).
    + apply (J_match s lo hi rest HJ Ei).
Qed.

Lemma co_bits_invariant (ctl : Z) (bits : list Z) :
  forall s, co_ok s -> J s -> J (final (each bits (co_bit 4095 ctl) s)).
Proof.
  induction bits as [|bit bits IH]; intros s Hok HJ; cbn [each].
  - exact HJ.
  - pose proof (co_bit_invariant ctl bit s Hok HJ) as HJ'.
    pose proof (co_bit_good ctl bit s Hok) as Hg.
    destruct (co_bit 4095 ctl bit s) as [s'|s'|e s']; cbn [final] in *.
    + apply IH; [apply Hg|exact HJ'].
    + exact HJ'.
    + exact HJ'.
Qed.

Lemma co_while_invariant (fuel : nat) :
  forall s f,
    co_ok s -> J s -> co_while fuel 4095 s = Some f -> J (final f).
Proof.
  induction fuel as [|fuel IH]; intros s f Hok HJ; cbn [co_while];
    [discriminate|].
  unfold co_read.
  destruct (co_input s) as [|ctl rest] eqn:Ei.
  - intros [= <-]. exact HJ.
  - change {| co_input := rest; co_buffer := co_buffer s;
              co_pos := co_pos s; co_length := co_length s;
              co_frame := co_frame s; co_frame_pos := co_frame_pos s;
              co_yields := co_yields s |} with (co_set_input s rest).
    pose proof (J_read s ctl rest HJ Ei) as HJ1.
    pose proof (co_bits_invariant (ord ctl) (range 8) (co_set_input s rest)
                  Hok HJ1) as HJ'.
    pose proof (co_bits_good (ord ctl) (range 8) (co_set_input s rest) Hok)
      as Hg.
    destruct (each (range 8) (co_bit 4095 (ord ctl)) (co_set_input s rest))
      as [s'|s'|e s']; cbn [final] in *.
    + apply IH; [apply Hg|exact HJ'].
    + intros [= <-]. exact HJ'.
    + intros [= <-]. exact HJ'.
Qed.

End CoroutineInvariant.

Lemma co_counted_emit (n : Z) (v : byte) (s : costate) :
  co_counted n s -> co_counted n (co_emit v s).
Proof.
  intros (Hp & Hl & Hy). unfold co_counted.
  cbn [co_emit co_pos co_length co_buffer co_yields].
  unfold len in *. rewrite length_app. cbn [length].
  split; [lia|]. split; [lia|].
  rewrite Hy, Hl, Hp.
  destruct (Z.eqb_spec (n - Z.of_nat (length (co_buffer s)) - 1) 0) as [E|E].
  - destruct (Z.ltb_spec 0 n); [|lia].
    destruct (Z.leb_spec n (Z.of_nat (length (co_buffer s)))); [lia|].
    destruct (Z.leb_spec n (Z.of_nat (length (co_buffer s) + 1))); [|lia].
    cbn [andb app]. f_equal. lia.
  - destruct (Z.ltb_spec 0 n); cbn [andb]; [|reflexivity].
    destruct (Z.leb_spec n (Z.of_nat (length (co_buffer s))));
      destruct (Z.leb_spec n (Z.of_nat (length (co_buffer s) + 1)));
      try reflexivity; lia.
Qed.

Lemma co_counted_emits (n : Z) (k : nat) :
  forall offset s, co_counted n s -> co_counted n (co_emits k offset s).
Proof.
  induction k as [|k IH]; intros offset s H; cbn [co_emits]; [exact H|].
  apply IH, co_counted_emit, H.
Qed.

Lemma co_emits_length (k : nat) (offset : Z) (s : costate) :
  length (co_buffer (co_emits k offset s))
  = (length (co_buffer s) + k)%nat.
Proof.
  destruct (co_emits_buffer k offset s) as (Hb & _).
  rewrite Hb, length_app, window_copy_length. reflexivity.
Qed.

(** X13.  [LzssCoroutine.unpack] never produces more than nine times the
    number of input bytes: a literal turns one input byte into one output
    byte, and a match turns two into at most 18. *)
Theorem coroutine_expansion_bound (input : list byte) (n : Z) :
  exists s,
    co_unpack default_settings input n = Some (Return s)
    /\ len (co_buffer s) <= 9 * len input.
Proof.
  destruct (co_unpack_returns input n) as (s & Hs & _).
  exists s. split; [exact Hs|].
  pose proof (co_while_invariant
                (fun s => len (co_buffer s) + 9 * len (co_input s)
                          <= 9 * len input)) as H.
  specialize (H ltac:(
    intros s0 b rest H0 Hi; cbv beta in *; rewrite Hi in H0;
    cbn [co_set_input co_buffer co_input]; unfold len in *;
    cbn [length] in H0; lia)).
  specialize (H ltac:(
    intros s0 b rest H0 Hi; cbv beta in *; rewrite Hi in H0;
    cbn [co_emit co_set_input co_buffer co_input]; unfold len in *;
    rewrite length_app; cbn [length] in *; lia)).
  specialize (H ltac:(
    intros s0 lo hi rest H0 Hi; cbv beta in *; rewrite Hi in H0;
    rewrite co_emits_input; unfold len in *;
    rewrite co_emits_length;
    pose proof (match_length_range hi);
    cbn [co_set_input co_buffer co_input length] in *; lia)).
  specialize (H (S (length input)) (co_start default_settings input n)
                (Return s) (co_start_ok input n)).
  cbv beta in H. cbn [final] in H.
  assert (Hfin : len (co_buffer s) + 9 * len (co_input s) <= 9 * len input).
  { apply H; [|exact Hs].
    cbn [co_start co_buffer co_input]. unfold len. cbn [length]. lia. }
  unfold len in *. lia.
Qed.

(** X14.  When [LzssCoroutine.unpack] has run to its end, [self.pos] is
    the number of bytes in [self.buffer], [self.length] is lower than it
    was at the start by that number, and the generator has yielded at most
    once: the value [n], when [self.length] was [n > 0] at the start and
    at least [n] bytes were produced.  With the 0 that the constructor
    stores in [self.length], it never yields. *)
Theorem coroutine_counters (input : list byte) (n : Z) :
  exists s,
    co_unpack default_settings input n = Some (Return s)
    /\ co_pos s = len (co_buffer s)
    /\ co_length s = n - len (co_buffer s)
    /\ co_yields s
       = (if (0 <? n) && (n <=? len (co_buffer s)) then [n] else [])
    /\ (n = 0 -> co_yields s = []).
Proof.
  destruct (co_unpack_returns input n) as (s & Hs & _).
  exists s. split; [exact Hs|].
  assert (H : co_counted n s).
  { apply (co_while_invariant (co_counted n)
             ltac:(intros s0 b rest H0 _; exact H0)
             ltac:(intros s0 b rest H0 _;
                   exact (co_counted_emit n b (co_set_input s0 rest) H0))
             ltac:(intros s0 lo hi rest H0 _;
                   exact (co_counted_emits n _ _ (co_set_input s0 rest) H0))
             (S (length input)) (co_start default_settings input n)
             (Return s) (co_start_ok input n)); [|exact Hs].
    unfold co_counted. cbn [co_start co_pos co_length co_buffer co_yields].
    unfold len. cbn [length].
    split; [reflexivity|]. split; [lia|].
    destruct (Z.ltb_spec 0 n); [|reflexivity].
    destruct (Z.leb_spec n (Z.of_nat 0)); [lia|reflexivity]. }
  destruct H as (Hp & Hl & Hy).
  split; [exact Hp|]. split; [exact Hl|]. split; [exact Hy|].
  intros ->. rewrite Hy. reflexivity.
Qed.

(* ================================================================== *)
(** ** The two decoders agree *)
(* ================================================================== *)

Lemma agree_ok (ol : Z) (rs : rstate) (cs : costate) :
  agree ol rs cs -> r_ok rs /\ co_ok cs /\ len (r_output rs) = ol.
Proof.
  intros (Hf & Hl & Hp & Hi & Hr & Hd & Hb & Ho).
  assert (Hlen : len (r_output rs) = ol).
  { rewrite Ho. unfold len in *. rewrite length_app, repeat_length. lia. }
  split; [|split; [exact Hl|exact Hlen]].
  unfold r_ok. rewrite Hf, Hp, Hlen, Hd.
  split; [exact Hl|]. split; [apply Z.mod_pos_bound; lia|].
  unfold len in *. lia.
Qed.

Lemma agree_stopped (ol : Z) (rs : rstate) (cs : costate) :
  agree ol rs cs -> stopped ol rs (co_buffer cs).
Proof.
  intros (_ & _ & _ & _ & _ & Hd & Hb & Ho).
  unfold stopped, truncated. split; [|lia].
  rewrite Ho. f_equal. symmetry. apply firstn_all2. unfold len in *. lia.
Qed.

Lemma agree_filled (ol : Z) (rs : rstate) (cs : costate) :
  agree ol rs cs -> r_dst rs >= ol ->
  co_ok cs /\ filled ol rs (co_buffer cs).
Proof.
  intros H Hfull. pose proof (agree_ok ol rs cs H) as (_ & Hcok & Hlen).
  destruct H as (_ & _ & _ & _ & Hr & Hd & Hb & Ho).
  split; [exact Hcok|]. unfold filled.
  split; [exact Hr|]. split; [exact Hlen|]. split; [lia|].
  rewrite Ho. replace (Z.to_nat (ol - len (co_buffer cs))) with 0%nat by lia.
  cbn [repeat]. rewrite app_nil_r. apply prefix_refl.
Qed.

Lemma filled_prefix (ol : Z) (rs : rstate) (buf buf' : list byte) :
  filled ol rs buf -> prefix buf buf' -> filled ol rs buf'.
Proof.
  intros (H1 & H2 & H3 & H4) Hp.
  repeat split; try assumption. exact (prefix_trans _ _ _ H4 Hp).
Qed.

Lemma filled_stopped (ol : Z) (rs : rstate) (buf : list byte) :
  filled ol rs buf -> stopped ol rs buf.
Proof.
  intros (_ & Hl & Hd & [t Ht]). unfold stopped, truncated.
  subst buf. unfold len in *. rewrite length_app.
  replace (Z.to_nat ol) with (length (r_output rs) + 0)%nat by lia.
  rewrite firstn_app_2. cbn [firstn]. rewrite app_nil_r.
  replace (Z.to_nat _) with 0%nat by lia.
  cbn [repeat]. rewrite app_nil_r. split; [reflexivity|lia].
Qed.

Lemma agree_emit (ol : Z) (v : byte) (rs : rstate) (cs : costate) :
  agree ol rs cs -> r_dst rs < ol ->
  agree ol (r_emit v rs) (co_emit v cs).
Proof.
  intros (Hf & Hl & Hp & Hi & Hr & Hd & Hb & Ho) Hroom.
  unfold agree.
  cbn [r_emit co_emit r_frame co_frame r_frame_pos co_frame_pos r_input
       co_input r_remaining r_dst co_buffer r_output].
  split; [rewrite Hf, Hp; reflexivity|].
  split; [rewrite replace_at_length;
          [exact Hl|rewrite Hl; apply window_index_lt]|].
  split; [rewrite Hp; apply Z.add_mod_idemp_l; lia|].
  split; [exact Hi|]. split; [exact Hr|].
  unfold len in *. rewrite length_app. cbn [length].
  split; [lia|]. split; [lia|].
  rewrite Ho, Hd. unfold replace_at.
  rewrite Nat2Z.id.
  rewrite firstn_app, firstn_all, Nat.sub_diag. cbn [firstn].
  rewrite app_nil_r, <- app_assoc. f_equal. cbn [app]. f_equal.
  rewrite skipn_app.
  rewrite skipn_all2 by lia. cbn [app].
  replace (S (length (co_buffer cs)) - length (co_buffer cs))%nat
    with 1%nat by lia.
  rewrite skipn_of_repeat. f_equal. lia.
Qed.

Lemma agree_advance (ol : Z) (k : nat) (rs : rstate) (cs : costate)
    (pre rest : list byte) :
  agree ol rs cs -> co_input cs = pre ++ rest -> length pre = k ->
  agree ol (r_advance k rs) (co_set_input cs rest).
Proof.
  intros (Hf & Hl & Hp & Hi & Hr & Hd & Hb & Ho) Hin Hk.
  unfold agree.
  cbn [r_advance r_consume r_take snd co_set_input r_frame co_frame
       r_frame_pos co_frame_pos r_input co_input r_remaining r_dst
       co_buffer r_output].
  repeat (split; [assumption|]).
  assert (Hs : skipn k (r_input rs) = rest).
  { rewrite Hi, Hin, <- Hk. rewrite skipn_app, skipn_all, Nat.sub_diag.
    reflexivity. }
  rewrite Hs.
  split; [reflexivity|].
  split; [|repeat split; assumption].
  rewrite Hr, Hi, Hin. unfold len. rewrite length_app. lia.
Qed.

Lemma copy_sim (ol : Z) (n : nat) :
  forall offset_r offset_c rs cs,
    agree ol rs cs -> offset_r = offset_c mod 4096 ->
    exists rs',
      r_copy n 4095 offset_r rs = Next rs' /\
      (agree ol rs' (co_emits n offset_c cs)
       \/ filled ol rs' (co_buffer (co_emits n offset_c cs))).
Proof.
  induction n as [|n IH]; intros offset_r offset_c rs cs Hag Hoff;
    cbn [r_copy co_emits].
  - exists rs. split; [reflexivity|]. left. exact Hag.
  - pose proof (agree_ok ol rs cs Hag) as (Hrok & Hcok & Hlen).
    rewrite Hlen.
    destruct (Z.geb_spec (r_dst rs) ol) as [Hfull|Hroom].
    + exists rs. split; [reflexivity|]. right.
      destruct (agree_filled ol rs cs Hag ltac:(lia)) as (_ & Hfl).
      apply (filled_prefix ol rs (co_buffer cs)); [exact Hfl|].
      apply (co_emits_prefix (S n) offset_c cs).
    + pose proof (Z.mod_pos_bound offset_c 4096 ltac:(lia)) as Hb.
      pose proof Hag as (Hf & Hl & _).
      rewrite (getitem_inside Bytearray (r_frame rs) offset_r x00)
        by (unfold len; rewrite Hf, Hl; lia).
      cbn [lift].
      rewrite r_put_emit by (try exact Hrok; lia).
      rewrite land_mask.
      replace (nth (Z.to_nat offset_r) (r_frame rs) x00)
        with (nth (window_index offset_c) (co_frame cs) x00)
        by (rewrite Hf, Hoff; reflexivity).
      apply (IH ((offset_r + 1) mod 4096) (offset_c + 1)).
      * apply agree_emit; assumption.
      * rewrite Hoff. apply Z.add_mod_idemp_l. lia.
Qed.

Lemma bit_sim (ol ctl bit : Z) (rs : rstate) (cs : costate) :
  agree ol rs cs -> r_dst rs < ol ->
  sim_out ol (r_bit 4095 ctl bit rs) (co_bit 4095 ctl bit cs).
Proof.
  intros Hag Hroom.
  pose proof (agree_ok ol rs cs Hag) as (Hrok & Hcok & Hlen).
  pose proof Hag as (_ & _ & _ & Hi & Hr & _).
  rewrite co_bit_eq by exact Hcok. unfold r_bit. rewrite Hlen.
  destruct (Z.geb_spec (r_dst rs) ol) as [Hfull|_]; [lia|].
  destruct (negb (Z.land ctl (Z.shiftl 1 bit) =? 0)).
  - destruct (co_input cs) as [|b rest] eqn:Ei.
    + rewrite Hr, Hi. cbn [len length Z.of_nat Z.eqb].
      cbn [sim_out]. apply (agree_stopped ol rs cs Hag).
    + destruct (Z.eqb_spec (r_remaining rs) 0) as [E|_].
      { rewrite Hr, Hi in E. unfold len in E. cbn [length] in E. lia. }
      cbn [r_take]. change (r_consume 1 _) with (r_advance 1 rs).
      rewrite Hi, ?Ei. cbn [firstn].
      pose proof (agree_advance ol 1 rs cs [b] rest Hag Ei eq_refl) as Hag1.
      pose proof (agree_ok ol _ _ Hag1) as (Hrok1 & _ & Hlen1).
      rewrite r_put_emit by (try exact Hrok1; rewrite Hlen1; exact Hroom).
      cbn [sim_out]. left. apply agree_emit; assumption.
  - destruct (co_input cs) as [|lo [|hi rest]] eqn:Ei.
    + rewrite Hr, Hi. cbn [len length Z.of_nat Z.ltb Z.compare].
      cbn [sim_out]. apply (agree_stopped ol rs cs Hag).
    + rewrite Hr, Hi. cbn [len length Z.of_nat Z.ltb Z.compare Pos.compare].
      cbn [sim_out co_set_input co_buffer].
      apply (agree_stopped ol rs cs Hag).
    + destruct (Z.ltb_spec (r_remaining rs) 2) as [E|_].
      { rewrite Hr, Hi in E. unfold len in E. cbn [length] in E. lia. }
      cbn [r_take]. change (r_consume 2 _) with (r_advance 2 rs).
      rewrite Hi, ?Ei. cbn [firstn].
      pose proof (agree_advance ol 2 rs cs [lo; hi] rest Hag Ei eq_refl)
        as Hag2.
      pose proof (match_offset_range lo hi) as Hmo.
      destruct (copy_sim ol (match_length hi) (match_offset lo hi)
                  (match_offset lo hi) _ _ Hag2
                  ltac:(symmetry; apply Z.mod_small; exact Hmo))
        as (rs' & Hc & Hres).
      unfold match_length, match_offset in Hc. rewrite Hc.
      cbn [sim_out].
      destruct Hres as [Hres|Hres]; [left; exact Hres|right].
      split; [|exact Hres].
      apply co_emits_ok. exact Hcok.
Qed.

Lemma filled_vs_co (ol : Z) (rs : rstate) (cs : costate)
    (cf : flow costate) :
  filled ol rs (co_buffer cs) -> co_good cs cf ->
  sim_out ol (Return rs) cf.
Proof.
  intros Hfl Hg. destruct cf as [cs'|cs'|e cs']; cbn [sim_out co_good] in *.
  - destruct Hg as (Hok & Hp & _).
    split; [exact Hok|exact (filled_prefix _ _ _ _ Hfl Hp)].
  - destruct Hg as (_ & Hp).
    exact (filled_stopped _ _ _ (filled_prefix _ _ _ _ Hfl Hp)).
  - exact Hg.
Qed.

Lemma filled_bit (ol ctl bit : Z) (rs : rstate) (buf : list byte) :
  filled ol rs buf -> r_bit 4095 ctl bit rs = Return rs.
Proof.
  intros (_ & Hl & Hd & _). unfold r_bit. rewrite Hl, Hd.
  destruct (Z.geb_spec ol ol); [reflexivity|lia].
Qed.

Lemma each_returns {A S} (body : A -> S -> flow S) (x : A) (xs : list A)
    (s s' : S) :
  body x s = Return s' -> each (x :: xs) body s = Return s'.
Proof. intros H. cbn [each]. rewrite H. reflexivity. Qed.

Lemma bits_sim (ol ctl : Z) (bits : list Z) :
  forall rs cs,
    agree ol rs cs \/ (co_ok cs /\ filled ol rs (co_buffer cs)) ->
    sim_out ol (each bits (r_bit 4095 ctl) rs)
      (each bits (co_bit 4095 ctl) cs).
Proof.
  induction bits as [|bit bits IH]; intros rs cs H.
  - exact H.
  - assert (Hfull : forall rs0 cs0,
               co_ok cs0 -> filled ol rs0 (co_buffer cs0) ->
               sim_out ol (each (bit :: bits) (r_bit 4095 ctl) rs0)
                 (each (bit :: bits) (co_bit 4095 ctl) cs0)).
    { intros rs0 cs0 Hcok Hfl.
      rewrite (each_returns (r_bit 4095 ctl) bit bits rs0 rs0
                 (filled_bit ol ctl bit rs0 _ Hfl)).
      apply (filled_vs_co ol rs0 cs0); [exact Hfl|].
      apply co_bits_good. exact Hcok. }
    destruct H as [Hag|[Hcok Hfl]]; [|exact (Hfull rs cs Hcok Hfl)].
    destruct (Z.lt_ge_cases (r_dst rs) ol) as [Hroom|Hge].
    2:{ destruct (agree_filled ol rs cs Hag ltac:(lia)) as (Hcok & Hfl).
        exact (Hfull rs cs Hcok Hfl). }
    pose proof (bit_sim ol ctl bit rs cs Hag Hroom) as Hb.
    cbn [each].
    destruct (r_bit 4095 ctl bit rs) as [rs'|rs'|e rs'];
      destruct (co_bit 4095 ctl bit cs) as [cs'|cs'|e' cs'];
      cbn [sim_out] in Hb; try contradiction.
    + apply IH. exact Hb.
    + destruct Hb as (Hcok & Hfl).
      apply (filled_vs_co ol rs' cs'); [exact Hfl|].
      apply co_bits_good. exact Hcok.
    + exact Hb.
Qed.

Lemma co_while_extends (fuel : nat) :
  forall s f,
    co_ok s -> co_while fuel 4095 s = Some f ->
    exists s', f = Return s' /\ prefix (co_buffer s) (co_buffer s').
Proof.
  induction fuel as [|fuel IH]; intros s f Hok; cbn [co_while];
    [discriminate|].
  unfold co_read.
  destruct (co_input s) as [|ctl rest] eqn:Ei.
  - intros [= <-]. exists s. split; [reflexivity|apply prefix_refl].
  - change {| co_input := rest; co_buffer := co_buffer s;
              co_pos := co_pos s; co_length := co_length s;
              co_frame := co_frame s; co_frame_pos := co_frame_pos s;
              co_yields := co_yields s |} with (co_set_input s rest).
    pose proof (co_bits_good (ord ctl) (range 8) (co_set_input s rest) Hok)
      as Hg.
    destruct (each (range 8) (co_bit 4095 (ord ctl)) (co_set_input s rest))
      as [s'|s'|e s']; cbn [co_good] in Hg.
    + intros Hw. destruct Hg as (Hok' & Hp & _).
      destruct (IH s' f Hok' Hw) as (r & Hr & Hp').
      exists r. split; [exact Hr|].
      exact (prefix_trans _ _ _ Hp Hp').
    + intros [= <-]. exists s'. split; [reflexivity|apply Hg].
    + destruct Hg.
Qed.

Lemma filled_while (ol : Z) (rs : rstate) (buf : list byte) (fuel : nat) :
  filled ol rs buf -> (Z.to_nat (r_remaining rs) <= fuel)%nat ->
  exists f,
    r_while fuel 4095 rs = Some f /\ ~ raised f /\
    r_output (final f) = r_output rs /\ r_dst (final f) = r_dst rs.
Proof.
  intros Hfl Hfuel. pose proof Hfl as (Hr & Hl & Hd & _).
  destruct fuel as [|fuel]; cbn [r_while].
  - destruct (Z.gtb_spec (r_remaining rs) 0); [lia|].
    exists (Next rs). repeat split. intros [].
  - destruct (Z.gtb_spec (r_remaining rs) 0) as [Hpos|_].
    + cbn [r_take].
      destruct (r_input rs) as [|ctl rest] eqn:Ei.
      { rewrite Hr in Hpos. unfold len in Hpos. cbn [length] in Hpos. lia. }
      cbn [firstn skipn]. change (range 8) with (0 :: map Z.of_nat (seq 1 7)).
      cbn [each]. unfold r_bit at 1.
      cbn [r_consume r_dst r_output]. rewrite Hl, Hd.
      destruct (Z.geb_spec ol ol); [|lia].
      eexists. split; [reflexivity|].
      cbn [final r_output r_dst raised]. repeat split. intros [].
    + exists (Next rs). repeat split. intros [].
Qed.

Lemma while_sim (ol : Z) (fuel_c : nat) :
  forall cs cfin,
    co_while fuel_c 4095 cs = Some (Return cfin) ->
    forall fuel_r rs,
      agree ol rs cs -> (Z.to_nat (r_remaining rs) <= fuel_r)%nat ->
      exists f,
        r_while fuel_r 4095 rs = Some f /\ ~ raised f /\
        stopped ol (final f) (co_buffer cfin).
Proof.
  induction fuel_c as [|fuel_c IH]; intros cs cfin; cbn [co_while];
    [discriminate|].
  unfold co_read.
  destruct (co_input cs) as [|ctl rest] eqn:Ei.
  - intros [= <-] fuel_r rs Hag _.
    pose proof Hag as (_ & _ & _ & Hi & Hr & _).
    assert (Hz : r_remaining rs = 0)
      by (rewrite Hr, Hi, Ei; reflexivity).
    exists (Next rs). split.
    { destruct fuel_r; cbn [r_while]; rewrite Hz; reflexivity. }
    split; [intros []|]. apply (agree_stopped ol rs cs Hag).
  - change {| co_input := rest; co_buffer := co_buffer cs;
              co_pos := co_pos cs; co_length := co_length cs;
              co_frame := co_frame cs; co_frame_pos := co_frame_pos cs;
              co_yields := co_yields cs |} with (co_set_input cs rest).
    intros Hco fuel_r rs Hag Hfuel.
    pose proof Hag as (_ & _ & _ & Hi & Hr & _).
    assert (Hrem : r_remaining rs = 1 + len rest).
    { rewrite Hr, Hi, Ei. unfold len. cbn [length]. lia. }
    destruct fuel_r as [|fuel_r]; [unfold len in *; lia|].
    cbn [r_while].
    destruct (Z.gtb_spec (r_remaining rs) 0) as [_|E];
      [|unfold len in *; lia].
    cbn [r_take]. change (r_consume 1 _) with (r_advance 1 rs).
    rewrite Hi, ?Ei. cbn [firstn].
    pose proof (agree_advance ol 1 rs cs [ctl] rest Hag Ei eq_refl) as Hag1.
    pose proof (agree_ok ol _ _ Hag1) as (Hrok1 & Hcok1 & _).
    pose proof (bits_sim ol (ord ctl) (range 8) _ _ (or_introl Hag1)) as Hs.
    pose proof (r_bits_good (ord ctl) (range 8) (r_advance 1 rs) Hrok1)
      as (_ & (_ & _ & _ & _ & Hdec) & _).
    assert (Hrem1 : r_remaining (r_advance 1 rs) = len rest).
    { cbn [r_advance r_consume r_take snd r_remaining]. lia. }
    destruct (each (range 8) (r_bit 4095 (ord ctl)) (r_advance 1 rs))
      as [rs'|rs'|e rs'];
      destruct (each (range 8) (co_bit 4095 (ord ctl))
                  (co_set_input cs rest)) as [cs'|cs'|e' cs'];
      cbn [sim_out final] in Hs, Hdec; try contradiction.
    + destruct Hs as [Hag'|[Hcok' Hfl]].
      * apply (IH cs' cfin Hco fuel_r rs' Hag'). lia.
      * destruct (co_while_extends fuel_c cs' _ Hcok' Hco)
          as (s' & [= <-] & Hp).
        destruct (filled_while ol rs' _ fuel_r Hfl ltac:(lia))
          as (f & Hf & Hnr & Hout & Hdst).
        exists f. split; [exact Hf|]. split; [exact Hnr|].
        pose proof (filled_stopped ol rs' _ (filled_prefix _ _ _ _ Hfl Hp))
          as (H1 & H2).
        split; [rewrite Hout; exact H1|rewrite Hdst; exact H2].
    + destruct Hs as (Hcok' & Hfl).
      destruct (co_while_extends fuel_c cs' _ Hcok' Hco)
        as (s' & [= <-] & Hp).
      exists (Return rs'). split; [reflexivity|]. split; [intros []|].
      exact (filled_stopped ol rs' _ (filled_prefix _ _ _ _ Hfl Hp)).
    + injection Hco as <-.
      exists (Return rs'). split; [reflexivity|]. split; [intros []|].
      exact Hs.
Qed.

Lemma reader_built (stream : list byte) (input_length output_length : Z) :
  0 <= output_length ->
  exists r,
    LzssReader stream input_length output_length = Ok r /\
    rd_size r = input_length /\
    rd_frame_size r = 0x1000 /\
    (0 <= input_length <= len stream ->
     forall n,
       agree output_length (r_start r)
         (co_start default_settings
            (firstn (Z.to_nat input_length) stream) n)).
Proof.
  intros Hol. unfold LzssReader.
  destruct (Z.ltb_spec output_length 0); [lia|].
  eexists. split; [reflexivity|]. split; [reflexivity|].
  split; [reflexivity|].
  intros Hil n. unfold agree.
  cbn [r_start co_start default_settings r_frame co_frame r_frame_pos
       co_frame_pos r_input co_input r_remaining r_dst co_buffer
       r_output rd_input rd_output rd_size rd_frame_size rd_frame_fill
       rd_frame_init_pos frame_fill frame_size frame_init_pos].
  unfold stream_read.
  destruct (Z.ltb_spec input_length 0); [lia|].
  split; [reflexivity|]. split; [apply repeat_length|].
  split; [reflexivity|]. split; [reflexivity|].
  split.
  { unfold len in *. rewrite length_firstn. lia. }
  unfold len. cbn [length app].
  split; [reflexivity|]. split; [lia|].
  f_equal. lia.
Qed.

(** X15.  The two decoders compute the same thing.  For an input length
    that is not negative and not beyond the end of the stream, and an
    output length that is not negative, [LzssReader.unpack] ends without
    raising, and its output buffer holds the first [output_length] bytes
    that [LzssCoroutine.unpack] produces from the first [input_length]
    bytes of the stream, with zero bytes after them when the coroutine
    produces fewer; the write position ends at the smaller of the two
    lengths. *)
Theorem reader_matches_coroutine (stream : list byte)
    (input_length output_length n : Z) :
  0 <= input_length <= len stream -> 0 <= output_length ->
  exists r f s,
    LzssReader stream input_length output_length = Ok r /\
    r_unpack r = Some f /\
    ~ raised f /\
    co_unpack default_settings (firstn (Z.to_nat input_length) stream) n
    = Some (Return s) /\
    r_output (final f) = truncated output_length (co_buffer s) /\
    r_dst (final f) = Z.min output_length (len (co_buffer s)).
Proof.
  intros Hil Hol.
  destruct (co_unpack_returns (firstn (Z.to_nat input_length) stream) n)
    as (s & Hs & _).
  destruct (reader_built stream input_length output_length Hol)
    as (r & Hr & Hsize & Hframe & Hag).
  destruct (while_sim output_length _ _ s Hs
              (Z.to_nat (rd_size r)) (r_start r) (Hag Hil n))
    as (f & Hf & Hnr & Hout & Hdst).
  { cbn [r_start r_remaining]. lia. }
  exists r, f, s. split; [exact Hr|].
  split; [unfold r_unpack; rewrite Hframe; exact Hf|].
  split; [exact Hnr|]. split; [exact Hs|]. split; assumption.
Qed.

Lemma reader_matches_coroutine_witness :
  exists r f s,
    LzssReader [x01; x41; x00; x00] 4 6 = Ok r /\
    r_unpack r = Some f /\
    ~ raised f /\
    co_unpack default_settings [x01; x41; x00; x00] 0 = Some (Return s) /\
    r_output (final f) = truncated 6 (co_buffer s) /\
    r_dst (final f) = Z.min 6 (len (co_buffer s)).
Proof.
  apply (reader_matches_coroutine [x01; x41; x00; x00] 4 6 0).
  - vm_compute. split; discriminate.
  - lia.
Defined.

(* ================================================================== *)
(** ** Input lengths that do not fit the stream *)
(* ================================================================== *)

Lemma r_copy_keeps (n : nat) (frame_mask : Z) :
  forall offset s s',
    r_copy n frame_mask offset s = Next s' ->
    r_input s' = r_input s /\ r_remaining s' = r_remaining s.
Proof.
  induction n as [|n IH]; intros offset s s'; cbn [r_copy].
  - intros [= <-]. split; reflexivity.
  - destruct (r_dst s >=? len (r_output s)).
    { intros [= <-]. split; reflexivity. }
    destruct (getitem Bytearray (r_frame s) offset) as [v|e]; cbn [lift];
      [|discriminate].
    unfold r_put.
    destruct (setitem Bytearray (r_frame s) (r_frame_pos s) v) as [fr|e];
      cbn [lift]; [|discriminate].
    cbn [r_output r_dst].
    destruct (setitem Bytearray (r_output s) (r_dst s) v) as [out|e];
      cbn [lift]; [|discriminate].
    intros H. apply IH in H.
    cbn [r_input r_remaining] in H. exact H.
Qed.

Lemma overdeclared_bit (d ctl bit : Z) (s : rstate) :
  1 <= d -> overdeclared d s ->
  match r_bit 4095 ctl bit s with
  | Next s' => overdeclared d s'
  | stop => overrun d stop
  end.
Proof.
  intros Hd (Hok & Hrem). pose proof Hok as (Hf & Hp & Hdst).
  unfold r_bit.
  destruct (Z.geb_spec (r_dst s) (len (r_output s))) as [Hfull|Hroom].
  { cbn [overrun]. left. lia. }
  destruct (negb (Z.land ctl (Z.shiftl 1 bit) =? 0)).
  - destruct (Z.eqb_spec (r_remaining s) 0) as [E|_].
    { unfold len in *. lia. }
    cbn [r_take]. change (r_consume 1 _) with (r_advance 1 s).
    destruct (r_input s) as [|b rest] eqn:Ei; cbn [firstn].
    + cbn [overrun r_input skipn]. left. split; reflexivity.
    + rewrite r_put_emit by (try apply r_advance_ok; assumption).
      destruct (r_emit_ok b (r_advance 1 s) (r_advance_ok 1 s Hok) Hroom)
        as (Hok' & _).
      split; [exact Hok'|].
      cbn [r_emit r_advance r_consume r_take snd r_input r_remaining].
      rewrite Ei, Hrem. cbn [skipn]. unfold len. cbn [length]. lia.
  - destruct (Z.ltb_spec (r_remaining s) 2) as [E|E].
    { cbn [overrun]. right.
      destruct (r_input s) as [|b rest]; [split; [|reflexivity]|];
        unfold len in *; cbn [length] in *; lia. }
    cbn [r_take]. change (r_consume 2 _) with (r_advance 2 s).
    destruct (r_input s) as [|lo [|hi rest]] eqn:Ei; cbn [firstn].
    + cbn [overrun r_input skipn]. right. split; [reflexivity|cbn; lia].
    + cbn [overrun r_input skipn]. right. split; [reflexivity|cbn; lia].
    + destruct (r_copy_good (Z.to_nat (3 + Z.land (ord hi) 15))
                  (Z.lor (Z.shiftl (Z.land (ord hi) 240) 4) (ord lo))
                  (r_advance 2 s) (match_offset_range lo hi)
                  (r_advance_ok 2 s Hok)) as (s' & Hs' & Hok' & _).
      rewrite Hs'. apply r_copy_keeps in Hs'. destruct Hs' as (Hi' & Hr').
      split; [exact Hok'|]. rewrite Hi', Hr'.
      cbn [r_advance r_consume r_take snd r_input r_remaining].
      rewrite Ei, Hrem. cbn [skipn]. unfold len. cbn [length]. lia.
Qed.

Lemma overdeclared_bits (d ctl : Z) (bits : list Z) :
  1 <= d ->
  forall s,
    overdeclared d s ->
    match each bits (r_bit 4095 ctl) s with
    | Next s' => overdeclared d s'
    | stop => overrun d stop
    end.
Proof.
  intros Hd. induction bits as [|bit bits IH]; intros s H; cbn [each].
  - exact H.
  - pose proof (overdeclared_bit d ctl bit s Hd H) as Hb.
    destruct (r_bit 4095 ctl bit s) as [s'|s'|e s'].
    + apply IH. exact Hb.
    + exact Hb.
    + exact Hb.
Qed.

Lemma overdeclared_while (d : Z) (fuel : nat) :
  1 <= d ->
  forall s f,
    overdeclared d s -> r_while fuel 4095 s = Some f -> overrun d f.
Proof.
  intros Hd. induction fuel as [|fuel IH]; intros s f H;
    pose proof H as (Hok & Hrem); cbn [r_while];
    (destruct (Z.gtb_spec (r_remaining s) 0) as [_|E];
     [|unfold len in *; lia]); [discriminate|].
  cbn [r_take]. change (r_consume 1 _) with (r_advance 1 s).
  destruct (r_input s) as [|ctl rest] eqn:Ei; cbn [firstn].
  - intros [= <-]. cbn [overrun r_input skipn]. left. split; reflexivity.
  - assert (H1 : overdeclared d (r_advance 1 s)).
    { split; [apply r_advance_ok; exact Hok|].
      cbn [r_advance r_consume r_take snd r_input r_remaining].
      rewrite Ei, Hrem. cbn [skipn]. unfold len. cbn [length]. lia. }
    pose proof (overdeclared_bits d (ord ctl) (range 8) Hd _ H1) as Hb.
    destruct (each (range 8) (r_bit 4095 (ord ctl)) (r_advance 1 s))
      as [s'|s'|e s'].
    + apply IH. exact Hb.
    + intros [= <-]. exact Hb.
    + intros [= <-]. exact Hb.
Qed.

(** X16.  When [input_length] is larger than the number of bytes the
    stream holds, [LzssReader.unpack] never leaves its [while] loop at
    the loop test.  It ends in one of these ways: it returns with the
    output buffer full; it raises [IndexError] at a control byte or a
    literal read from the exhausted input; it raises [ValueError] at a
    match token with fewer than two bytes left; or, when exactly one byte
    is missing, it returns at a match token with no input left. *)
Theorem reader_input_overdeclared (stream : list byte)
    (input_length output_length : Z) :
  len stream < input_length -> 0 <= output_length ->
  exists r f,
    LzssReader stream input_length output_length = Ok r /\
    r_unpack r = Some f /\
    overrun (input_length - len stream) f.
Proof.
  intros Hil Hol.
  destruct (r_unpack_good stream input_length output_length Hol)
    as (r & f & Hr & Hf & _).
  exists r, f. split; [exact Hr|]. split; [exact Hf|].
  unfold LzssReader in Hr.
  destruct (Z.ltb_spec output_length 0); [lia|]. injection Hr as <-.
  match type of Hf with
  | r_unpack ?r = _ =>
      apply (overdeclared_while (input_length - len stream)
               (Z.to_nat input_length) ltac:(lia) (r_start r) f);
        [|exact Hf]
  end.
  split.
  - unfold r_ok.
    cbn [r_start r_frame r_frame_pos r_dst r_output rd_frame_fill
         rd_frame_size rd_frame_init_pos rd_output].
    split; [apply repeat_length|]. split; [lia|]. unfold len. lia.
  - cbn [r_start r_remaining r_input rd_size rd_input].
    unfold stream_read. destruct (Z.ltb_spec input_length 0);
      [unfold len in *; lia|].
    rewrite firstn_all2 by (unfold len in *; lia). lia.
Qed.

Lemma reader_input_overdeclared_witness :
  exists r f,
    LzssReader [x01; x41] 3 4 = Ok r /\
    r_unpack r = Some f /\
    overrun (3 - len [x01; x41]) f.
Proof.
  apply (reader_input_overdeclared [x01; x41] 3 4).
  - vm_compute. reflexivity.
  - lia.
Defined.

(* ================================================================== *)
(** ** From [open] to [extract] and [main] *)
(* ================================================================== *)

Lemma regular_stored {Aux : Type}
    (decompress : list byte -> result (list byte * Aux))
    (content : list byte) (e : EmEntry) :
  0 <= offset e -> 0 <= size e -> is_packed e = false ->
  _extract_regular decompress content e
  = Ok (slice content (offset e) (offset e + size e)).
Proof.
  intros Ho Hs Hp. unfold _extract_regular, f_seek.
  destruct (Z.ltb_spec (offset e) 0); [lia|]. cbn [bind].
  rewrite f_read_ok by lia. cbn [bind].
  pose proof (read_at_window content (offset e) (size e) Ho Hs) as Hw.
  destruct (read_at content (offset e) (size e)) as [data pos].
  cbn [fst] in Hw. subst data. rewrite Hp. reflexivity.
Qed.

(** The two readings of [_extract_script] agree: under an operating
    system that refuses nothing, what the method writes to the output
    file, all writes together, is the result of the first reading; and
    when that is an exception, the method ends with it. *)
Lemma script_output_agrees {Aux : Type}
    (decompress : list byte -> result (list byte * Aux)) (os : opsys)
    (routine content : list byte) (entry : EmEntry) (output_dir : string)
    (log : oslog) :
  (forall h op, os h op = None) ->
  match _extract_script decompress routine content entry with
  | Ok data =>
      exists chunks,
        _extract_script_to decompress os routine content entry output_dir
          log
        = Next (log ++ OpenOutput output_dir (name entry)
                       :: map (WriteOutput output_dir (name entry)) chunks
                       ++ [CloseOutput output_dir (name entry)])
        /\ concat chunks = data
  | Raise x =>
      exists log',
        _extract_script_to decompress os routine content entry output_dir
          log
        = Throw x log'
  end.
Proof.
  intros Hos. unfold _extract_script, _extract_script_to.
  destruct (f_seek (offset entry)) as [pos|x]; cbn [bind lift];
    [|eexists; reflexivity].
  destruct (f_read content pos 12) as [[raw p]|x]; cbn [bind lift];
    [|eexists; reflexivity].
  destruct (decrypt raw 0 12 routine) as [header|x]; cbn [bind lift];
    [|eexists; reflexivity].
  destruct (lzss_frame_size entry =? 0).
  - unfold with_output, attempt. repeat rewrite Hos.
    destruct (f_seek (offset entry + 12)) as [pos'|x]; cbn [bind lift].
    2:{ repeat rewrite Hos. eexists. reflexivity. }
    destruct (f_read content pos' (size entry)) as [[rest p']|x];
      cbn [bind lift].
    2:{ repeat rewrite Hos. eexists. reflexivity. }
    repeat rewrite Hos. exists [header; rest]. split.
    + rewrite <- !app_assoc. reflexivity.
    + cbn [concat]. rewrite app_nil_r. reflexivity.
  - destruct (unpack_from 4 header 4) as [u|x]; cbn [bind lift];
      [|eexists; reflexivity].
    destruct (negb (u =? 0) && (u <? unpacked_size entry)).
    + destruct (unpack_from 4 header 0) as [packed|x]; cbn [bind lift];
        [|eexists; reflexivity].
      destruct (f_seek (offset entry + 12 + packed)) as [p1|x];
        cbn [bind lift]; [|eexists; reflexivity].
      destruct (f_read content p1 (size entry - packed)) as [[c1 q1]|x];
        cbn [bind lift]; [|eexists; reflexivity].
      destruct (decompress c1) as [[d1 a1]|x]; cbn [bind lift];
        [|eexists; reflexivity].
      destruct (f_seek (offset entry + 12)) as [p2|x];
        cbn [bind lift]; [|eexists; reflexivity].
      destruct (f_read content p2 packed) as [[c2 q2]|x];
        cbn [bind lift]; [|eexists; reflexivity].
      destruct (decompress c2) as [[d2 a2]|x]; cbn [bind lift];
        [|eexists; reflexivity].
      unfold with_output, attempt. repeat rewrite Hos. cbn [fst snd].
      repeat rewrite Hos.
      exists [slice d1 0 (unpacked_size entry - u); d2]. split.
      * rewrite <- !app_assoc. reflexivity.
      * cbn [concat]. rewrite app_nil_r. reflexivity.
    + destruct (f_seek (offset entry + 12)) as [p1|x];
        cbn [bind lift]; [|eexists; reflexivity].
      destruct (f_read content p1 (size entry)) as [[c1 q1]|x];
        cbn [bind lift]; [|eexists; reflexivity].
      destruct (decompress c1) as [[d1 a1]|x]; cbn [bind lift];
        [|eexists; reflexivity].
      unfold with_output, attempt. repeat rewrite Hos.
      exists [d1]. split.
      * rewrite <- !app_assoc. reflexivity.
      * cbn [concat]. rewrite app_nil_r. reflexivity.
Qed.

Lemma extract_stored_entry {Aux : Type}
    (decompress : list byte -> result (list byte * Aux)) (os : opsys)
    (self : EmeArchive) (content : list byte) (output_dir : string)
    (e : EmEntry) (log : oslog) :
  well_formed e -> sub_type e <> 3 -> is_packed e = false ->
  extract_entry decompress os self content output_dir e log
  = stored_steps os content output_dir e log.
Proof.
  intros (_ & _ & Ho & Hs & _) Hsub Hp.
  unfold extract_entry, stored_steps, _extract_regular_to.
  destruct (Z.eqb_spec (sub_type e) 3); [contradiction|].
  rewrite (regular_stored decompress content e) by (lia || exact Hp).
  unfold with_output, attempt. cbn [each lift].
  repeat match goal with
         | |- context [os ?l ?o] => destruct (os l o)
         end; reflexivity.
Qed.

Lemma extract_willing {Aux : Type}
    (decompress : list byte -> result (list byte * Aux)) (os : opsys)
    (self : EmeArchive) (content : list byte) (output_dir : string)
    (es : list EmEntry) :
  (forall h op, os h op = None) ->
  Forall well_formed es ->
  (forall e, In e es -> sub_type e <> 3 /\ is_packed e = false) ->
  forall log,
    fold_left
      (fun log e => extract_entry decompress os self content output_dir e log)
      es log
    = log ++ flat_map (stored_ops content output_dir) es.
Proof.
  intros Hos Hwf. induction Hwf as [|e es He Hes IH]; intros Hall log;
    cbn [fold_left flat_map].
  - symmetry. apply app_nil_r.
  - destruct (Hall e (or_introl eq_refl)) as (Hsub & Hp).
    rewrite (extract_stored_entry decompress os self content output_dir e
               log He Hsub Hp).
    rewrite IH by (intros e0 He0; apply Hall; right; exact He0).
    unfold stored_steps, attempt. cbn [each]. rewrite !Hos.
    cbn [final]. rewrite <- !app_assoc. reflexivity.
Qed.

(** X17.  After a successful [open] of a fresh archive, under every
    operating system and with every decompressor: [extract] first makes
    the output directory, and an exception of that ends [extract]; else
    it runs the loop body once per entry, in the order of the index, and
    ends without an exception.  For an entry that is neither a script nor
    packed the loop body makes the parent directory, prints the message
    and opens the output file, stopping at the first of these that is
    refused; then it hands the [size] bytes of the archive at [offset] to
    the file in one write and closes it.  What is refused for one entry
    ends the work on that entry only.  When nothing is refused and no
    entry is a script or packed, these are all the operations. *)
Theorem extract_stored_entries {Aux : Type}
    (decompress : list byte -> result (list byte * Aux)) (os : opsys)
    (content : list byte) (self' : EmeArchive) (output_dir : string) :
  open new_archive (Some content) = (true, self') ->
  (forall log,
     extract decompress os self' content output_dir log
     = match os log (MakeOutputDir output_dir) with
       | Some x => Throw x (log ++ [MakeOutputDir output_dir])
       | None =>
           Next (fold_left
                   (fun log e =>
                      extract_entry decompress os self' content output_dir
                        e log)
                   (entries self') (log ++ [MakeOutputDir output_dir]))
       end)
  /\ (forall e log,
        In e (entries self') ->
        sub_type e <> 3 -> is_packed e = false ->
        extract_entry decompress os self' content output_dir e log
        = stored_steps os content output_dir e log)
  /\ ((forall h op, os h op = None) ->
      (forall e, In e (entries self') ->
         sub_type e <> 3 /\ is_packed e = false) ->
      forall log,
        extract decompress os self' content output_dir log
        = Next (log ++ MakeOutputDir output_dir
                       :: flat_map (stored_ops content output_dir)
                            (entries self'))).
Proof.
  intros Hopen.
  pose proof (open_keeps well_formed new_archive (Some content)
                read_entry_well_formed (Forall_nil _)) as Hwf.
  rewrite Hopen in Hwf. cbn [snd] in Hwf.
  split; [|split].
  - intros log. unfold extract, attempt.
    destruct (os log (MakeOutputDir output_dir)); reflexivity.
  - intros e log He Hsub Hp. apply extract_stored_entry; try assumption.
    rewrite Forall_forall in Hwf. exact (Hwf e He).
  - intros Hos Hall log. unfold extract, attempt. rewrite Hos.
    rewrite (extract_willing decompress os self' content output_dir
               (entries self') Hos Hwf Hall).
    rewrite <- app_assoc. reflexivity.
Qed.

Lemma extract_stored_entries_witness :
  extract failing_decompress willing
    (snd (open new_archive (Some stored_container))) stored_container
    "out" []
  = Next [MakeOutputDir "out";
          MakeParent "out" [x61; x2e; x62; x69; x6e];
          PrintExtracting [x61; x2e; x62; x69; x6e];
          OpenOutput "out" [x61; x2e; x62; x69; x6e];
          WriteOutput "out" [x61; x2e; x62; x69; x6e] [x41; x42; x43];
          CloseOutput "out" [x61; x2e; x62; x69; x6e]].
Proof.
  destruct (extract_stored_entries failing_decompress willing
              stored_container
              (snd (open new_archive (Some stored_container))) "out")
    as (_ & _ & H).
  - vm_compute. reflexivity.
  - rewrite H; [vm_compute; reflexivity|reflexivity|].
    intros e He. vm_compute in He. destruct He as [<-|[]].
    split; [vm_compute; discriminate|reflexivity].
Defined.



(* ================================================================== *)
(** ** When [decrypt] cannot fail, and when it changes nothing *)
(* ================================================================== *)

Lemma slice_rebuild {A} (l : list A) (offset length : Z) :
  0 <= offset -> 0 <= length ->
  firstn (clamp (len l) offset) l
  ++ slice l offset (offset + length)
  ++ skipn (Nat.max (clamp (len l) offset)
              (clamp (len l) (offset + length))) l
  = l.
Proof.
  intros Ho Hl. unfold slice.
  set (a := clamp (len l) offset).
  set (b := clamp (len l) (offset + length)).
  assert (Hab : (a <= b)%nat).
  { unfold a, b, clamp.
    destruct (Z.ltb_spec offset 0); [lia|].
    destruct (Z.ltb_spec (offset + length) 0); lia. }
  rewrite Nat.max_r by exact Hab.
  replace (skipn b l) with (skipn (b - a) (skipn a l))
    by (rewrite skipn_skipn; f_equal; lia).
  rewrite (firstn_skipn (b - a) (skipn a l)).
  apply firstn_skipn.
Qed.

(** X19.  With 40 bytes of key material, [decrypt] never raises on a
    region that lies inside the buffer and is a whole number of 32-bit
    words long, whatever the eight opcodes and keys are, and the buffer
    keeps its length. *)
Theorem decrypt_whole_words_total (buffer : list byte) (offset length : Z)
    (routine : list byte) :
  List.length routine = 40%nat ->
  0 <= offset -> 0 <= length -> offset + length <= len buffer ->
  length mod 4 = 0 ->
  exists buffer',
    decrypt buffer offset length routine = Ok buffer'
    /\ List.length buffer' = List.length buffer.
Proof.
  intros Hr Ho Hl Hin Hw.
  assert (Hs : len (slice buffer offset (offset + length)) = length).
  { unfold len. rewrite slice_length.
    rewrite !clamp_inside by (unfold len in *; lia). lia. }
  destruct (decrypt_data_total (slice buffer offset (offset + length))
              routine Hr ltac:(rewrite Hs; exact Hw)) as (d & Hd & Hdl).
  assert (Hdec : decrypt buffer offset length routine
                 = Ok (firstn (clamp (len buffer) offset) buffer ++ d
                       ++ skipn (Nat.max (clamp (len buffer) offset)
                                   (clamp (len buffer) (offset + length)))
                            buffer))
    by (unfold decrypt; rewrite Hd; reflexivity).
  eexists. split; [exact Hdec|].
  exact (decrypt_length _ _ _ _ _ Ho Hl Hdec).
Qed.

Lemma decrypt_whole_words_total_witness :
  exists buffer',
    decrypt example_region 0 8 example_routine = Ok buffer'
    /\ List.length buffer' = List.length example_region.
Proof.
  apply decrypt_whole_words_total.
  - reflexivity.
  - lia.
  - lia.
  - vm_compute. discriminate.
  - reflexivity.
Defined.

(** X20.  Key material of 40 bytes whose first eight bytes are none of 1,
    2, 4 and 8 makes [decrypt] leave the buffer as it is, for every
    region given by an offset and a length that are not negative, also
    one that is not a whole number of words or reaches beyond the
    buffer. *)
Theorem decrypt_neutral_key (buffer : list byte) (offset length : Z)
    (routine : list byte) :
  List.length routine = 40%nat ->
  (forall i, 0 <= i < 8 -> ~ In (stage_opcode routine i) [1; 2; 4; 8]) ->
  0 <= offset -> 0 <= length ->
  decrypt buffer offset length routine = Ok buffer.
Proof.
  intros Hr Hops Ho Hl. unfold decrypt.
  rewrite decrypt_data_spec by exact Hr.
  unfold apply_stages.
  assert (Hround : forall i data,
             0 <= i < 8 -> round routine i data = Ok data).
  { intros i data Hi. unfold round.
    apply stage_noop; intros E; apply (Hops i Hi); rewrite E;
      cbn [In]; auto. }
  cbn [for_ bind].
  repeat (rewrite Hround by lia; cbn [bind]).
  f_equal. apply slice_rebuild; assumption.
Qed.

Lemma decrypt_neutral_key_witness :
  decrypt example_region 1 6 (repeat x00 40) = Ok example_region.
Proof.
  apply decrypt_neutral_key.
  - reflexivity.
  - intros i Hi.
    assert (Hc : i = 0 \/ i = 1 \/ i = 2 \/ i = 3 \/ i = 4 \/ i = 5
                 \/ i = 6 \/ i = 7) by lia.
    destruct Hc as [->|[->|[->|[->|[->|[->|[->| ->]]]]]]];
      vm_compute; intuition discriminate.
  - lia.
  - lia.
Defined.

(* ================================================================== *)
(** ** Every byte string can be decoded to *)
(* ================================================================== *)

Lemma testbit_255 (bit : Z) : 0 <= bit < 8 -> Z.testbit 255 bit = true.
Proof.
  intros H.
  assert (Hc : bit = 0 \/ bit = 1 \/ bit = 2 \/ bit = 3 \/ bit = 4
               \/ bit = 5 \/ bit = 6 \/ bit = 7) by lia.
  destruct Hc as [->|[->|[->|[->|[->|[->|[->| ->]]]]]]]; reflexivity.
Qed.

Lemma literal_run (chunk : list byte) :
  forall bits s rest,
    co_ok s -> co_input s = chunk ++ rest ->
    (forall b, In b bits -> 0 <= b < 8) ->
    length chunk = length bits ->
    exists s',
      each bits (co_bit 4095 255) s = Next s' /\
      co_ok s' /\ co_input s' = rest /\
      co_buffer s' = co_buffer s ++ chunk.
Proof.
  induction chunk as [|b chunk IH]; intros bits s rest Hok Hi Hb Hl.
  - destruct bits; [|discriminate]. exists s. cbn [each].
    rewrite app_nil_r. repeat split; assumption.
  - destruct bits as [|bit bits]; [discriminate|]. cbn [each].
    rewrite co_bit_eq by exact Hok.
    rewrite control_bit by (apply Hb; left; reflexivity).
    rewrite testbit_255 by (apply Hb; left; reflexivity).
    rewrite Hi. cbn [app].
    destruct (IH bits (co_emit b (co_set_input s (chunk ++ rest))) rest)
      as (s' & Hs' & Hok' & Hi' & Hb').
    + apply co_emit_ok. exact Hok.
    + reflexivity.
    + intros x Hx. apply Hb. right. exact Hx.
    + cbn [length] in Hl. lia.
    + exists s'. split; [exact Hs'|]. split; [exact Hok'|].
      split; [exact Hi'|]. rewrite Hb'.
      cbn [co_emit co_set_input co_buffer]. rewrite <- app_assoc.
      reflexivity.
Qed.

Lemma literal_run_short (chunk : list byte) :
  forall bits s,
    co_ok s -> co_input s = chunk ->
    (forall b, In b bits -> 0 <= b < 8) ->
    (length chunk < length bits)%nat ->
    exists s',
      each bits (co_bit 4095 255) s = Return s' /\
      co_buffer s' = co_buffer s ++ chunk.
Proof.
  induction chunk as [|b chunk IH]; intros bits s Hok Hi Hb Hl;
    (destruct bits as [|bit bits]; [cbn [length] in Hl; lia|]);
    cbn [each]; rewrite co_bit_eq by exact Hok;
    rewrite control_bit by (apply Hb; left; reflexivity);
    rewrite testbit_255 by (apply Hb; left; reflexivity);
    rewrite Hi.
  - exists s. rewrite app_nil_r. split; reflexivity.
  - destruct (IH bits (co_emit b (co_set_input s chunk)))
      as (s' & Hs' & Hb').
    + apply co_emit_ok. exact Hok.
    + reflexivity.
    + intros x Hx. apply Hb. right. exact Hx.
    + cbn [length] in Hl. lia.
    + exists s'. split; [exact Hs'|]. rewrite Hb'.
      cbn [co_emit co_set_input co_buffer]. rewrite <- app_assoc.
      reflexivity.
Qed.

Lemma range_8_bits (b : Z) : In b (range 8) -> 0 <= b < 8.
Proof.
  change (range 8) with [0; 1; 2; 3; 4; 5; 6; 7]. cbn [In]. lia.
Qed.

Lemma literal_groups_decode (n : nat) :
  forall data fuel s,
    co_ok s -> co_input s = literal_groups n data ->
    (length data <= n)%nat -> (length (co_input s) < fuel)%nat ->
    exists s',
      co_while fuel 4095 s = Some (Return s') /\
      co_buffer s' = co_buffer s ++ data.
Proof.
  induction n as [|n IH]; intros data fuel s Hok Hi Hn Hf.
  - destruct data; [|cbn [length] in Hn; lia].
    destruct fuel as [|fuel]; [lia|]. cbn [co_while]. unfold co_read.
    rewrite Hi. cbn [literal_groups].
    exists s. rewrite app_nil_r. split; reflexivity.
  - destruct fuel as [|fuel]; [lia|]. cbn [co_while]. unfold co_read.
    rewrite Hi in Hf |- *. cbn [literal_groups] in Hf |- *.
    destruct data as [|d ds].
    { exists s. rewrite app_nil_r. split; reflexivity. }
    set (data := d :: ds) in *.
    change {| co_input := firstn 8 data ++ literal_groups n (skipn 8 data);
              co_buffer := co_buffer s;
              co_pos := co_pos s; co_length := co_length s;
              co_frame := co_frame s; co_frame_pos := co_frame_pos s;
              co_yields := co_yields s |}
      with (co_set_input s
              (firstn 8 data ++ literal_groups n (skipn 8 data))).
    change (ord xff) with 255.
    destruct (Nat.le_gt_cases 8 (length data)) as [Hlong|Hshort].
    + destruct (literal_run (firstn 8 data) (range 8)
                  (co_set_input s
                     (firstn 8 data ++ literal_groups n (skipn 8 data)))
                  (literal_groups n (skipn 8 data)) Hok eq_refl
                  range_8_bits)
        as (s1 & Hs1 & Hok1 & Hi1 & Hb1).
      { rewrite length_firstn. change (length (range 8)) with 8%nat. lia. }
      rewrite Hs1.
      destruct (IH (skipn 8 data) fuel s1 Hok1 Hi1) as (s' & Hs' & Hb').
      * rewrite length_skipn. lia.
      * rewrite Hi1. cbn [length] in Hf. rewrite length_app in Hf. lia.
      * exists s'. split; [exact Hs'|].
        rewrite Hb', Hb1. cbn [co_set_input co_buffer].
        rewrite <- app_assoc, firstn_skipn. reflexivity.
    + assert (Hall : firstn 8 data = data) by (apply firstn_all2; lia).
      assert (Hnone : literal_groups n (skipn 8 data) = []).
      { rewrite skipn_all2 by lia. destruct n; reflexivity. }
      rewrite Hall, Hnone, app_nil_r.
      destruct (literal_run_short data (range 8) (co_set_input s data)
                  Hok eq_refl range_8_bits)
        as (s1 & Hs1 & Hb1).
      { change (length (range 8)) with 8%nat. lia. }
      rewrite Hs1. exists s1. split; [reflexivity|exact Hb1].
Qed.

(** X21.  Every byte string is what both decoders produce from a stream
    of literals: for [stored data], which is [data] in groups of up to
    eight bytes, each behind a control byte 0xFF,
    [LzssCoroutine.unpack] ends with [self.buffer] equal to [data], and
    [LzssReader.unpack], given the length of the stream and the length of
    [data], ends without raising and with [self.output] equal to
    [data]. *)
Theorem literal_stream_round_trip (data : list byte) (n : Z) :
  (exists s,
     co_unpack default_settings (stored data) n = Some (Return s)
     /\ co_buffer s = data)
  /\ (exists r f,
        LzssReader (stored data) (len (stored data)) (len data) = Ok r
        /\ r_unpack r = Some f
        /\ ~ raised f
        /\ r_output (final f) = data).
Proof.
  assert (Hco : exists s,
             co_unpack default_settings (stored data) n = Some (Return s)
             /\ co_buffer s = data).
  { destruct (literal_groups_decode (length data) data
                (S (length (stored data)))
                (co_start default_settings (stored data) n)
                (co_start_ok (stored data) n) eq_refl (Nat.le_refl _))
      as (s & Hs & Hb).
    - cbn [co_start co_input]. lia.
    - exists s. split; [exact Hs|exact Hb]. }
  split; [exact Hco|].
  destruct Hco as (s & Hs & Hb).
  destruct (reader_built (stored data) (len (stored data)) (len data)
              ltac:(unfold len; lia))
    as (r & Hr & Hsize & Hframe & Hag).
  specialize (Hag ltac:(unfold len; lia) n).
  unfold len in Hag at 2. rewrite Nat2Z.id, firstn_all in Hag.
  destruct (while_sim (len data) _ _ s Hs
              (Z.to_nat (rd_size r)) (r_start r) Hag)
    as (f & Hf & Hnr & Hout & _).
  { cbn [r_start r_remaining]. lia. }
  exists r, f. split; [exact Hr|].
  split; [unfold r_unpack; rewrite Hframe; exact Hf|].
  split; [exact Hnr|].
  rewrite Hout, Hb. unfold truncated, len.
  rewrite Nat2Z.id, firstn_all, Z.sub_diag. cbn [Z.to_nat repeat].
  apply app_nil_r.
Qed.
